(** * Warehouse multi-agent simulation (Types_Agents/Multi-Agent.py)

    A shallow embedding of the agent classes ([BaseAgent], [PickerAgent],
    [TransportAgent], [CoordinatorAgent]) and of [MultiAgentSystem], followed
    by the properties of the coordination core.

    Python objects are shared by reference: the same agent object sits in
    [MultiAgentSystem.agents], possibly in [CoordinatorAgent.agent_registry]
    and in [MultiAgentSystem.coordinator].  The embedding therefore keeps the
    agent objects in a store ([heap]) and lets dictionaries hold addresses.
    Methods that only touch [self] are written over a local state, methods
    that reach other objects are written over the whole [World]. *)

From Stdlib Require Import ZArith String List Lia.
From stdpp Require Import base numbers list strings.

Import ListNotations.
Local Open Scope string_scope.
Local Open Scope Z_scope.
Local Open Scope list_scope.

(** ** Values and dictionaries *)

(** The payloads that travel in request and order dictionaries. *)
Inductive Value : Type :=
| VNone
| VInt (z : Z)
| VStr (s : string)
| VTuple (x y : Z)
| VList (items : list string).

(** Python exceptions that the modelled code can raise. *)
Inductive Exn : Type :=
| AttributeError (attr : string)
| TypeError (what : string).

(** A [dict] with string keys.  Iteration follows insertion order and
    assigning to an existing key keeps its place, as in Python. *)
Abbreviation PyDict V := (list (string * V)).

Fixpoint dict_lookup {V} (d : PyDict V) (k : string) : option V :=
  match d with
  | [] => None
  | (k', v) :: d' => if String.eqb k' k then Some v else dict_lookup d' k
  end.

(** [d.get(k, default)] *)
Definition dict_get {V} (d : PyDict V) (k : string) (default : V) : V :=
  match dict_lookup d k with
  | Some v => v
  | None => default
  end.

(** [d[k] = v] *)
Fixpoint dict_set {V} (k : string) (v : V) (d : PyDict V) : PyDict V :=
  match d with
  | [] => [(k, v)]
  | (k', v') :: d' =>
      if String.eqb k' k then (k', v) :: d' else (k', v') :: dict_set k v d'
  end.

(** [d.values()] *)
Definition dict_values {V} (d : PyDict V) : list V := map snd d.

Definition dict_keys {V} (d : PyDict V) : list string := map fst d.

Abbreviation Dict := (PyDict Value).

(** [v == s] for a string literal [s]. *)
Definition value_eq_str (v : Value) (s : string) : bool :=
  match v with
  | VStr s' => String.eqb s' s
  | _ => false
  end.

(** ** Enumerations, messages, agents *)

Inductive AgentState : Type := IDLE | WORKING | MOVING | CHARGING | WAITING.

Definition AgentState_eqb (s1 s2 : AgentState) : bool :=
  match s1, s2 with
  | IDLE, IDLE | WORKING, WORKING | MOVING, MOVING
  | CHARGING, CHARGING | WAITING, WAITING => true
  | _, _ => false
  end.

Record Message : Type := mkMessage {
  sender_id : string;
  receiver_id : string;
  message_type : string;
  content : Dict;
  timestamp : Z
}.

(** Addresses of agent objects in the store. *)
Abbreviation ref := nat.

(** The class an object was instantiated from. *)
Inductive AgentClass : Type :=
| BaseCls | PickerCls | TransportCls | CoordinatorCls.

Definition AgentClass_eqb (c1 c2 : AgentClass) : bool :=
  match c1, c2 with
  | BaseCls, BaseCls | PickerCls, PickerCls
  | TransportCls, TransportCls | CoordinatorCls, CoordinatorCls => true
  | _, _ => false
  end.

(** [performance_metrics] *)
Record Metrics : Type := mkMetrics {
  tasks_completed : Z;
  messages_sent : Z;
  messages_received : Z;
  collaboration_count : Z
}.

(** One agent object.  [carrying_capacity], [current_load] and [speed]
    ([picking_speed] / [transport_speed]) are the attributes that
    [PickerAgent] and [TransportAgent] add; [pending_orders],
    [charging_stations], [available_stations] (the two entries of
    [resource_status]) and [agent_registry] are those of [CoordinatorAgent]. *)
Record Agent : Type := mkAgent {
  cls : AgentClass;
  agent_id : string;
  agent_type : string;
  position : Value;
  state : AgentState;
  battery_level : Z;
  message_queue : list Message;
  current_task : option Dict;
  performance_metrics : Metrics;
  carrying_capacity : Z;
  current_load : Z;
  speed : Z;
  pending_orders : list Dict;
  charging_stations : Z;
  available_stations : Z;
  agent_registry : PyDict ref
}.

(** Attribute assignment. *)
Definition set_position (v : Value) (a : Agent) : Agent :=
  mkAgent (cls a) (agent_id a) (agent_type a) v (state a) (battery_level a)
    (message_queue a) (current_task a) (performance_metrics a)
    (carrying_capacity a) (current_load a) (speed a)
    (pending_orders a) (charging_stations a) (available_stations a)
    (agent_registry a).

Definition set_state (s : AgentState) (a : Agent) : Agent :=
  mkAgent (cls a) (agent_id a) (agent_type a) (position a) s (battery_level a)
    (message_queue a) (current_task a) (performance_metrics a)
    (carrying_capacity a) (current_load a) (speed a)
    (pending_orders a) (charging_stations a) (available_stations a)
    (agent_registry a).

Definition set_battery_level (b : Z) (a : Agent) : Agent :=
  mkAgent (cls a) (agent_id a) (agent_type a) (position a) (state a) b
    (message_queue a) (current_task a) (performance_metrics a)
    (carrying_capacity a) (current_load a) (speed a)
    (pending_orders a) (charging_stations a) (available_stations a)
    (agent_registry a).

Definition set_message_queue (q : list Message) (a : Agent) : Agent :=
  mkAgent (cls a) (agent_id a) (agent_type a) (position a) (state a)
    (battery_level a) q (current_task a) (performance_metrics a)
    (carrying_capacity a) (current_load a) (speed a)
    (pending_orders a) (charging_stations a) (available_stations a)
    (agent_registry a).

Definition set_current_task (t : option Dict) (a : Agent) : Agent :=
  mkAgent (cls a) (agent_id a) (agent_type a) (position a) (state a)
    (battery_level a) (message_queue a) t (performance_metrics a)
    (carrying_capacity a) (current_load a) (speed a)
    (pending_orders a) (charging_stations a) (available_stations a)
    (agent_registry a).

Definition set_performance_metrics (p : Metrics) (a : Agent) : Agent :=
  mkAgent (cls a) (agent_id a) (agent_type a) (position a) (state a)
    (battery_level a) (message_queue a) (current_task a) p
    (carrying_capacity a) (current_load a) (speed a)
    (pending_orders a) (charging_stations a) (available_stations a)
    (agent_registry a).

Definition set_current_load (l : Z) (a : Agent) : Agent :=
  mkAgent (cls a) (agent_id a) (agent_type a) (position a) (state a)
    (battery_level a) (message_queue a) (current_task a)
    (performance_metrics a) (carrying_capacity a) l (speed a)
    (pending_orders a) (charging_stations a) (available_stations a)
    (agent_registry a).

Definition set_pending_orders (o : list Dict) (a : Agent) : Agent :=
  mkAgent (cls a) (agent_id a) (agent_type a) (position a) (state a)
    (battery_level a) (message_queue a) (current_task a)
    (performance_metrics a) (carrying_capacity a) (current_load a) (speed a)
    o (charging_stations a) (available_stations a) (agent_registry a).

Definition set_available_stations (n : Z) (a : Agent) : Agent :=
  mkAgent (cls a) (agent_id a) (agent_type a) (position a) (state a)
    (battery_level a) (message_queue a) (current_task a)
    (performance_metrics a) (carrying_capacity a) (current_load a) (speed a)
    (pending_orders a) (charging_stations a) n (agent_registry a).

Definition set_agent_registry (g : PyDict ref) (a : Agent) : Agent :=
  mkAgent (cls a) (agent_id a) (agent_type a) (position a) (state a)
    (battery_level a) (message_queue a) (current_task a)
    (performance_metrics a) (carrying_capacity a) (current_load a) (speed a)
    (pending_orders a) (charging_stations a) (available_stations a) g.

(** [self.performance_metrics[...] += 1] *)
Definition incr_tasks_completed (a : Agent) : Agent :=
  let p := performance_metrics a in
  set_performance_metrics
    (mkMetrics (tasks_completed p + 1) (messages_sent p)
       (messages_received p) (collaboration_count p)) a.

Definition incr_messages_sent (a : Agent) : Agent :=
  let p := performance_metrics a in
  set_performance_metrics
    (mkMetrics (tasks_completed p) (messages_sent p + 1)
       (messages_received p) (collaboration_count p)) a.

Definition incr_messages_received (a : Agent) : Agent :=
  let p := performance_metrics a in
  set_performance_metrics
    (mkMetrics (tasks_completed p) (messages_sent p)
       (messages_received p + 1) (collaboration_count p)) a.

Definition incr_collaboration_count (a : Agent) : Agent :=
  let p := performance_metrics a in
  set_performance_metrics
    (mkMetrics (tasks_completed p) (messages_sent p)
       (messages_received p) (collaboration_count p + 1)) a.

(** ** Console narration

    One constructor per [print] statement of the modelled methods, carrying
    the interpolated values. *)
Inductive Output : Type :=
| OInit (id type : string) (pos : Value)
| OSent (id type receiver : string) (payload : Dict)
| OReceived (id type sender : string)
| OHandling (id type : string) (payload : Dict)
| OBatteryLow (id : string) (level : Z)
| OPickRequest (id : string) (n : Z) (location : Value)
| OPickRejected (id : string)
| OCollabAccepted (id : string)
| OMoving (id : string) (from to : Value)
| OPicking (id : string) (n : Z)
| OTransportRequest (id : string) (item_count : Value)
| OPickupReady (id : string)
| OExecuting (id : string)
| OLoaded (id : string) (item_count : Value)
| ODelivered (id : string) (item_count : Value)
| ORegistered (id : string)
| OProcessingOrder (order : Dict)
| OAssigned (picker transporter : string)
| OQueuing
| OStationAllocated (requesting_agent : Value)
| ONoStation (requesting_agent : Value)
| OStatusUpdate (id status : Value)
| OSystemInit
| OAdded (type id : string)
| ORoutingFailed (receiver : string)
| ONewOrder (order : Dict)
| ONoCoordinator
| OStep
| OCompetition (n : Z)
| OCharged (id : string)
| OWaiting (id : string).

(** ** The system object and the world *)

(** [MultiAgentSystem]; the three entries of [system_metrics] are fields. *)
Record MultiAgentSystem : Type := mkMAS {
  agents : PyDict ref;
  coordinator : option ref;
  message_log : list Message;
  total_messages : Z;
  orders_processed : Z;
  collaboration_instances : Z
}.

(** Everything the program can see or change: the store of agent objects,
    the system object, the console, and the pseudo-random source (an
    arbitrary stream [rand] read at position [rand_ix]).  [dispatched] is a
    history variable: it records each call [self.handle_message(message)]
    made by [process_messages] and is read by no modelled code. *)
Record World : Type := mkWorld {
  heap : list Agent;
  mas : MultiAgentSystem;
  stdout : list Output;
  rand : nat -> Z;
  rand_ix : nat;
  dispatched : list (ref * Message)
}.

(** The state seen by a method that only touches [self]. *)
Record Local : Type := mkLocal {
  self : Agent;
  out : list Output
}.

(** ** State and exception monad *)

(** Outcome of a call: normal return, a raised exception, exhausted fuel
    (for the [while] loop of [process_messages]) or a dangling address
    (which no Python program can produce). *)
Inductive Result (A : Type) : Type :=
| Ret (a : A)
| Raise (e : Exn)
| NoFuel
| BadRef.

Arguments Ret {A} a.
Arguments Raise {A} e.
Arguments NoFuel {A}.
Arguments BadRef {A}.

Definition M (S A : Type) : Type := S -> Result A * S.

Definition ret {S A} (a : A) : M S A := fun s => (Ret a, s).

Definition bind {S A B} (m : M S A) (k : A -> M S B) : M S B :=
  fun s =>
    match m s with
    | (Ret a, s') => k a s'
    | (Raise e, s') => (Raise e, s')
    | (NoFuel, s') => (NoFuel, s')
    | (BadRef, s') => (BadRef, s')
    end.

Definition raise {S A} (e : Exn) : M S A := fun s => (Raise e, s).

Notation "'let*' x ':=' m 'in' k" := (bind m (fun x => k))
  (at level 10, x name, m at level 100, k at level 200, only parsing).
Notation "m >>> k" := (bind m (fun _ => k))
  (at level 90, right associativity, only parsing).

(** [for x in l: body(x)] *)
Fixpoint for_each {S X} (l : list X) (body : X -> M S unit) : M S unit :=
  match l with
  | [] => ret tt
  | x :: l' => body x >>> for_each l' body
  end.

(** [len(v)]: the length, or the [TypeError] Python raises. *)
Definition len (v : Value) : Result Z :=
  match v with
  | VList items => Ret (Z.of_nat (length items))
  | VStr s => Ret (Z.of_nat (String.length s))
  | VTuple _ _ => Ret 2
  | VInt _ => Raise (TypeError "object of type 'int' has no len()")
  | VNone => Raise (TypeError "object of type 'NoneType' has no len()")
  end.

Definition py_len {S} (v : Value) : M S Z := fun s => (len v, s).

(** The integer held by [v], for [v <= n] and [n += v] with [n] an [int];
    other operands raise [TypeError]. *)
Definition as_int (v : Value) : Result Z :=
  match v with
  | VInt z => Ret z
  | _ => Raise (TypeError "unsupported operand type(s)")
  end.

Definition py_int {S} (v : Value) : M S Z := fun s => (as_int v, s).

(** *** Primitives on the local state *)

Definition get_self : M Local Agent := fun l => (Ret (self l), l).

Definition modify_self (f : Agent -> Agent) : M Local unit :=
  fun l => (Ret tt, mkLocal (f (self l)) (out l)).

Definition print_l (o : Output) : M Local unit :=
  fun l => (Ret tt, mkLocal (self l) (out l ++ [o])).

(** *** Primitives on the world *)

Definition set_heap (h : list Agent) (w : World) : World :=
  mkWorld h (mas w) (stdout w) (rand w) (rand_ix w) (dispatched w).

Definition set_mas (m : MultiAgentSystem) (w : World) : World :=
  mkWorld (heap w) m (stdout w) (rand w) (rand_ix w) (dispatched w).

Definition set_stdout (o : list Output) (w : World) : World :=
  mkWorld (heap w) (mas w) o (rand w) (rand_ix w) (dispatched w).

Definition set_rand_ix (n : nat) (w : World) : World :=
  mkWorld (heap w) (mas w) (stdout w) (rand w) n (dispatched w).

Definition set_dispatched (d : list (ref * Message)) (w : World) : World :=
  mkWorld (heap w) (mas w) (stdout w) (rand w) (rand_ix w) d.

Definition get_agent (r : ref) : M World Agent :=
  fun w =>
    match heap w !! r with
    | Some a => (Ret a, w)
    | None => (BadRef, w)
    end.

Definition modify_agent (r : ref) (f : Agent -> Agent) : M World unit :=
  fun w =>
    match heap w !! r with
    | Some a => (Ret tt, set_heap (<[r := f a]> (heap w)) w)
    | None => (BadRef, w)
    end.

(** Object creation: the new object gets the next free address. *)
Definition alloc (a : Agent) : M World ref :=
  fun w => (Ret (length (heap w)), set_heap (heap w ++ [a]) w).

Definition get_mas : M World MultiAgentSystem := fun w => (Ret (mas w), w).

Definition modify_mas (f : MultiAgentSystem -> MultiAgentSystem) : M World unit :=
  fun w => (Ret tt, set_mas (f (mas w)) w).

Definition print (o : Output) : M World unit :=
  fun w => (Ret tt, set_stdout (stdout w ++ [o]) w).

(** [random.randint(lo, hi)]: the next element of the stream, brought into
    [lo..hi]. *)
Definition randint (lo hi : Z) : M World Z :=
  fun w =>
    (Ret (lo + (rand w (rand_ix w)) mod (hi - lo + 1)),
     set_rand_ix (S (rand_ix w)) w).

(** History: [r] is about to handle [m]. *)
Definition note_dispatch (r : ref) (m : Message) : M World unit :=
  fun w =>
    (Ret tt, set_dispatched (dispatched w ++ [(r, m)]) w).

(** A method call [obj.method(...)] for a method that only touches [self]:
    run it on the object stored at [r] and store the object back. *)
Definition with_self {A} (r : ref) (m : M Local A) : M World A :=
  fun w =>
    match heap w !! r with
    | Some a =>
        let '(res, l) := m (mkLocal a (stdout w)) in
        (res, set_stdout (out l) (set_heap (<[r := self l]> (heap w)) w))
    | None => (BadRef, w)
    end.

(** ** BaseAgent *)

(** The attributes set by [BaseAgent.__init__]; the attributes of the
    subclasses start at the neutral values given here and are overwritten by
    the subclass constructors below. *)
Definition base_attributes (c : AgentClass) (id type : string) (pos : Value) : Agent :=
  mkAgent c id type pos IDLE 100 [] None (mkMetrics 0 0 0 0) 0 0 0 [] 0 0 [].

(** [BaseAgent(agent_id, agent_type, position)] *)
Definition BaseAgent (id type : string) (pos : Value) : M World ref :=
  print (OInit id type pos) >>>
  alloc (base_attributes BaseCls id type pos).

(** [BaseAgent.receive_message] *)
Definition receive_message (message : Message) : M Local unit :=
  modify_self (fun a => set_message_queue (message_queue a ++ [message]) a) >>>
  modify_self incr_messages_received >>>
  let* a := get_self in
  print_l (OReceived (agent_id a) (message_type message) (sender_id message)).

(** [BaseAgent.handle_message] *)
Definition Base_handle_message (message : Message) : M Local unit :=
  let* a := get_self in
  print_l (OHandling (agent_id a) (message_type message) (content message)).

(** [BaseAgent.update_battery] *)
Definition update_battery (consumption : Z) : M Local unit :=
  modify_self (fun a => set_battery_level (Z.max 0 (battery_level a - consumption)) a) >>>
  let* a := get_self in
  if battery_level a <? 20
  then print_l (OBatteryLow (agent_id a) (battery_level a))
  else ret tt.

(** ** PickerAgent *)

(** [PickerAgent(agent_id, position)] *)
Definition PickerAgent (id : string) (pos : Value) : M World ref :=
  print (OInit id "Picker" pos) >>>
  alloc (mkAgent PickerCls id "Picker" pos IDLE 100 [] None (mkMetrics 0 0 0 0)
           10 0 2 [] 0 0 []).

(** [PickerAgent.move_to_location] *)
Definition Picker_move_to_location (target_location : Value) : M Local unit :=
  modify_self (set_state MOVING) >>>
  (let* a := get_self in
   print_l (OMoving (agent_id a) (position a) target_location)) >>>
  modify_self (set_position target_location) >>>
  update_battery 2.

(** The call [self.move_to_location(...)]: the attribute is looked up in the
    class of [self] and its bases.  Only [PickerAgent] defines it; neither
    [TransportAgent], [CoordinatorAgent] nor [BaseAgent] does. *)
Definition move_to_location (target_location : Value) : M Local unit :=
  let* a := get_self in
  match cls a with
  | PickerCls => Picker_move_to_location target_location
  | _ => raise (AttributeError "move_to_location")
  end.

(** [PickerAgent.pick_items] *)
Definition pick_items (items : Value) : M Local unit :=
  (let* a := get_self in
   let* n := py_len items in
   print_l (OPicking (agent_id a) n)) >>>
  (let* n := py_len items in
   modify_self (fun a => set_current_load (current_load a + n) a)) >>>
  (let* n := py_len items in update_battery n) >>>
  modify_self (set_state IDLE).

(** [PickerAgent.handle_pick_request] *)
Definition handle_pick_request (request : Dict) : M Local unit :=
  let items_needed := dict_get request "items" (VList []) in
  let location := dict_get request "location" (VTuple 0 0) in
  (let* a := get_self in
   let* n := py_len items_needed in
   print_l (OPickRequest (agent_id a) n location)) >>>
  let* accept :=
    (let* a := get_self in
     if AgentState_eqb (state a) IDLE
     then let* n := py_len items_needed in
          ret (current_load a + n <=? carrying_capacity a)
     else ret false) in
  if accept : bool then
    modify_self (set_state WORKING) >>>
    modify_self (set_current_task (Some request)) >>>
    move_to_location location >>>
    pick_items items_needed >>>
    modify_self incr_tasks_completed
  else
    let* a := get_self in print_l (OPickRejected (agent_id a)).

(** [PickerAgent.handle_collaboration_request] *)
Definition handle_collaboration_request (request : Dict) : M Local bool :=
  let* a := get_self in
  if AgentState_eqb (state a) IDLE then
    print_l (OCollabAccepted (agent_id a)) >>>
    modify_self incr_collaboration_count >>>
    ret true
  else ret false.

(** [PickerAgent.handle_message] *)
Definition Picker_handle_message (message : Message) : M Local unit :=
  if String.eqb (message_type message) "PICK_REQUEST" then
    handle_pick_request (content message)
  else if String.eqb (message_type message) "COLLABORATION_REQUEST" then
    handle_collaboration_request (content message) >>> ret tt
  else ret tt.

(** ** TransportAgent *)

(** [TransportAgent(agent_id, position)] *)
Definition TransportAgent (id : string) (pos : Value) : M World ref :=
  print (OInit id "Transport" pos) >>>
  alloc (mkAgent TransportCls id "Transport" pos IDLE 100 [] None
           (mkMetrics 0 0 0 0) 50 0 5 [] 0 0 []).

(** [TransportAgent.execute_transport] *)
Definition execute_transport (pickup_loc delivery_loc item_count : Value) : M Local unit :=
  (let* a := get_self in print_l (OExecuting (agent_id a))) >>>
  move_to_location pickup_loc >>>
  (let* n := py_int item_count in
   modify_self (fun a => set_current_load (current_load a + n) a)) >>>
  (let* a := get_self in print_l (OLoaded (agent_id a) item_count)) >>>
  move_to_location delivery_loc >>>
  (let* n := py_int item_count in
   modify_self (fun a => set_current_load (current_load a - n) a)) >>>
  (let* a := get_self in print_l (ODelivered (agent_id a) item_count)) >>>
  modify_self (set_state IDLE).

(** [TransportAgent.handle_transport_request] *)
Definition handle_transport_request (request : Dict) : M Local unit :=
  let pickup_location := dict_get request "pickup_location" (VTuple 0 0) in
  let delivery_location := dict_get request "delivery_location" (VTuple 10 10) in
  let item_count := dict_get request "item_count" (VInt 0) in
  (let* a := get_self in print_l (OTransportRequest (agent_id a) item_count)) >>>
  let* accept :=
    (let* a := get_self in
     if AgentState_eqb (state a) IDLE
     then let* n := py_int item_count in ret (n <=? carrying_capacity a)
     else ret false) in
  if accept : bool then
    modify_self (set_state WORKING) >>>
    modify_self (set_current_task (Some request)) >>>
    execute_transport pickup_location delivery_location item_count >>>
    modify_self incr_tasks_completed
  else ret tt.

(** [TransportAgent.handle_pickup_ready] *)
Definition handle_pickup_ready (notification : Dict) : M Local unit :=
  let* a := get_self in print_l (OPickupReady (agent_id a)).

(** [TransportAgent.handle_message] *)
Definition Transport_handle_message (message : Message) : M Local unit :=
  if String.eqb (message_type message) "TRANSPORT_REQUEST" then
    handle_transport_request (content message)
  else if String.eqb (message_type message) "PICKUP_READY" then
    handle_pickup_ready (content message)
  else ret tt.

(** ** CoordinatorAgent *)

(** [CoordinatorAgent(agent_id)] *)
Definition CoordinatorAgent (id : string) : M World ref :=
  print (OInit id "Coordinator" (VTuple 5 5)) >>>
  alloc (mkAgent CoordinatorCls id "Coordinator" (VTuple 5 5) IDLE 100 [] None
           (mkMetrics 0 0 0 0) 0 0 0 [] 3 3 []).

(** [CoordinatorAgent.register_agent]; [c] is the coordinator, [r] the agent. *)
Definition register_agent (c r : ref) : M World unit :=
  let* a := get_agent r in
  modify_agent c (fun me => set_agent_registry (dict_set (agent_id a) r (agent_registry me)) me) >>>
  print (ORegistered (agent_id a)).

(** [CoordinatorAgent.handle_resource_request]; the result is [None] when the
    method falls off its end. *)
Definition handle_resource_request (request : Dict) : M Local (option bool) :=
  let resource_type := dict_get request "resource_type" (VStr "") in
  let requesting_agent := dict_get request "agent_id" (VStr "") in
  if value_eq_str resource_type "charging_station" then
    let* a := get_self in
    if 0 <? available_stations a then
      modify_self (fun a => set_available_stations (available_stations a - 1) a) >>>
      print_l (OStationAllocated requesting_agent) >>>
      ret (Some true)
    else
      print_l (ONoStation requesting_agent) >>>
      ret (Some false)
  else ret None.

(** [CoordinatorAgent.handle_status_update] *)
Definition handle_status_update (status : Dict) : M Local unit :=
  print_l (OStatusUpdate (dict_get status "agent_id" (VStr ""))
             (dict_get status "status" (VStr ""))).

(** The list comprehension [[agent for agent in refs if p(agent)]]. *)
Fixpoint select (p : Agent -> bool) (refs : list ref) : M World (list ref) :=
  match refs with
  | [] => ret []
  | r :: refs' =>
      let* a := get_agent r in
      let* rest := select p refs' in
      ret (if p a then r :: rest else rest)
  end.

Definition is_idle_picker (a : Agent) : bool :=
  AgentClass_eqb (cls a) PickerCls && AgentState_eqb (state a) IDLE.

Definition is_idle_transporter (a : Agent) : bool :=
  AgentClass_eqb (cls a) TransportCls && AgentState_eqb (state a) IDLE.

(** [CoordinatorAgent.allocate_tasks] *)
Definition allocate_tasks (c : ref) (order : Dict) : M World unit :=
  let items_needed := dict_get order "items" (VList []) in
  let* me := get_agent c in
  let* available_pickers := select is_idle_picker (dict_values (agent_registry me)) in
  let* available_transporters :=
    select is_idle_transporter (dict_values (agent_registry me)) in
  match available_pickers, available_transporters with
  | picker :: _, transporter :: _ =>
      let* x := randint 1 10 in
      let* y := randint 1 10 in
      with_self picker
        (handle_pick_request [("items", items_needed); ("location", VTuple x y)]) >>>
      let* p := get_agent picker in
      let* x' := randint 1 10 in
      let* y' := randint 1 10 in
      let* n := py_len items_needed in
      with_self transporter
        (handle_transport_request
           [("pickup_location", position p);
            ("delivery_location", VTuple x' y');
            ("item_count", VInt n)]) >>>
      let* p := get_agent picker in
      let* t := get_agent transporter in
      print (OAssigned (agent_id p) (agent_id t))
  | _, _ => print OQueuing
  end.

(** [CoordinatorAgent.handle_order_request] *)
Definition handle_order_request (c : ref) (order : Dict) : M World unit :=
  print (OProcessingOrder order) >>>
  modify_agent c (fun me => set_pending_orders (pending_orders me ++ [order]) me) >>>
  allocate_tasks c order.

(** [CoordinatorAgent.handle_message] *)
Definition Coordinator_handle_message (c : ref) (message : Message) : M World unit :=
  if String.eqb (message_type message) "ORDER_REQUEST" then
    handle_order_request c (content message)
  else if String.eqb (message_type message) "RESOURCE_REQUEST" then
    with_self c (handle_resource_request (content message)) >>> ret tt
  else if String.eqb (message_type message) "STATUS_UPDATE" then
    with_self c (handle_status_update (content message))
  else ret tt.

(** ** Message handling *)

(** The call [self.handle_message(message)]: the override of the class of
    the object at [r]. *)
Definition handle_message (r : ref) (message : Message) : M World unit :=
  let* a := get_agent r in
  match cls a with
  | BaseCls => with_self r (Base_handle_message message)
  | PickerCls => with_self r (Picker_handle_message message)
  | TransportCls => with_self r (Transport_handle_message message)
  | CoordinatorCls => Coordinator_handle_message r message
  end.

Section Drain.

(** [BaseAgent.process_messages] calls whatever [handle_message] the object
    has; the loop is written over an arbitrary handler so that overrides
    that send messages can be discussed too. *)
Variable handler : ref -> Message -> M World unit.

(** [BaseAgent.process_messages]: one unit of fuel per test of the [while]
    condition. *)
Fixpoint process_messages_with (fuel : nat) (r : ref) : M World unit :=
  match fuel with
  | O => fun w => (NoFuel, w)
  | S fuel' =>
      let* a := get_agent r in
      match message_queue a with
      | [] => ret tt
      | message :: rest =>
          modify_agent r (set_message_queue rest) >>>
          note_dispatch r message >>>
          handler r message >>>
          process_messages_with fuel' r
      end
  end.

End Drain.

Definition process_messages : nat -> ref -> M World unit :=
  process_messages_with handle_message.

(** ** MultiAgentSystem *)

Definition set_agents (d : PyDict ref) (m : MultiAgentSystem) : MultiAgentSystem :=
  mkMAS d (coordinator m) (message_log m) (total_messages m)
    (orders_processed m) (collaboration_instances m).

Definition set_coordinator (c : option ref) (m : MultiAgentSystem) : MultiAgentSystem :=
  mkMAS (agents m) c (message_log m) (total_messages m)
    (orders_processed m) (collaboration_instances m).

Definition set_message_log (l : list Message) (m : MultiAgentSystem) : MultiAgentSystem :=
  mkMAS (agents m) (coordinator m) l (total_messages m)
    (orders_processed m) (collaboration_instances m).

Definition set_total_messages (n : Z) (m : MultiAgentSystem) : MultiAgentSystem :=
  mkMAS (agents m) (coordinator m) (message_log m) n
    (orders_processed m) (collaboration_instances m).

Definition set_orders_processed (n : Z) (m : MultiAgentSystem) : MultiAgentSystem :=
  mkMAS (agents m) (coordinator m) (message_log m) (total_messages m)
    n (collaboration_instances m).

(** [MultiAgentSystem()]: the world right after the system object is built,
    for a given pseudo-random stream. *)
Definition MultiAgentSystem_init (rnd : nat -> Z) : World :=
  mkWorld [] (mkMAS [] None [] 0 0 0) [OSystemInit] rnd 0 [].

(** [MultiAgentSystem.add_agent] *)
Definition add_agent (r : ref) : M World unit :=
  let* a := get_agent r in
  modify_mas (fun m => set_agents (dict_set (agent_id a) r (agents m)) m) >>>
  (if AgentClass_eqb (cls a) CoordinatorCls then
     modify_mas (set_coordinator (Some r))
   else
     let* m := get_mas in
     match coordinator m with
     | Some c => register_agent c r
     | None => ret tt
     end) >>>
  print (OAdded (agent_type a) (agent_id a)).

(** The body of the broadcast loop of [route_message]. *)
Definition deliver_unless_sender (message : Message) (r : ref) : M World unit :=
  let* a := get_agent r in
  if negb (String.eqb (agent_id a) (sender_id message))
  then with_self r (receive_message message)
  else ret tt.

(** [MultiAgentSystem.route_message] *)
Definition route_message (message : Message) : M World unit :=
  modify_mas (fun m => set_message_log (message_log m ++ [message]) m) >>>
  modify_mas (fun m => set_total_messages (total_messages m + 1) m) >>>
  let* m := get_mas in
  if String.eqb (receiver_id message) "ALL" then
    for_each (dict_values (agents m)) (deliver_unless_sender message)
  else
    match dict_lookup (agents m) (receiver_id message) with
    | Some r => with_self r (receive_message message)
    | None => print (ORoutingFailed (receiver_id message))
    end.

(** [BaseAgent.send_message], called on the agent at [r] with this system
    as [mas_coordinator]; [now] is the reading of [time.time()]. *)
Definition send_message (r : ref) (receiver type : string) (payload : Dict) (now : Z)
  : M World unit :=
  let* a := get_agent r in
  route_message (mkMessage (agent_id a) receiver type payload now) >>>
  modify_agent r incr_messages_sent >>>
  let* a := get_agent r in
  print (OSent (agent_id a) type receiver payload).

(** [MultiAgentSystem.process_order] *)
Definition process_order (order : Dict) : M World unit :=
  print (ONewOrder order) >>>
  modify_mas (fun m => set_orders_processed (orders_processed m + 1) m) >>>
  let* m := get_mas in
  match coordinator m with
  | Some c => handle_order_request c order
  | None => print ONoCoordinator
  end.

Definition needs_charging (a : Agent) : bool :=
  (battery_level a <? 30) && negb (AgentClass_eqb (cls a) CoordinatorCls).

(** Truth value of the result of [handle_resource_request]. *)
Definition truthy (success : option bool) : bool :=
  match success with
  | Some b => b
  | None => false
  end.

(** The body of the loop of [simulate_resource_competition] for the
    coordinator at [c]. *)
Definition request_charging (c r : ref) : M World unit :=
  let* a := get_agent r in
  let* success :=
    with_self c
      (handle_resource_request
         [("resource_type", VStr "charging_station");
          ("agent_id", VStr (agent_id a))]) in
  if truthy success then
    modify_agent r (set_state CHARGING) >>>
    modify_agent r (set_battery_level 100) >>>
    let* a := get_agent r in
    print (OCharged (agent_id a))
  else
    let* a := get_agent r in
    print (OWaiting (agent_id a)).

(** [MultiAgentSystem.simulate_resource_competition] *)
Definition simulate_resource_competition : M World unit :=
  let* m := get_mas in
  let* low_battery_agents := select needs_charging (dict_values (agents m)) in
  match low_battery_agents, coordinator m with
  | _ :: _, Some c =>
      print (OCompetition (Z.of_nat (length low_battery_agents))) >>>
      for_each low_battery_agents (request_charging c)
  | _, _ => ret tt
  end.

(** [MultiAgentSystem.simulate_step]; [fuel] bounds each queue drain. *)
Definition simulate_step (fuel : nat) : M World unit :=
  print OStep >>>
  (let* m := get_mas in
   for_each (dict_values (agents m)) (process_messages fuel)) >>>
  simulate_resource_competition.

(** ** The driver's operations and reachable worlds *)

(** The calls a driver such as [run_mas_simulation] makes on the system. *)
Inductive Op : Type :=
| NewBaseAgent (id type : string) (pos : Value)
| NewPickerAgent (id : string) (pos : Value)
| NewTransportAgent (id : string) (pos : Value)
| NewCoordinatorAgent (id : string)
| AddAgent (r : ref)
| RouteMessage (message : Message)
| SendMessage (r : ref) (receiver type : string) (payload : Dict) (now : Z)
| ProcessOrder (order : Dict)
| SimulateStep (fuel : nat)
| UpdateBattery (r : ref) (consumption : Z).

Definition run_op (op : Op) : M World unit :=
  match op with
  | NewBaseAgent id type pos => BaseAgent id type pos >>> ret tt
  | NewPickerAgent id pos => PickerAgent id pos >>> ret tt
  | NewTransportAgent id pos => TransportAgent id pos >>> ret tt
  | NewCoordinatorAgent id => CoordinatorAgent id >>> ret tt
  | AddAgent r => add_agent r
  | RouteMessage message => route_message message
  | SendMessage r receiver type payload now => send_message r receiver type payload now
  | ProcessOrder order => process_order order
  | SimulateStep fuel => simulate_step fuel
  | UpdateBattery r consumption => with_self r (update_battery consumption)
  end.

(** The world after a sequence of calls.  A call that raises leaves the
    changes it had made, as it does in Python, and the sequence goes on (a
    driver that catches the exception). *)
Definition exec (ops : list Op) (w : World) : World :=
  fold_left (fun w op => snd (run_op op w)) ops w.

Definition reachable (w : World) : Prop :=
  exists rnd ops, w = exec ops (MultiAgentSystem_init rnd).


(** ** Vocabulary of the specifications *)

(** [m] relates every world to the world it leaves, whatever the outcome. *)
Definition respects {A} (R : World -> World -> Prop) (m : M World A) : Prop :=
  forall w, R w (snd (m w)).

(** The same for a method on [self]. *)
Definition lrespects {A} (Ra : Agent -> Agent -> Prop) (m : M Local A) : Prop :=
  forall l, Ra (self l) (self (snd (m l))).

(** A relation [R] on worlds that the primitive steps of the model respect:
    it is a preorder, it holds when the object at an address is replaced by
    one related to it by [Ra], when an object satisfying [Rnew] is created,
    and when the console or the position in the random stream change. *)
Class Frame (R : World -> World -> Prop)
  (Ra : Agent -> Agent -> Prop) (Rnew : Agent -> Prop) : Prop := {
  frame_refl : forall w, R w w;
  frame_trans : forall w1 w2 w3, R w1 w2 -> R w2 w3 -> R w1 w3;
  frame_update : forall w r a a',
    heap w !! r = Some a -> Ra a a' -> R w (set_heap (<[r := a']> (heap w)) w);
  frame_alloc : forall w a, Rnew a -> R w (set_heap (heap w ++ [a]) w);
  frame_stdout : forall w o, R w (set_stdout o w);
  frame_rand_ix : forall w n, R w (set_rand_ix n w)
}.

(** A relation on worlds given agent by agent: objects never disappear,
    every object that was there is related to what it has become by [Ra],
    and every new object satisfies [Rnew]. *)
Definition heap_rel (Ra : Agent -> Agent -> Prop) (Rnew : Agent -> Prop)
  (w w' : World) : Prop :=
  (length (heap w) <= length (heap w'))%nat /\
  forall r a', heap w' !! r = Some a' ->
    match heap w !! r with
    | Some a => Ra a a'
    | None => Rnew a'
    end.

(** An attribute (or any function of the object) that a call leaves as it
    was. *)
Definition keeps {X} (f : Agent -> X) (a a' : Agent) : Prop := f a' = f a.

(** A component of the world that a call leaves as it was. *)
Definition wkeeps {X} (g : World -> X) (w w' : World) : Prop := g w' = g w.

Definition anything (a a' : Agent) : Prop := True.
Definition any_agent (a : Agent) : Prop := True.

(** Preorders on agents, and properties of new agents that they keep. *)
Class AgentRel (Ra : Agent -> Agent -> Prop) : Prop := {
  ra_refl : forall a, Ra a a;
  ra_trans : forall a1 a2 a3, Ra a1 a2 -> Ra a2 a3 -> Ra a1 a3
}.

Class Closed (Ra : Agent -> Agent -> Prop) (Rnew : Agent -> Prop) : Prop :=
  closed : forall a a', Rnew a -> Ra a a' -> Rnew a'.

(** Both relations hold. *)
Definition rel_and {T} (R1 R2 : T -> T -> Prop) (x y : T) : Prop :=
  R1 x y /\ R2 x y.

Definition pred_and {T} (P1 P2 : T -> Prop) (x : T) : Prop := P1 x /\ P2 x.

(** *** Invariants *)

(** What holds of every agent object in every reachable world: a picker
    never carries more than its capacity, and the pool of a coordinator
    stays between empty and full. *)
Definition agent_ok (a : Agent) : Prop :=
  (cls a = PickerCls -> current_load a <= carrying_capacity a) /\
  (cls a = CoordinatorCls -> 0 <= available_stations a <= charging_stations a).

Definition ok_step (a a' : Agent) : Prop := agent_ok a -> agent_ok a'.

(** Class and identifier of an object, which nothing assigns. *)
Definition identity (a : Agent) : AgentClass * string := (cls a, agent_id a).

(** The part of the system object that only [add_agent] assigns. *)
Definition roster (w : World) : PyDict ref * option ref :=
  (agents (mas w), coordinator (mas w)).

(** Shape of the system object: every entry of [agents] is a live object
    filed under its own identifier, and [coordinator] is a live
    [CoordinatorAgent]. *)
Definition world_wf (w : World) : Prop :=
  NoDup (dict_keys (agents (mas w))) /\
  (forall k r, In (k, r) (agents (mas w)) ->
     exists a, heap w !! r = Some a /\ agent_id a = k) /\
  (forall c, coordinator (mas w) = Some c ->
     exists a, heap w !! c = Some a /\ cls a = CoordinatorCls).

(** Addresses paired with the objects stored there. *)
Fixpoint with_agents (w : World) (refs : list ref) : list (ref * Agent) :=
  match refs with
  | [] => []
  | r :: refs' =>
      match heap w !! r with
      | Some a => (r, a) :: with_agents w refs'
      | None => with_agents w refs'
      end
  end.

(** The agent objects of the system, in the iteration order of
    [self.agents.values()]. *)
Definition agents_of (w : World) : list Agent :=
  map snd (with_agents w (dict_values (agents (mas w)))).

(** The queue of the agent at [r]. *)
Definition queue_of (r : ref) (w : World) : list Message :=
  match heap w !! r with
  | Some a => message_queue a
  | None => []
  end.

(** A list attribute that a call only extends at its end. *)
Definition grows {X} (f : Agent -> list X) (a a' : Agent) : Prop :=
  f a `prefix_of` f a'.

(** What [route_message] makes of an agent when it broadcasts [message]:
    the sender is skipped, any other agent has the message appended to its
    queue once and its received-counter incremented. *)
Definition delivered (message : Message) (a : Agent) : Agent :=
  if String.eqb (agent_id a) (sender_id message) then a
  else incr_messages_received (set_message_queue (message_queue a ++ [message]) a).

(** [p] holds of the object at [r]. *)
Definition holds (p : Agent -> bool) (w : World) (r : ref) : bool :=
  match heap w !! r with
  | Some a => p a
  | None => false
  end.

(** The addresses [simulate_resource_competition] collects in
    [low_battery_agents], in order. *)
Definition low_battery_refs (w : World) : list ref :=
  List.filter (holds needs_charging w) (dict_values (agents (mas w))).

(** An agent after a granted charging request. *)
Definition charged (a : Agent) : Agent :=
  set_battery_level 100 (set_state CHARGING a).

(** What the contention loop prints for the agents [ids] when [k] stations
    are available at its start. *)
Fixpoint charging_narration (k : Z) (ids : list string) : list Output :=
  match ids with
  | [] => []
  | id :: ids' =>
      if 0 <? k
      then OStationAllocated (VStr id) :: OCharged id :: charging_narration (k - 1) ids'
      else ONoStation (VStr id) :: OWaiting id :: charging_narration k ids'
  end.

(** The requests a contention pass would issue if it asked for a station on
    behalf of every non-coordinator agent whose battery is below
    [threshold], in the order of [agents]. *)
Definition expected_requests (threshold : Z) (w : World) : list Value :=
  map (fun a => VStr (agent_id a))
    (List.filter
       (fun a => (battery_level a <? threshold) &&
                 negb (AgentClass_eqb (cls a) CoordinatorCls))
       (agents_of w)).

(** Once charging, still charging. *)
Definition stays_charging (a a' : Agent) : Prop :=
  state a = CHARGING -> state a' = CHARGING.

(** A call that never stops for lack of fuel. *)
Definition no_fuel {S A} (m : M S A) : Prop := forall s, fst (m s) <> NoFuel.

(** A handler that, seen from the agent at [r], only ever adds messages at
    the end of the queue of [r], and leaves the history alone. *)
Definition appends_only (handler : ref -> Message -> M World unit) (r : ref) : Prop :=
  forall m w a,
    heap w !! r = Some a ->
    exists a',
      heap (snd (handler r m w)) !! r = Some a' /\
      message_queue a `prefix_of` message_queue a' /\
      dispatched (snd (handler r m w)) = dispatched w.

(** Nothing is entered into a registry except, possibly, the address [r]. *)
Definition registers_only (r : ref) (a a' : Agent) : Prop :=
  forall x, In x (dict_values (agent_registry a')) ->
    x = r \/ In x (dict_values (agent_registry a)).

Definition registry_within (r : ref) (a : Agent) : Prop :=
  forall x, In x (dict_values (agent_registry a)) -> x = r.

(** The object at [p] is left as it was. *)
Definition same_at (p : ref) (w w' : World) : Prop := heap w' !! p = heap w !! p.

Definition never (a a' : Agent) : Prop := False.
Definition no_agent (a : Agent) : Prop := False.

(** The agent after a message was put in its queue. *)
Definition enqueued (message : Message) (a : Agent) : Agent :=
  incr_messages_received (set_message_queue (message_queue a ++ [message]) a).

(** Calls other than [add_agent] change neither the identity of an object
    nor the roster. *)
Definition identity_rel : World -> World -> Prop :=
  rel_and (heap_rel (keeps identity) any_agent) (wkeeps roster).

(** Calls other than [add_agent] leave every registry as it was; a new
    object has an empty registry. *)
Definition registry_rel : World -> World -> Prop :=
  heap_rel (keeps agent_registry) (fun a => agent_registry a = []).

(** *** Scenarios and observations *)

(** The first order of [run_mas_simulation]. *)
Definition order_001 : Dict :=
  [("order_id", VStr "ORD_001");
   ("items", VList ["item1"; "item2"; "item3"]);
   ("priority", VStr "high")].

(** An order for more items than any agent can carry. *)
Definition order_bulk : Dict :=
  [("order_id", VStr "ORD_BULK"); ("items", VList (repeat "item" 51))].

(** A coordinator (address 0), a picker at (2,3) (address 1) and a
    transporter at (1,1) (address 2), added in that order. *)
Definition allocation_scenario : list Op :=
  [NewCoordinatorAgent "COORD_01";
   NewPickerAgent "PICKER_01" (VTuple 2 3);
   NewTransportAgent "TRANSPORT_01" (VTuple 1 1);
   AddAgent 0%nat; AddAgent 1%nat; AddAgent 2%nat].

Definition allocation_world (rnd : nat -> Z) : World :=
  exec allocation_scenario (MultiAgentSystem_init rnd).

(** The transporter of the scenario right after construction. *)
Definition transport_01 : Agent :=
  mkAgent TransportCls "TRANSPORT_01" "Transport" (VTuple 1 1) IDLE 100 [] None
    (mkMetrics 0 0 0 0) 50 0 5 [] 0 0 [].

Definition transport_request_3 : Dict :=
  [("pickup_location", VTuple 2 3);
   ("delivery_location", VTuple 5 5);
   ("item_count", VInt 3)].

(** Number of pick requests, and of transport requests, that reached an
    agent according to the narration. *)
Definition pick_requests (o : list Output) : nat :=
  length (List.filter (fun x => match x with OPickRequest _ _ _ => true | _ => false end) o).

Definition transport_requests (o : list Output) : nat :=
  length (List.filter (fun x => match x with OTransportRequest _ _ => true | _ => false end) o).

(** The charging requests the coordinator answered, in order. *)
Fixpoint requests_of (o : list Output) : list Value :=
  match o with
  | [] => []
  | OStationAllocated v :: o' => v :: requests_of o'
  | ONoStation v :: o' => v :: requests_of o'
  | _ :: o' => requests_of o'
  end.

(** What the narration printed since the console was [before]. *)
Definition new_output (before : list Output) (w' : World) : list Output :=
  drop (length before) (stdout w').

(** A coordinator alone, and a picker alone. *)
Definition coordinator_world : World :=
  exec [NewCoordinatorAgent "COORD_01"] (MultiAgentSystem_init (fun _ => 0)).

Definition coord_01 : Agent :=
  mkAgent CoordinatorCls "COORD_01" "Coordinator" (VTuple 5 5) IDLE 100 [] None
    (mkMetrics 0 0 0 0) 0 0 0 [] 3 3 [].

Definition charging_request (id : string) : Dict :=
  [("resource_type", VStr "charging_station"); ("agent_id", VStr id)].

Definition picker_world : World :=
  exec [NewPickerAgent "PICKER_01" (VTuple 2 3)] (MultiAgentSystem_init (fun _ => 0)).

Definition picker_01 : Agent :=
  mkAgent PickerCls "PICKER_01" "Picker" (VTuple 2 3) IDLE 100 [] None
    (mkMetrics 0 0 0 0) 10 0 2 [] 0 0 [].

(** A pick request for eleven items. *)
Definition pick_request_11 : Dict :=
  [("items", VList (repeat "item" 11)); ("location", VTuple 4 4)].

(** A broadcast from the picker of the scenario. *)
Definition broadcast_01 : Message :=
  mkMessage "PICKER_01" "ALL" "STATUS_UPDATE" [("status", VStr "ready")] 0.

(** The scenario after the picker's battery was drained to 15, and to 25. *)
Definition drained_world (consumption : Z) : World :=
  exec (allocation_scenario ++ [UpdateBattery 1%nat consumption])
    (MultiAgentSystem_init (fun _ => 0)).

(** Three messages for the picker of the scenario, and a fourth one. *)
Definition note (n : Z) : Message :=
  mkMessage "COORD_01" "PICKER_01" "NOTE" [("seq", VInt n)] n.

(** A handler override that answers the first note by sending a fourth
    one to the agent itself. *)
Definition echoing_handler (r : ref) (m : Message) : M World unit :=
  if timestamp m =? 1
  then with_self r (receive_message (note 4))
  else ret tt.

(** The scenario after the three notes were routed to the picker. *)
Definition noted_world : World :=
  exec [RouteMessage (note 1); RouteMessage (note 2); RouteMessage (note 3)]
    (allocation_world (fun _ => 0)).

(** A picker is added first, the coordinator and a transporter afterwards. *)
Definition early_picker : list Op :=
  [NewPickerAgent "PICKER_01" (VTuple 2 3); AddAgent 0%nat].

Definition late_coordinator : list Op :=
  [NewCoordinatorAgent "COORD_01"; AddAgent 1%nat;
   NewTransportAgent "TRANSPORT_01" (VTuple 1 1); AddAgent 2%nat].

Definition late_world : World :=
  exec late_coordinator (exec early_picker (MultiAgentSystem_init (fun _ => 0))).

Definition broadcast_02 : Message :=
  mkMessage "COORD_01" "ALL" "STATUS_UPDATE" [("status", VStr "ready")] 0.

(** *** Further vocabulary *)

(** The battery gauge is within its range. *)
Definition battery_ok (a : Agent) : Prop := 0 <= battery_level a <= 100.

Definition battery_step (a a' : Agent) : Prop := battery_ok a -> battery_ok a'.

Definition battery_floor_step (a a' : Agent) : Prop :=
  0 <= battery_level a -> 0 <= battery_level a'.

(** The pool of a coordinator does not grow. *)
Definition pool_shrinks (a a' : Agent) : Prop :=
  available_stations a' <= available_stations a.

(** The class is kept, and the load of a picker does not go down. *)
Definition load_grows (a a' : Agent) : Prop :=
  cls a' = cls a /\ (cls a = PickerCls -> current_load a <= current_load a').

(** An agent that is not idle does not become idle. *)
Definition stays_busy (a a' : Agent) : Prop :=
  state a <> IDLE -> state a' <> IDLE.

(** A run in which the driver drains 150 from a battery and then gives 200
    back through a negative consumption. *)
Definition overcharge_ops : list Op :=
  [NewPickerAgent "PICKER_01" (VTuple 2 3);
   UpdateBattery 0%nat 150; UpdateBattery 0%nat (-200)].

(** The system object after a message was logged and counted. *)
Definition logged (message : Message) (m : MultiAgentSystem) : MultiAgentSystem :=
  set_total_messages (total_messages m + 1)
    (set_message_log (message_log m ++ [message]) m).

(** By how much the message counter is ahead of the log. *)
Definition log_excess (w : World) : Z :=
  total_messages (mas w) - Z.of_nat (length (message_log (mas w))).

(** A message to an agent that does not exist, and one from the picker of
    the scenario to itself. *)
Definition lost_message : Message :=
  mkMessage "PICKER_01" "PICKER_99" "NOTE" [] 0.

Definition self_message : Message :=
  mkMessage "PICKER_01" "PICKER_01" "NOTE" [] 0.

(** Every address in a registry is that of a live object. *)
Definition registry_live (w : World) : Prop :=
  forall c a r, heap w !! c = Some a ->
    In r (dict_values (agent_registry a)) -> is_Some (heap w !! r).

(** Number of orders the driver submitted. *)
Definition orders_submitted (ops : list Op) : nat :=
  length (List.filter (fun op => match op with ProcessOrder _ => true | _ => false end) ops).

(** A request for a station that arrives as a message. *)
Definition station_message : Message :=
  mkMessage "PICKER_01" "COORD_01" "RESOURCE_REQUEST" (charging_request "PICKER_01") 0.

(** A pick request for three items at (4,4). *)
Definition pick_request_3 : Dict :=
  [("items", VList ["item1"; "item2"; "item3"]); ("location", VTuple 4 4)].

(** The message types that the [handle_message] of each class tests for;
    [BaseAgent.handle_message] tests for none and narrates every message. *)
Definition understood (c : AgentClass) : list string :=
  match c with
  | BaseCls => []
  | PickerCls => ["PICK_REQUEST"; "COLLABORATION_REQUEST"]
  | TransportCls => ["TRANSPORT_REQUEST"; "PICKUP_READY"]
  | CoordinatorCls => ["ORDER_REQUEST"; "RESOURCE_REQUEST"; "STATUS_UPDATE"]
  end.

(** An order request that reaches a picker. *)
Definition stray_order : Message :=
  mkMessage "COORD_01" "PICKER_01" "ORDER_REQUEST" order_001 0.

(** A transporter has the record of one that never carried anything. *)
Definition transporter_fresh (a : Agent) : Prop :=
  cls a = TransportCls ->
  tasks_completed (performance_metrics a) = 0 /\ current_load a = 0.

(** The class is kept, and a transporter keeps its record, its load and its
    position. *)
Definition transporter_stuck (a a' : Agent) : Prop :=
  cls a' = cls a /\
  (cls a = TransportCls ->
   tasks_completed (performance_metrics a') = tasks_completed (performance_metrics a) /\
   current_load a' = current_load a /\
   position a' = position a).

(** No queue gets longer. *)
Definition queue_shrinks (a a' : Agent) : Prop :=
  (length (message_queue a') <= length (message_queue a))%nat.

(** Every queue of the system is shorter than [fuel]; every queue of the
    system is empty. *)
Definition queues_below (fuel : nat) (w : World) : Prop :=
  forall r a, In r (dict_values (agents (mas w))) -> heap w !! r = Some a ->
    (length (message_queue a) < fuel)%nat.

Definition queues_empty (w : World) : Prop :=
  forall r a, In r (dict_values (agents (mas w))) -> heap w !! r = Some a ->
    message_queue a = [].

(** The scenario of the allocation after a broadcast reached the picker
    and the transporter. *)
Definition noisy_world : World :=
  exec [RouteMessage broadcast_01] (allocation_world (fun _ => 0)).

(** The collaboration counter of the system. *)
Definition collaborations (w : World) : Z := collaboration_instances (mas w).

(** A collaboration request to the picker of the scenario. *)
Definition collaboration_01 : Message :=
  mkMessage "TRANSPORT_01" "PICKER_01" "COLLABORATION_REQUEST" [] 0.

(** *** The drain, as the specification words it *)

(** The message at the front leaves the queue of [r]. *)
Definition take_front (r : ref) : M World unit :=
  modify_agent r (fun a => set_message_queue (tl (message_queue a)) a).

(** The messages [q] are dispatched in the order of the list: each in turn
    leaves the queue and is handed to the handler; a call that does not
    return normally ends the pass with its outcome, and the messages behind
    it are not dispatched. *)
Fixpoint dispatch_in_order (handler : ref -> Message -> M World unit)
    (r : ref) (q : list Message) : M World unit :=
  match q with
  | [] => ret tt
  | m :: rest =>
      take_front r >>>
      note_dispatch r m >>>
      handler r m >>>
      dispatch_in_order handler r rest
  end.

(** The bound on the loop: it cuts the pass when [cut] holds. *)
Definition fuel_check (cut : bool) : M World unit :=
  fun w => (if cut then NoFuel else Ret tt, w).

(** *** The requests [allocate_tasks] issues *)

(** The number that the call [random.randint(1, 10)] returns when [k]
    numbers have been drawn since the world [w]. *)
Definition drawn (k : nat) (w : World) : Z :=
  1 + rand w (k + rand_ix w)%nat mod (10 - 1 + 1).

(** The pick request made up for [order] in the world [w], and what the
    picker [ap] and the console are once it has handled that request. *)
Definition pick_request_issued (order : Dict) (w : World) : Dict :=
  [("items", dict_get order "items" (VList []));
   ("location", VTuple (drawn 0 w) (drawn 1 w))].

Definition pick_issued (order : Dict) (w : World) (ap : Agent) : Local :=
  snd (handle_pick_request (pick_request_issued order w) (mkLocal ap (stdout w))).

(** The transport request that follows: it is to start from where the
    picker is after the pick. *)
Definition transport_request_issued (order : Dict) (n : Z) (w : World) (ap : Agent) : Dict :=
  [("pickup_location", position (self (pick_issued order w ap)));
   ("delivery_location", VTuple (drawn 2 w) (drawn 3 w));
   ("item_count", VInt n)].

(** *** What does not depend on the pending orders *)

(** An object, and a world, with the pending lists emptied: what is left is
    everything else the program holds, the console and the history
    included. *)
Definition without_pending (a : Agent) : Agent := set_pending_orders [] a.

Definition forget_pending (w : World) : World :=
  set_heap (map without_pending (heap w)) w.

(** Objects, local states and worlds that differ at most in what is
    pending. *)
Definition same_agent (a a' : Agent) : Prop := without_pending a = without_pending a'.

Definition same_local (l l' : Local) : Prop :=
  same_agent (self l) (self l') /\ out l = out l'.

Definition same_world (w w' : World) : Prop := forget_pending w = forget_pending w'.

(** Outcomes of the same kind, with related values. *)
Definition same_result {A} (RA : A -> A -> Prop) (x y : Result A) : Prop :=
  match x, y with
  | Ret a, Ret b => RA a b
  | Raise e, Raise e' => e = e'
  | NoFuel, NoFuel => True
  | BadRef, BadRef => True
  | _, _ => False
  end.

(** Run from related states, [m] and [m'] end with related outcomes in
    related states. *)
Definition blind {S A} (RS : S -> S -> Prop) (RA : A -> A -> Prop) (m m' : M S A) : Prop :=
  forall s s', RS s s' ->
    same_result RA (fst (m s)) (fst (m' s')) /\ RS (snd (m s)) (snd (m' s')).

(** The world after the order request of the scenario, and the same world
    with nothing pending. *)
Definition ordered_world : World :=
  snd (handle_order_request 0%nat order_001 (allocation_world (fun _ => 0))).

(** ** Reasoning principles *)

Section Respects.

Context {R : World -> World -> Prop} {Ra : Agent -> Agent -> Prop}
  {Rnew : Agent -> Prop} `{!Frame R Ra Rnew}.

Lemma respects_ret {A} (a : A) : respects R (ret a).
Proof. intros w. apply frame_refl. Qed.

Lemma respects_raise {A} (e : Exn) : respects R (@raise World A e).
Proof. intros w. apply frame_refl. Qed.

Lemma respects_bind {A B} (m : M World A) (k : A -> M World B) :
  respects R m -> (forall a, respects R (k a)) -> respects R (bind m k).
Proof.
  intros Hm Hk w. unfold bind. specialize (Hm w).
  destruct (m w) as [[a | e | | ] w1]; simpl in *; try exact Hm.
  eapply frame_trans; [exact Hm | apply Hk].
Qed.

Lemma respects_for_each {X} (l : list X) (body : X -> M World unit) :
  (forall x, respects R (body x)) -> respects R (for_each l body).
Proof.
  intros Hb. induction l as [| x l IH]; simpl.
  - apply respects_ret.
  - apply respects_bind; [apply Hb | intros _; exact IH].
Qed.

Lemma respects_py_len v : respects R (py_len v).
Proof. intros w. apply frame_refl. Qed.

Lemma respects_py_int v : respects R (py_int v).
Proof. intros w. apply frame_refl. Qed.

Lemma respects_get_agent r : respects R (get_agent r).
Proof.
  intros w. unfold get_agent. destruct (heap w !! r); apply frame_refl.
Qed.

Lemma respects_get_mas : respects R get_mas.
Proof. intros w. apply frame_refl. Qed.

Lemma respects_print o : respects R (print o).
Proof. intros w. apply frame_stdout. Qed.

Lemma respects_randint lo hi : respects R (randint lo hi).
Proof. intros w. apply frame_rand_ix. Qed.

Lemma respects_modify_mas f :
  (forall w, R w (set_mas (f (mas w)) w)) -> respects R (modify_mas f).
Proof. intros Hf w. apply Hf. Qed.

Lemma respects_note_dispatch r m :
  (forall w d, R w (set_dispatched d w)) -> respects R (note_dispatch r m).
Proof. intros Hd w. apply Hd. Qed.

Lemma respects_modify_agent r f :
  (forall a, Ra a (f a)) -> respects R (modify_agent r f).
Proof.
  intros Hf w. unfold modify_agent.
  destruct (heap w !! r) as [a |] eqn:E; simpl; [| apply frame_refl].
  eapply frame_update; [exact E | apply Hf].
Qed.

Lemma respects_with_self {A} r (m : M Local A) :
  lrespects Ra m -> respects R (with_self r m).
Proof.
  intros Hm w. unfold with_self.
  destruct (heap w !! r) as [a |] eqn:E; simpl; [| apply frame_refl].
  specialize (Hm (mkLocal a (stdout w))).
  destruct (m (mkLocal a (stdout w))) as [res l]; simpl in *.
  eapply frame_trans; [eapply frame_update; [exact E | exact Hm] |].
  apply frame_stdout.
Qed.

Lemma respects_alloc a : Rnew a -> respects R (alloc a).
Proof. intros Ha w. apply frame_alloc, Ha. Qed.

Lemma respects_select p refs : respects R (select p refs).
Proof.
  induction refs as [| r refs IH]; simpl.
  - apply respects_ret.
  - apply respects_bind; [apply respects_get_agent |].
    intros a. apply respects_bind; [exact IH |].
    intros rest. apply respects_ret.
Qed.

Lemma respects_exec (ops : list Op) :
  (forall op, In op ops -> respects R (run_op op)) -> forall w, R w (exec ops w).
Proof.
  unfold exec. induction ops as [| op ops IH]; intros Hop w; simpl.
  - apply frame_refl.
  - eapply frame_trans; [apply (Hop op); now left | apply IH].
    intros op' Hin. apply Hop. now right.
Qed.

End Respects.

Section LocalRespects.

Context {Ra : Agent -> Agent -> Prop} `{!AgentRel Ra}.

Lemma lrespects_ret {A} (a : A) : lrespects Ra (ret a).
Proof. intros l. apply ra_refl. Qed.

Lemma lrespects_raise {A} (e : Exn) : lrespects Ra (@raise Local A e).
Proof. intros l. apply ra_refl. Qed.

Lemma lrespects_get_self : lrespects Ra get_self.
Proof. intros l. apply ra_refl. Qed.

Lemma lrespects_print_l o : lrespects Ra (print_l o).
Proof. intros l. apply ra_refl. Qed.

Lemma lrespects_modify_self f :
  (forall a, Ra a (f a)) -> lrespects Ra (modify_self f).
Proof. intros Hf l. apply Hf. Qed.

Lemma lrespects_bind {A B} (m : M Local A) (k : A -> M Local B) :
  lrespects Ra m -> (forall a, lrespects Ra (k a)) -> lrespects Ra (bind m k).
Proof.
  intros Hm Hk l. unfold bind. specialize (Hm l).
  destruct (m l) as [[a | e | | ] l1]; simpl in *; try exact Hm.
  eapply ra_trans; [exact Hm | apply Hk].
Qed.

Lemma lrespects_py_len v : lrespects Ra (py_len v).
Proof. intros l. apply ra_refl. Qed.

Lemma lrespects_py_int v : lrespects Ra (py_int v).
Proof. intros l. apply ra_refl. Qed.

End LocalRespects.

(** *** Instances *)

#[global] Instance keeps_agent_rel {X} (f : Agent -> X) : AgentRel (keeps f).
Proof. split; unfold keeps; congruence. Qed.

#[global] Instance anything_agent_rel : AgentRel anything.
Proof. split; unfold anything; auto. Qed.

#[global] Instance keeps_closed {X} (f : Agent -> X) (x : X) :
  Closed (keeps f) (fun a => f a = x).
Proof. unfold Closed, keeps. congruence. Qed.

#[global] Instance any_agent_closed Ra : Closed Ra any_agent.
Proof. unfold Closed, any_agent. auto. Qed.

Section HeapRel.

Context {Ra : Agent -> Agent -> Prop} {Rnew : Agent -> Prop}
  `{!AgentRel Ra} `{!Closed Ra Rnew}.

Lemma heap_rel_refl w : heap_rel Ra Rnew w w.
Proof.
  split; [lia |]. intros r a' H. rewrite H. apply ra_refl.
Qed.

Lemma heap_rel_trans w1 w2 w3 :
  heap_rel Ra Rnew w1 w2 -> heap_rel Ra Rnew w2 w3 -> heap_rel Ra Rnew w1 w3.
Proof.
  intros [Hl12 H12] [Hl23 H23]. split; [lia |].
  intros r a3 H3. specialize (H23 r a3 H3).
  destruct (heap w2 !! r) as [a2 |] eqn:E2.
  - specialize (H12 r a2 E2).
    destruct (heap w1 !! r) as [a1 |]; [eapply ra_trans | eapply closed]; eauto.
  - destruct (heap w1 !! r) as [a1 |] eqn:E1; [| exact H23].
    apply lookup_lt_Some in E1. apply lookup_ge_None in E2. lia.
Qed.

Lemma heap_rel_same_heap w w' : heap w' = heap w -> heap_rel Ra Rnew w w'.
Proof.
  intros E. split; [rewrite E; lia |]. intros r a' H. rewrite E in H.
  rewrite H. apply ra_refl.
Qed.

Lemma heap_rel_insert w r a a' :
  heap w !! r = Some a -> Ra a a' ->
  heap_rel Ra Rnew w (set_heap (<[r := a']> (heap w)) w).
Proof.
  intros Hr Ha. split; simpl.
  - rewrite length_insert. lia.
  - intros r' b Hb.
    destruct (decide (r = r')) as [<- | Hne].
    + rewrite list_lookup_insert_eq in Hb by (eapply lookup_lt_Some; eauto).
      inversion Hb; subst. rewrite Hr. exact Ha.
    + rewrite list_lookup_insert_ne in Hb by done. rewrite Hb. apply ra_refl.
Qed.

Lemma heap_rel_alloc w a :
  Rnew a -> heap_rel Ra Rnew w (set_heap (heap w ++ [a]) w).
Proof.
  intros Ha. split; simpl.
  - rewrite length_app. lia.
  - intros r b Hb. destruct (heap w !! r) as [a0 |] eqn:E.
    + rewrite lookup_app_l in Hb by (eapply lookup_lt_Some; eauto).
      rewrite E in Hb. inversion Hb; subst. apply ra_refl.
    + apply lookup_ge_None in E.
      rewrite lookup_app_r in Hb by done.
      destruct (r - length (heap w))%nat; simpl in Hb; [| done].
      inversion Hb; subst. exact Ha.
Qed.

#[global] Instance heap_rel_frame : Frame (heap_rel Ra Rnew) Ra Rnew.
Proof.
  split.
  - exact heap_rel_refl.
  - exact heap_rel_trans.
  - exact heap_rel_insert.
  - exact heap_rel_alloc.
  - intros w o. apply heap_rel_same_heap. reflexivity.
  - intros w n. apply heap_rel_same_heap. reflexivity.
Qed.

End HeapRel.

(** Components of the world other than the store. *)
#[global] Instance wkeeps_dispatched_frame : Frame (wkeeps dispatched) anything any_agent.
Proof. split; unfold wkeeps; intros; simpl; congruence. Qed.

#[global] Instance wkeeps_mas_frame : Frame (wkeeps mas) anything any_agent.
Proof. split; unfold wkeeps; intros; simpl; congruence. Qed.

#[global] Instance rel_and_agent_rel Ra1 Ra2 `{!AgentRel Ra1} `{!AgentRel Ra2} :
  AgentRel (rel_and Ra1 Ra2).
Proof.
  split.
  - intros a. split; apply ra_refl.
  - intros a1 a2 a3 [H1 H2] [H3 H4]. split; eapply ra_trans; eauto.
Qed.

#[global] Instance rel_and_frame R1 R2 Ra1 Ra2 Rn1 Rn2
  `{!Frame R1 Ra1 Rn1} `{!Frame R2 Ra2 Rn2} :
  Frame (rel_and R1 R2) (rel_and Ra1 Ra2) (pred_and Rn1 Rn2).
Proof.
  split.
  - intros w. split; apply frame_refl.
  - intros w1 w2 w3 [H1 H2] [H3 H4]. split; eapply frame_trans; eauto.
  - intros w r a a' E [H1 H2]. split; eapply frame_update; eauto.
  - intros w a [H1 H2]. split; apply frame_alloc; auto.
  - intros w o. split; apply frame_stdout.
  - intros w n. split; apply frame_rand_ix.
Qed.

Section DrainRespects.

Context {R : World -> World -> Prop} {Ra : Agent -> Agent -> Prop}
  {Rnew : Agent -> Prop} `{!Frame R Ra Rnew}.
Variable handler : ref -> Message -> M World unit.
Hypothesis handler_respects : forall r m, respects R (handler r m).
Hypothesis pop_respects : forall q a, Ra a (set_message_queue q a).
Hypothesis note_respects : forall w d, R w (set_dispatched d w).

Lemma respects_process_messages_with fuel r :
  respects R (process_messages_with handler fuel r).
Proof.
  induction fuel as [| fuel IH]; simpl.
  - intros w. apply frame_refl.
  - apply respects_bind; [apply respects_get_agent |].
    intros a. destruct (message_queue a) as [| m rest]; [apply respects_ret |].
    apply respects_bind; [apply respects_modify_agent, pop_respects |].
    intros _. apply respects_bind; [apply respects_note_dispatch, note_respects |].
    intros _. apply respects_bind; [apply handler_respects |].
    intros _. exact IH.
Qed.

End DrainRespects.

Create HintDb model discriminated.

#[global] Hint Unfold receive_message Base_handle_message update_battery
  Picker_move_to_location move_to_location pick_items handle_pick_request
  handle_collaboration_request Picker_handle_message execute_transport
  handle_transport_request handle_pickup_ready Transport_handle_message
  handle_resource_request handle_status_update : model.

#[global] Hint Unfold BaseAgent PickerAgent TransportAgent CoordinatorAgent
  register_agent allocate_tasks handle_order_request Coordinator_handle_message
  handle_message add_agent deliver_unless_sender route_message send_message
  process_order request_charging simulate_resource_competition
  simulate_step run_op process_messages : model.

(** Decompose a goal [lrespects Ra m] along the structure of [m]; [leaf]
    proves what is left about the assignments. *)
Ltac lrespects_tac leaf :=
  repeat first
    [ solve [leaf]
    | apply lrespects_ret
    | apply lrespects_raise
    | apply lrespects_get_self
    | apply lrespects_print_l
    | apply lrespects_py_len
    | apply lrespects_py_int
    | apply lrespects_modify_self; solve [leaf]
    | apply lrespects_bind; [| intro]
    | match goal with
      | |- lrespects _ (if ?b then _ else _) => destruct b
      | |- lrespects _ (match ?x with _ => _ end) => destruct x
      end
    | progress (autounfold with model; cbv zeta) ].

(** The same for a goal [respects R m]. *)
Ltac respects_tac leaf :=
  repeat first
    [ solve [leaf]
    | apply respects_ret
    | apply respects_raise
    | apply respects_get_agent
    | apply respects_get_mas
    | apply respects_print
    | apply respects_randint
    | apply respects_select
    | apply respects_py_len
    | apply respects_py_int
    | apply respects_modify_mas; solve [leaf]
    | apply respects_note_dispatch; solve [leaf]
    | apply respects_modify_agent; solve [leaf]
    | apply respects_alloc; solve [leaf]
    | apply respects_with_self; lrespects_tac leaf
    | apply respects_for_each; intro
    | apply respects_process_messages_with;
        [intros; respects_tac leaf | solve [leaf] | solve [leaf]]
    | apply respects_bind; [| intro]
    | match goal with
      | |- respects _ (if ?b then _ else _) => destruct b
      | |- respects _ (match ?x with _ => _ end) => destruct x
      end
    | progress (autounfold with model; cbv zeta) ].

Ltac keeps_leaf :=
  first
    [ intros; reflexivity
    | intros; unfold keeps, wkeeps, anything, any_agent in *; simpl in *; congruence
    | intros; apply heap_rel_same_heap; reflexivity ].


(** *** Dictionaries *)

Lemma dict_set_In {V} (k : string) (v : V) d k' v' :
  In (k', v') (dict_set k v d) -> (k' = k /\ v' = v) \/ In (k', v') d.
Proof.
  induction d as [| [k0 v0] d IH]; simpl.
  - intros [E | []]. inversion E; auto.
  - destruct (String.eqb k0 k) eqn:Ek; simpl.
    + apply String.eqb_eq in Ek. subst k0.
      intros [E | H]; [inversion E; auto | auto].
    + intros [E | H]; [auto |]. destruct (IH H); auto.
Qed.

Lemma dict_set_keys {V} (k : string) (v : V) d k' :
  In k' (dict_keys (dict_set k v d)) -> k' = k \/ In k' (dict_keys d).
Proof.
  unfold dict_keys. intros H. apply in_map_iff in H as [[k0 v0] [E H]].
  simpl in E. subst k0. apply dict_set_In in H as [[-> _] | H]; [auto |].
  right. apply in_map_iff. exists (k', v0). auto.
Qed.

Lemma dict_set_NoDup {V} (k : string) (v : V) d :
  NoDup (dict_keys d) -> NoDup (dict_keys (dict_set k v d)).
Proof.
  induction d as [| [k0 v0] d IH]; simpl; intros Hd.
  - apply NoDup_singleton.
  - apply NoDup_cons in Hd as [Hk0 Hd].
    destruct (String.eqb k0 k) eqn:Ek; simpl; apply NoDup_cons.
    + split; assumption.
    + split; [| auto]. intros Hin. apply list_elem_of_In in Hin.
      apply dict_set_keys in Hin as [-> | Hin].
      * rewrite String.eqb_refl in Ek. discriminate.
      * apply Hk0, list_elem_of_In, Hin.
Qed.

Lemma dict_set_values {V} (k : string) (v v' : V) d :
  In v' (dict_values (dict_set k v d)) -> v' = v \/ In v' (dict_values d).
Proof.
  unfold dict_values. intros H. apply in_map_iff in H as [[k0 v0] [E H]].
  simpl in E. subst v0. apply dict_set_In in H as [[_ ->] | H]; [auto |].
  right. apply in_map_iff. exists (k0, v'). auto.
Qed.

Lemma dict_lookup_In {V} (d : PyDict V) k v :
  dict_lookup d k = Some v -> In (k, v) d.
Proof.
  induction d as [| [k0 v0] d IH]; simpl; [discriminate |].
  destruct (String.eqb k0 k) eqn:Ek.
  - apply String.eqb_eq in Ek. intros E. inversion E; subst. auto.
  - auto.
Qed.

(** *** Capacity and pool invariant *)

#[global] Instance ok_step_agent_rel : AgentRel ok_step.
Proof. split; unfold ok_step; auto. Qed.

#[global] Instance ok_step_closed : Closed ok_step agent_ok.
Proof. unfold Closed, ok_step. auto. Qed.

(** Case analysis on the tests a method makes. *)
Ltac case_scrutinee :=
  match goal with
  | |- context [AgentState_eqb ?x ?y] => destruct (AgentState_eqb x y) eqn:?
  | |- context [cls ?a] => destruct (cls a) eqn:?
  | |- context [Z.leb ?x ?y] => destruct (Z.leb x y) eqn:?
  | |- context [Z.ltb ?x ?y] => destruct (Z.ltb x y) eqn:?
  | |- context [String.eqb ?x ?y] => destruct (String.eqb x y) eqn:?
  | |- context [value_eq_str ?x ?y] => destruct (value_eq_str x y) eqn:?
  end.

(** Run a method on [self] symbolically. *)
Ltac run_local :=
  autounfold with model;
  unfold bind, get_self, modify_self, print_l, ret, raise, py_len, py_int;
  repeat (simpl; try case_scrutinee).

Lemma ok_handle_pick_request request : lrespects ok_step (handle_pick_request request).
Proof.
  intros [a o] Hok. unfold handle_pick_request.
  generalize (dict_get request "location" (VTuple 0 0)). intros location.
  destruct (dict_get request "items" (VList [])) eqn:Hitems.
  all: run_local.
  all: try exact Hok.
  all: destruct Hok as [Hp Hc]; simpl in *; split; simpl; intros Hcls;
    try congruence; try specialize (Hp Hcls); try specialize (Hc Hcls); lia.
Qed.

Lemma ok_handle_transport_request request :
  lrespects ok_step (handle_transport_request request).
Proof.
  intros [a o] Hok. unfold handle_transport_request.
  generalize (dict_get request "pickup_location" (VTuple 0 0)).
  generalize (dict_get request "delivery_location" (VTuple 10 10)).
  intros delivery pickup.
  destruct (dict_get request "item_count" (VInt 0)) eqn:Hcount.
  all: run_local.
  all: try exact Hok.
  all: destruct Hok as [Hp Hc]; simpl in *; split; simpl; intros Hcls;
    try congruence; try specialize (Hp Hcls); try specialize (Hc Hcls); lia.
Qed.

Lemma ok_handle_resource_request request :
  lrespects ok_step (handle_resource_request request).
Proof.
  intros [a o] Hok. run_local.
  all: try exact Hok.
  all: destruct Hok as [Hp Hc]; simpl in *; split; simpl; intros Hcls;
    try congruence; try specialize (Hp Hcls); try specialize (Hc Hcls); lia.
Qed.

Ltac ok_leaf :=
  first
    [ apply ok_handle_pick_request
    | apply ok_handle_transport_request
    | apply ok_handle_resource_request
    | unfold ok_step; intros; match goal with H : agent_ok _ |- _ => exact H end
    | intros; split; simpl; intros; (discriminate || lia)
    | intros; apply heap_rel_same_heap; reflexivity ].

Lemma ok_handle_message r m :
  respects (heap_rel ok_step agent_ok) (handle_message r m).
Proof. respects_tac ok_leaf. Qed.

Lemma ok_run_op op : respects (heap_rel ok_step agent_ok) (run_op op).
Proof. destruct op; respects_tac ok_leaf. Qed.

Lemma reachable_agent_ok w r a :
  reachable w -> heap w !! r = Some a -> agent_ok a.
Proof.
  intros (rnd & ops & ->) Hr.
  pose proof (respects_exec (R := heap_rel ok_step agent_ok) ops
                (fun op _ => ok_run_op op) (MultiAgentSystem_init rnd)) as [_ H].
  specialize (H r a Hr). simpl in H. exact H.
Qed.

(** *** Shape of the system object *)

Ltac frame_leaf :=
  intros;
  first
    [ reflexivity
    | exact I
    | apply heap_rel_same_heap; reflexivity
    | unfold keeps, wkeeps, roster, anything, any_agent in *; simpl in *; congruence
    | split; frame_leaf ].

#[global] Instance wkeeps_roster_frame : Frame (wkeeps roster) anything any_agent.
Proof. split; unfold wkeeps, roster; intros; simpl; congruence. Qed.

Lemma heap_rel_lookup Ra Rnew w w' r a :
  heap_rel Ra Rnew w w' -> heap w !! r = Some a ->
  exists a', heap w' !! r = Some a' /\ Ra a a'.
Proof.
  intros [Hlen H] Hr.
  destruct (heap w' !! r) as [a' |] eqn:E.
  - exists a'. split; [reflexivity |]. specialize (H r a' E). rewrite Hr in H. exact H.
  - apply lookup_lt_Some in Hr. apply lookup_ge_None in E. lia.
Qed.

Lemma identity_handle_message r m : respects identity_rel (handle_message r m).
Proof. unfold identity_rel. respects_tac frame_leaf. Qed.

Lemma identity_run_op op :
  (forall r, op <> AddAgent r) -> respects identity_rel (run_op op).
Proof.
  unfold identity_rel. intros Hop.
  destruct op; try solve [respects_tac frame_leaf].
  exfalso. eapply Hop. reflexivity.
Qed.

Lemma identity_add_agent r :
  respects (heap_rel (keeps identity) any_agent) (add_agent r).
Proof. respects_tac frame_leaf. Qed.

(** What [add_agent] does to the roster. *)
Lemma add_agent_roster r w a :
  heap w !! r = Some a ->
  roster (snd (add_agent r w)) =
    (dict_set (agent_id a) r (agents (mas w)),
     if AgentClass_eqb (cls a) CoordinatorCls then Some r else coordinator (mas w)).
Proof.
  intros Hr. unfold add_agent, bind, get_agent. rewrite Hr. simpl.
  destruct (AgentClass_eqb (cls a) CoordinatorCls); simpl; [reflexivity |].
  destruct (coordinator (mas w)) as [c |] eqn:Ec; simpl;
    [| unfold roster; simpl; rewrite ?Ec; reflexivity].
  unfold register_agent, bind, get_agent, modify_agent. simpl. rewrite Hr. simpl.
  destruct (heap w !! c); simpl; unfold roster; simpl; rewrite ?Ec; reflexivity.
Qed.

Lemma add_agent_missing r w : heap w !! r = None -> snd (add_agent r w) = w.
Proof.
  intros Hr. unfold add_agent, bind, get_agent. rewrite Hr. reflexivity.
Qed.

Lemma AgentClass_eqb_eq c1 c2 : AgentClass_eqb c1 c2 = true <-> c1 = c2.
Proof. destruct c1, c2; simpl; split; congruence. Qed.

Lemma AgentState_eqb_eq s1 s2 : AgentState_eqb s1 s2 = true <-> s1 = s2.
Proof. destruct s1, s2; simpl; split; congruence. Qed.

Lemma wf_step w w' :
  world_wf w -> heap_rel (keeps identity) any_agent w w' ->
  roster w' = roster w -> world_wf w'.
Proof.
  intros (Hnd & Hag & Hco) Hrel Hro. unfold roster in Hro.
  inversion Hro as [[Ha Hc]]. unfold world_wf. rewrite Ha, Hc.
  split; [exact Hnd |]. split.
  - intros k r Hin. destruct (Hag k r Hin) as (a & Hr & Hid).
    destruct (heap_rel_lookup _ _ _ _ _ _ Hrel Hr) as (a' & Hr' & Hk).
    exists a'. split; [exact Hr' |]. unfold keeps, identity in Hk. congruence.
  - intros c Ec. destruct (Hco c Ec) as (a & Hr & Hcls).
    destruct (heap_rel_lookup _ _ _ _ _ _ Hrel Hr) as (a' & Hr' & Hk).
    exists a'. split; [exact Hr' |]. unfold keeps, identity in Hk. congruence.
Qed.

Lemma wf_add_agent r w : world_wf w -> world_wf (snd (add_agent r w)).
Proof.
  intros Hwf. destruct (heap w !! r) as [a |] eqn:Hr;
    [| rewrite add_agent_missing by exact Hr; exact Hwf].
  pose proof (identity_add_agent r w) as Hrel.
  pose proof (add_agent_roster r w a Hr) as Hro.
  destruct Hwf as (Hnd & Hag & Hco). unfold roster in Hro.
  inversion Hro as [[Ha Hc]]. unfold world_wf. rewrite Ha, Hc.
  destruct (heap_rel_lookup _ _ _ _ _ _ Hrel Hr) as (a' & Hr' & Hk).
  unfold keeps, identity in Hk.
  split; [apply dict_set_NoDup, Hnd |]. split.
  - intros k r0 Hin. apply dict_set_In in Hin as [[-> ->] | Hin].
    + exists a'. split; [exact Hr' | congruence].
    + destruct (Hag k r0 Hin) as (a0 & Hr0 & Hid).
      destruct (heap_rel_lookup _ _ _ _ _ _ Hrel Hr0) as (a0' & Hr0' & Hk0).
      exists a0'. split; [exact Hr0' |]. unfold keeps, identity in Hk0. congruence.
  - intros c Ec. destruct (AgentClass_eqb (cls a) CoordinatorCls) eqn:Ecls.
    + inversion Ec; subst c. apply AgentClass_eqb_eq in Ecls.
      exists a'. split; [exact Hr' | congruence].
    + destruct (Hco c Ec) as (a0 & Hr0 & Hcls).
      destruct (heap_rel_lookup _ _ _ _ _ _ Hrel Hr0) as (a0' & Hr0' & Hk0).
      exists a0'. split; [exact Hr0' |]. unfold keeps, identity in Hk0. congruence.
Qed.

Lemma wf_run_op op w : world_wf w -> world_wf (snd (run_op op w)).
Proof.
  intros Hwf.
  assert (Hcase : (exists r, op = AddAgent r) \/ (forall r, op <> AddAgent r)).
  { destruct op; first [left; eexists; reflexivity | right; intros ? ?; discriminate]. }
  destruct Hcase as [[r ->] | Hne].
  - apply wf_add_agent, Hwf.
  - destruct (identity_run_op op Hne w) as [Hrel Hro].
    eapply wf_step; eauto.
Qed.

Lemma wf_exec ops w : world_wf w -> world_wf (exec ops w).
Proof.
  unfold exec. revert w. induction ops as [| op ops IH]; intros w Hwf; simpl.
  - exact Hwf.
  - apply IH, wf_run_op, Hwf.
Qed.

Lemma reachable_wf w : reachable w -> world_wf w.
Proof.
  intros (rnd & ops & ->). apply wf_exec. repeat split; simpl.
  - apply NoDup_nil_2.
  - intros k r [].
  - intros c; discriminate.
Qed.

Lemma reachable_exec ops w : reachable w -> reachable (exec ops w).
Proof.
  intros (rnd & ops0 & ->). exists rnd, (ops0 ++ ops).
  unfold exec. rewrite fold_left_app. reflexivity.
Qed.
(** *** Nothing reads the pending orders *)

Lemma same_agent_inv a a' : same_agent a a' -> exists q, a' = set_pending_orders q a.
Proof.
  intros H. exists (pending_orders a'). destruct a, a'.
  unfold same_agent, without_pending, set_pending_orders in *. simpl in *.
  injection H. intros. subst. reflexivity.
Qed.

Lemma same_world_fields w w' :
  same_world w w' ->
  Forall2 same_agent (heap w) (heap w') /\ mas w = mas w' /\ stdout w = stdout w' /\
  rand w = rand w' /\ rand_ix w = rand_ix w' /\ dispatched w = dispatched w'.
Proof.
  unfold same_world, forget_pending.
  destruct w as [h m o rd ix d], w' as [h' m' o' rd' ix' d']. simpl.
  intros H. injection H as Hh -> -> -> -> ->.
  split; [| repeat split].
  revert h' Hh. induction h as [| a h IH]; intros [| a' h'] Hh;
    try discriminate; constructor;
    change (without_pending a :: map without_pending h =
            without_pending a' :: map without_pending h') in Hh.
  - unfold same_agent. congruence.
  - apply IH. congruence.
Qed.

Lemma same_world_intro w w' :
  Forall2 same_agent (heap w) (heap w') -> mas w = mas w' -> stdout w = stdout w' ->
  rand w = rand w' -> rand_ix w = rand_ix w' -> dispatched w = dispatched w' ->
  same_world w w'.
Proof.
  unfold same_world, forget_pending.
  destruct w as [h m o rd ix d], w' as [h' m' o' rd' ix' d']. simpl.
  intros Hh -> -> -> -> ->. unfold set_heap. simpl. f_equal.
  induction Hh as [| a a' h h' Ha _ IH]; cbn [map]; [reflexivity |].
  unfold same_agent in Ha. rewrite IH, Ha. reflexivity.
Qed.

Lemma same_result_eq {A} (x y : Result A) : same_result eq x y -> x = y.
Proof. destruct x, y; simpl; intros H; try contradiction; congruence. Qed.

Section Blind.

Context {S : Type} {RS : S -> S -> Prop}.

Lemma blind_ret {A} (RA : A -> A -> Prop) (a a' : A) :
  RA a a' -> blind RS RA (ret a) (ret a').
Proof. intros Ha s s' Hs. split; [exact Ha | exact Hs]. Qed.

Lemma blind_raise {A} (RA : A -> A -> Prop) (e : Exn) :
  blind RS RA (raise e) (raise e).
Proof. intros s s' Hs. split; [reflexivity | exact Hs]. Qed.

Lemma blind_bind {A B} (RA : A -> A -> Prop) (RB : B -> B -> Prop)
    (m m' : M S A) (k k' : A -> M S B) :
  blind RS RA m m' ->
  (forall a a', RA a a' -> blind RS RB (k a) (k' a')) ->
  blind RS RB (bind m k) (bind m' k').
Proof.
  intros Hm Hk s s' Hs. unfold bind. destruct (Hm s s' Hs) as [Hr Hs1].
  destruct (m s) as [[a | e | |] s1], (m' s') as [[a' | e' | |] s1'];
    simpl in *; try contradiction; try (split; assumption).
  apply Hk; assumption.
Qed.

Lemma blind_for_each {X} (l : list X) (body body' : X -> M S unit) :
  (forall x, blind RS eq (body x) (body' x)) ->
  blind RS eq (for_each l body) (for_each l body').
Proof.
  intros Hb. induction l as [| x l IH]; simpl.
  - apply blind_ret. reflexivity.
  - eapply blind_bind; [apply Hb | intros _ _ _; exact IH].
Qed.

Lemma blind_py_len v : blind RS eq (py_len v) (py_len v).
Proof. intros s s' Hs. unfold py_len. destruct (len v); split; simpl; auto. Qed.

Lemma blind_py_int v : blind RS eq (py_int v) (py_int v).
Proof. intros s s' Hs. unfold py_int. destruct (as_int v); split; simpl; auto. Qed.

End Blind.

Lemma blind_get_self : blind same_local same_agent get_self get_self.
Proof. intros l l' [Ha Ho]. split; [exact Ha | split; assumption]. Qed.

Lemma blind_modify_self f f' :
  (forall a a', same_agent a a' -> same_agent (f a) (f' a')) ->
  blind same_local eq (modify_self f) (modify_self f').
Proof.
  intros Hf l l' [Ha Ho]. split; [reflexivity |]. split; [apply Hf, Ha | exact Ho].
Qed.

Lemma blind_print_l o : blind same_local eq (print_l o) (print_l o).
Proof.
  intros l l' [Ha Ho]. split; [reflexivity |]. split; [exact Ha |].
  simpl. rewrite Ho. reflexivity.
Qed.

Lemma blind_get_agent r : blind same_world same_agent (get_agent r) (get_agent r).
Proof.
  intros w w' Hw. destruct (same_world_fields w w' Hw) as (Hh & _).
  unfold get_agent. destruct (heap w !! r) as [a |] eqn:E.
  - destruct (Forall2_lookup_l _ _ _ _ _ Hh E) as (a' & E' & Ha). rewrite E'.
    split; [exact Ha | exact Hw].
  - apply lookup_ge_None in E. rewrite (Forall2_length _ _ _ Hh) in E.
    apply lookup_ge_None in E. rewrite E. split; [exact I | exact Hw].
Qed.

Lemma blind_modify_agent r f f' :
  (forall a a', same_agent a a' -> same_agent (f a) (f' a')) ->
  blind same_world eq (modify_agent r f) (modify_agent r f').
Proof.
  intros Hf w w' Hw.
  destruct (same_world_fields w w' Hw) as (Hh & Hm & Ho & Hr & Hi & Hd).
  unfold modify_agent. destruct (heap w !! r) as [a |] eqn:E.
  - destruct (Forall2_lookup_l _ _ _ _ _ Hh E) as (a' & E' & Ha). rewrite E'.
    split; [reflexivity |]. apply same_world_intro; simpl; try assumption.
    apply Forall2_insert; [exact Hh | apply Hf, Ha].
  - apply lookup_ge_None in E. rewrite (Forall2_length _ _ _ Hh) in E.
    apply lookup_ge_None in E. rewrite E. split; [exact I | exact Hw].
Qed.

Lemma blind_get_mas : blind same_world eq get_mas get_mas.
Proof.
  intros w w' Hw. destruct (same_world_fields w w' Hw) as (_ & Hm & _).
  split; [exact Hm | exact Hw].
Qed.

Lemma blind_modify_mas f : blind same_world eq (modify_mas f) (modify_mas f).
Proof.
  intros w w' Hw.
  destruct (same_world_fields w w' Hw) as (Hh & Hm & Ho & Hr & Hi & Hd).
  split; [reflexivity |]. apply same_world_intro; simpl; try assumption.
  rewrite Hm. reflexivity.
Qed.

Lemma blind_print o : blind same_world eq (print o) (print o).
Proof.
  intros w w' Hw.
  destruct (same_world_fields w w' Hw) as (Hh & Hm & Ho & Hr & Hi & Hd).
  split; [reflexivity |]. apply same_world_intro; simpl; try assumption.
  rewrite Ho. reflexivity.
Qed.

Lemma blind_randint lo hi : blind same_world eq (randint lo hi) (randint lo hi).
Proof.
  intros w w' Hw.
  destruct (same_world_fields w w' Hw) as (Hh & Hm & Ho & Hr & Hi & Hd).
  split; [simpl; rewrite Hr, Hi; reflexivity |].
  apply same_world_intro; simpl; try assumption. rewrite Hi. reflexivity.
Qed.

Lemma blind_note_dispatch r m :
  blind same_world eq (note_dispatch r m) (note_dispatch r m).
Proof.
  intros w w' Hw.
  destruct (same_world_fields w w' Hw) as (Hh & Hm & Ho & Hr & Hi & Hd).
  split; [reflexivity |]. apply same_world_intro; simpl; try assumption.
  rewrite Hd. reflexivity.
Qed.

Lemma blind_alloc a : blind same_world eq (alloc a) (alloc a).
Proof.
  intros w w' Hw.
  destruct (same_world_fields w w' Hw) as (Hh & Hm & Ho & Hr & Hi & Hd).
  split; [simpl; rewrite (Forall2_length _ _ _ Hh); reflexivity |].
  apply same_world_intro; simpl; try assumption.
  apply Forall2_app; [exact Hh | constructor; [reflexivity | constructor]].
Qed.

Lemma blind_with_self {A} (RA : A -> A -> Prop) r (m m' : M Local A) :
  blind same_local RA m m' -> blind same_world RA (with_self r m) (with_self r m').
Proof.
  intros Hm w w' Hw.
  destruct (same_world_fields w w' Hw) as (Hh & Hms & Ho & Hr & Hi & Hd).
  unfold with_self. destruct (heap w !! r) as [a |] eqn:E.
  - destruct (Forall2_lookup_l _ _ _ _ _ Hh E) as (a' & E' & Ha). rewrite E'.
    destruct (Hm (mkLocal a (stdout w)) (mkLocal a' (stdout w'))) as [Hres [Hs Hout]];
      [split; assumption |].
    destruct (m (mkLocal a (stdout w))) as [res l],
             (m' (mkLocal a' (stdout w'))) as [res' l'].
    simpl in *. split; [exact Hres |].
    apply same_world_intro; simpl; try assumption.
    apply Forall2_insert; assumption.
  - apply lookup_ge_None in E. rewrite (Forall2_length _ _ _ Hh) in E.
    apply lookup_ge_None in E. rewrite E. split; [exact I | exact Hw].
Qed.

Lemma blind_select p refs :
  (forall a a', same_agent a a' -> p a = p a') ->
  blind same_world eq (select p refs) (select p refs).
Proof.
  intros Hp. induction refs as [| r refs IH]; simpl.
  - apply blind_ret. reflexivity.
  - eapply blind_bind; [apply blind_get_agent |]. intros a a' Ha.
    eapply blind_bind; [exact IH |]. intros rest rest' <-.
    apply blind_ret. rewrite (Hp a a' Ha). reflexivity.
Qed.

Lemma blind_process_messages_with handler fuel r :
  (forall r m, blind same_world eq (handler r m) (handler r m)) ->
  blind same_world eq (process_messages_with handler fuel r)
    (process_messages_with handler fuel r).
Proof.
  intros Hh. induction fuel as [| fuel IH]; simpl.
  - intros w w' Hw. split; [exact I | exact Hw].
  - eapply blind_bind; [apply blind_get_agent |]. intros a a' Ha.
    apply same_agent_inv in Ha as [q ->]. simpl.
    destruct (message_queue a) as [| m rest]; [apply blind_ret; reflexivity |].
    eapply blind_bind;
      [apply blind_modify_agent; intros b b' Hb;
       apply same_agent_inv in Hb as [q' ->]; reflexivity |].
    intros _ _ _. eapply blind_bind; [apply blind_note_dispatch |].
    intros _ _ _. eapply blind_bind; [apply Hh |].
    intros _ _ _. exact IH.
Qed.

(** Side conditions: a function of the object that does not read what is
    pending. *)
Ltac pending_leaf :=
  let H := fresh in
  let q := fresh "q" in
  intros ? ? H; apply same_agent_inv in H as [q ->]; reflexivity.

(** After a bind: name the two values and make them one. *)
Ltac same_values :=
  let H := fresh in
  let q := fresh "q" in
  intros ? ? H;
  first [ apply same_agent_inv in H as [q ->] | subst ];
  cbv beta;
  cbn [cls agent_id agent_type position state battery_level message_queue
       current_task performance_metrics carrying_capacity current_load speed
       pending_orders charging_stations available_stations agent_registry
       set_pending_orders].

Ltac lblind_tac :=
  idtac;
  repeat first
    [ apply (blind_ret eq); reflexivity
    | apply blind_raise
    | apply blind_get_self
    | apply blind_print_l
    | apply blind_py_len
    | apply blind_py_int
    | apply blind_modify_self; solve [pending_leaf]
    | eapply blind_bind; [lblind_tac | same_values]
    | match goal with
      | |- blind _ _ (if ?b then _ else _) (if ?b then _ else _) => destruct b
      | |- blind _ _ (match ?x with _ => _ end) (match ?x with _ => _ end) => destruct x
      end
    | progress (autounfold with model; cbv zeta) ].

Ltac blind_tac :=
  idtac;
  repeat first
    [ apply (blind_ret eq); reflexivity
    | apply blind_raise
    | apply blind_get_agent
    | apply blind_get_mas
    | apply blind_print
    | apply blind_randint
    | apply blind_note_dispatch
    | apply blind_alloc
    | apply blind_py_len
    | apply blind_py_int
    | apply blind_modify_mas
    | apply blind_modify_agent; solve [pending_leaf]
    | apply blind_select; solve [pending_leaf]
    | apply blind_with_self; lblind_tac
    | apply blind_for_each; intro
    | apply blind_process_messages_with; intros
    | eapply blind_bind; [blind_tac | same_values]
    | match goal with
      | |- blind _ _ (if ?b then _ else _) (if ?b then _ else _) => destruct b
      | |- blind _ _ (match ?x with _ => _ end) (match ?x with _ => _ end) => destruct x
      end
    | progress (autounfold with model; cbv zeta) ].

Lemma blind_handle_message r m :
  blind same_world eq (handle_message r m) (handle_message r m).
Proof. blind_tac. Qed.

(** No call of the driver reads a pending list: from worlds that differ at
    most in what is pending, a call ends with the same outcome in worlds
    that differ at most in what is pending. *)
Lemma blind_run_op op : blind same_world eq (run_op op) (run_op op).
Proof. destruct op; blind_tac. Qed.

Lemma blind_exec ops :
  forall w w', same_world w w' -> same_world (exec ops w) (exec ops w').
Proof.
  unfold exec. induction ops as [| op ops IH]; intros w w' Hw; simpl; [exact Hw |].
  apply IH. apply (blind_run_op op w w' Hw).
Qed.

(** ** Transport requests *)

(** C1.  An idle transporter that receives a transport request for a number
    of items within its capacity does not complete the transport: the first
    step of [execute_transport] calls [move_to_location], which
    [TransportAgent] does not have, and the call ends in [AttributeError].
    The agent is left in state [WORKING], with the request as current task
    and nothing else changed. *)
Theorem accepted_transport_request_raises (a : Agent) (o : list Output)
    (request : Dict) (n : Z) :
  cls a = TransportCls ->
  state a = IDLE ->
  dict_get request "item_count" (VInt 0) = VInt n ->
  n <= carrying_capacity a ->
  handle_transport_request request (mkLocal a o) =
    (Raise (AttributeError "move_to_location"),
     mkLocal (set_current_task (Some request) (set_state WORKING a))
       (o ++ [OTransportRequest (agent_id a) (VInt n); OExecuting (agent_id a)])).
Proof.
  intros Hcls Hidle Hcount Hn.
  unfold handle_transport_request. rewrite Hcount.
  unfold bind, get_self, print_l, modify_self, py_int, ret. simpl.
  rewrite Hidle. simpl.
  apply Z.leb_le in Hn. rewrite Hn.
  unfold execute_transport, move_to_location, bind, get_self, print_l. simpl.
  rewrite Hcls. unfold raise. rewrite <- app_assoc. reflexivity.
Qed.

Lemma accepted_transport_request_raises_witness :
  handle_transport_request transport_request_3 (mkLocal transport_01 []) =
    (Raise (AttributeError "move_to_location"),
     mkLocal (set_current_task (Some transport_request_3) (set_state WORKING transport_01))
       [OTransportRequest "TRANSPORT_01" (VInt 3); OExecuting "TRANSPORT_01"]).
Proof.
  apply (accepted_transport_request_raises transport_01 [] transport_request_3 3);
    [reflexivity | reflexivity | reflexivity | discriminate].
Defined.

(** C2.  In the scenario of the specification (one idle picker at (2,3), one
    idle transporter at (1,1), an order of three items) [allocate_tasks]
    issues one pick request and one transport request, the picker ends idle
    with one task completed, but the transport request ends in
    [AttributeError]: the transporter is left [WORKING] with no task
    completed, and the exception leaves [allocate_tasks]. *)
Theorem allocation_scenario_raises (rnd : nat -> Z) :
  let w := allocation_world rnd in
  let w' := snd (allocate_tasks 0%nat order_001 w) in
  fst (allocate_tasks 0%nat order_001 w) = Raise (AttributeError "move_to_location") /\
  pick_requests (new_output (stdout w) w') = 1%nat /\
  transport_requests (new_output (stdout w) w') = 1%nat /\
  (state <$> heap w !! 1%nat) = Some IDLE /\
  (state <$> heap w !! 2%nat) = Some IDLE /\
  (state <$> heap w' !! 1%nat) = Some IDLE /\
  (tasks_completed <$> (performance_metrics <$> heap w' !! 1%nat)) = Some 1 /\
  (state <$> heap w' !! 2%nat) = Some WORKING /\
  (tasks_completed <$> (performance_metrics <$> heap w' !! 2%nat)) = Some 0.
Proof. repeat split. Qed.

(** ** The pool of charging stations *)

(** C6.  In every reachable world the pool of a coordinator satisfies
    [0 <= available_stations <= charging_stations].  A request for a
    charging station is granted when a station is available: the method
    returns [True] and [available_stations] goes down by exactly one.  It is
    denied when none is available: the method returns [False] and the
    coordinator is unchanged. *)
Theorem station_pool_invariant (w : World) (c : ref) (a : Agent)
    (request : Dict) (o : list Output) :
  reachable w ->
  heap w !! c = Some a ->
  cls a = CoordinatorCls ->
  dict_get request "resource_type" (VStr "") = VStr "charging_station" ->
  0 <= available_stations a <= charging_stations a /\
  (0 < available_stations a ->
   handle_resource_request request (mkLocal a o) =
     (Ret (Some true),
      mkLocal (set_available_stations (available_stations a - 1) a)
        (o ++ [OStationAllocated (dict_get request "agent_id" (VStr ""))]))) /\
  (available_stations a = 0 ->
   handle_resource_request request (mkLocal a o) =
     (Ret (Some false),
      mkLocal a (o ++ [ONoStation (dict_get request "agent_id" (VStr ""))]))).
Proof.
  intros Hreach Hc Hcls Hty.
  destruct (reachable_agent_ok w c a Hreach Hc) as [_ Hpool].
  split; [apply Hpool, Hcls |].
  unfold handle_resource_request. rewrite Hty. simpl.
  unfold bind, get_self, modify_self, print_l, ret. simpl.
  split; intros Hav.
  - apply Z.ltb_lt in Hav. rewrite Hav. reflexivity.
  - rewrite Hav. simpl. destruct a; reflexivity.
Qed.

Lemma station_pool_invariant_witness :
  0 <= available_stations coord_01 <= charging_stations coord_01 /\
  handle_resource_request (charging_request "PICKER_01") (mkLocal coord_01 []) =
    (Ret (Some true),
     mkLocal (set_available_stations 2 coord_01) [OStationAllocated (VStr "PICKER_01")]).
Proof.
  destruct (station_pool_invariant coordinator_world 0%nat coord_01
              (charging_request "PICKER_01") []) as (Hinv & Hgrant & _).
  - exists (fun _ => 0), [NewCoordinatorAgent "COORD_01"]. reflexivity.
  - reflexivity.
  - reflexivity.
  - reflexivity.
  - split; [exact Hinv | apply Hgrant; reflexivity].
Defined.

(** ** The load of a picker *)

(** C7.  In every reachable world the load of a picker is at most its
    carrying capacity.  A pick request that finds the picker not idle, or
    whose items would take the load over the capacity, is rejected: the
    picker object is unchanged (state, load, counters, task), only the
    narration grows.  A request that is accepted loads all its items. *)
Theorem picker_capacity_invariant (w : World) (r : ref) (a : Agent)
    (request : Dict) (o : list Output) (n : Z) :
  reachable w ->
  heap w !! r = Some a ->
  cls a = PickerCls ->
  len (dict_get request "items" (VList [])) = Ret n ->
  current_load a <= carrying_capacity a /\
  (state a <> IDLE \/ carrying_capacity a < current_load a + n ->
   handle_pick_request request (mkLocal a o) =
     (Ret tt,
      mkLocal a
        (o ++ [OPickRequest (agent_id a) n (dict_get request "location" (VTuple 0 0));
               OPickRejected (agent_id a)]))) /\
  (state a = IDLE /\ current_load a + n <= carrying_capacity a ->
   exists l,
     handle_pick_request request (mkLocal a o) = (Ret tt, l) /\
     current_load (self l) = current_load a + n /\
     current_load (self l) <= carrying_capacity (self l) /\
     state (self l) = IDLE /\
     tasks_completed (performance_metrics (self l)) =
       tasks_completed (performance_metrics a) + 1).
Proof.
  intros Hreach Hr Hcls Hlen.
  destruct (reachable_agent_ok w r a Hreach Hr) as [Hload _].
  split; [apply Hload, Hcls |].
  unfold handle_pick_request.
  unfold bind, get_self, modify_self, print_l, ret, py_len. rewrite Hlen. simpl.
  split.
  - intros Hrej.
    assert (Hcond : (if AgentState_eqb (state a) IDLE
                     then (current_load a + n <=? carrying_capacity a)
                     else false) = false).
    { destruct (AgentState_eqb (state a) IDLE) eqn:Est; [| reflexivity].
      apply AgentState_eqb_eq in Est. apply Z.leb_gt.
      destruct Hrej as [Hne | Hover]; [contradiction | exact Hover]. }
    destruct (AgentState_eqb (state a) IDLE); simpl; rewrite ?Hcond; simpl;
      rewrite <- app_assoc; reflexivity.
  - intros [Hidle Hfit]. rewrite Hidle. simpl.
    apply Z.leb_le in Hfit. rewrite Hfit. simpl.
    unfold move_to_location, Picker_move_to_location, pick_items, update_battery.
    unfold bind, get_self, modify_self, print_l, ret, py_len. simpl.
    rewrite Hcls. rewrite Hlen. simpl.
    repeat match goal with
           | |- context [Z.ltb ?x ?y] => destruct (Z.ltb x y)
           end; simpl; eexists; (split; [reflexivity |]); simpl;
      apply Z.leb_le in Hfit; repeat split; try reflexivity; lia.
Qed.

Lemma picker_capacity_invariant_witness :
  current_load picker_01 <= carrying_capacity picker_01 /\
  handle_pick_request pick_request_11 (mkLocal picker_01 []) =
    (Ret tt,
     mkLocal picker_01
       [OPickRequest "PICKER_01" 11 (VTuple 4 4); OPickRejected "PICKER_01"]).
Proof.
  destruct (picker_capacity_invariant picker_world 0%nat picker_01
              pick_request_11 [] 11) as (Hinv & Hrej & _).
  - exists (fun _ => 0), [NewPickerAgent "PICKER_01" (VTuple 2 3)]. reflexivity.
  - reflexivity.
  - reflexivity.
  - reflexivity.
  - split; [exact Hinv | apply Hrej; right; reflexivity].
Defined.

(** ** Pending orders *)

#[global] Instance grows_agent_rel {X} (f : Agent -> list X) : AgentRel (grows f).
Proof.
  split; unfold grows.
  - intros a. reflexivity.
  - intros a1 a2 a3 H1 H2. etransitivity; eassumption.
Qed.

Ltac grows_leaf :=
  intros;
  first
    [ exact I
    | apply heap_rel_same_heap; reflexivity
    | unfold grows; simpl; first [reflexivity | apply prefix_app_r; reflexivity] ].

Lemma pending_allocate_tasks c order :
  respects (heap_rel (keeps pending_orders) any_agent) (allocate_tasks c order).
Proof. respects_tac frame_leaf. Qed.

Lemma pending_run_op op :
  respects (heap_rel (grows pending_orders) any_agent) (run_op op).
Proof. destruct op; respects_tac grows_leaf. Qed.

(** C5, as the code has it.  [handle_order_request] appends the order to the
    pending list of the coordinator and then attempts the allocation;
    whatever the allocation does (assign, find no idle agent, or end in an
    exception) the pending list afterwards is the old list followed by the
    order, and no later call of the driver removes it: the pending list of
    an agent only ever grows at its end.  No retry is scheduled: no call of
    the driver reads a pending list.  From any world that differs from the
    one after the order request at most in what is pending (the same world
    with the order taken off the list, say), every sequence of calls has
    the same outcomes, prints the same lines and leaves the same objects,
    system object and history, apart from the pending lists; so no later
    call allocates an order because it is pending. *)
Theorem order_stays_pending (w : World) (c : ref) (a : Agent) (order : Dict)
    (ops : list Op) :
  heap w !! c = Some a ->
  (exists a1 a2,
     heap (snd (handle_order_request c order w)) !! c = Some a1 /\
     pending_orders a1 = pending_orders a ++ [order] /\
     heap (exec ops (snd (handle_order_request c order w))) !! c = Some a2 /\
     (pending_orders a ++ [order]) `prefix_of` pending_orders a2 /\
     In order (pending_orders a2)) /\
  (forall w2,
     forget_pending w2 = forget_pending (snd (handle_order_request c order w)) ->
     forget_pending (exec ops w2) =
       forget_pending (exec ops (snd (handle_order_request c order w))) /\
     stdout (exec ops w2) = stdout (exec ops (snd (handle_order_request c order w))) /\
     forall op,
       fst (run_op op (exec ops w2)) =
       fst (run_op op (exec ops (snd (handle_order_request c order w))))).
Proof.
  intros Hc. split.
  - assert (H1 : exists a1, heap (snd (handle_order_request c order w)) !! c = Some a1 /\
                            pending_orders a1 = pending_orders a ++ [order]).
    { unfold handle_order_request, bind, print, modify_agent. simpl. rewrite Hc.
      set (wmid := set_heap _ _).
      assert (Hmid : heap wmid !! c =
                     Some (set_pending_orders (pending_orders a ++ [order]) a)).
      { subst wmid. simpl. apply list_lookup_insert_eq. eapply lookup_lt_Some, Hc. }
      destruct (heap_rel_lookup _ _ _ _ _ _ (pending_allocate_tasks c order wmid) Hmid)
        as (a1 & Ha1 & Hk).
      exists a1. split; [exact Ha1 | exact Hk]. }
    destruct H1 as (a1 & Ha1 & Hp1).
    pose proof (respects_exec (R := heap_rel (grows pending_orders) any_agent) ops
                  (fun op _ => pending_run_op op)
                  (snd (handle_order_request c order w))) as Hrel.
    destruct (heap_rel_lookup _ _ _ _ _ _ Hrel Ha1) as (a2 & Ha2 & Hg).
    exists a1, a2. unfold grows in Hg. rewrite Hp1 in Hg.
    repeat split; try assumption.
    destruct Hg as [rest ->]. apply in_or_app. left. apply in_or_app. right. now left.
  - intros w2 Hw2.
    pose proof (blind_exec ops w2 (snd (handle_order_request c order w)) Hw2) as Hex.
    split; [exact Hex |].
    split; [apply (same_world_fields _ _ Hex) |].
    intros op. apply same_result_eq. apply (blind_run_op op _ _ Hex).
Qed.

Lemma order_stays_pending_witness :
  (exists a1 a2,
     heap (snd (handle_order_request 0%nat order_001 (allocation_world (fun _ => 0))))
       !! 0%nat = Some a1 /\
     pending_orders a1 = [order_001] /\
     heap (exec [SimulateStep 1]
             (snd (handle_order_request 0%nat order_001 (allocation_world (fun _ => 0)))))
       !! 0%nat = Some a2 /\
     [order_001] `prefix_of` pending_orders a2 /\
     In order_001 (pending_orders a2)) /\
  (forall w2,
     forget_pending w2 =
       forget_pending
         (snd (handle_order_request 0%nat order_001 (allocation_world (fun _ => 0)))) ->
     forget_pending (exec [SimulateStep 1] w2) =
       forget_pending
         (exec [SimulateStep 1]
            (snd (handle_order_request 0%nat order_001 (allocation_world (fun _ => 0))))) /\
     stdout (exec [SimulateStep 1] w2) =
       stdout
         (exec [SimulateStep 1]
            (snd (handle_order_request 0%nat order_001 (allocation_world (fun _ => 0))))) /\
     forall op,
       fst (run_op op (exec [SimulateStep 1] w2)) =
       fst (run_op op
              (exec [SimulateStep 1]
                 (snd (handle_order_request 0%nat order_001
                         (allocation_world (fun _ => 0))))))).
Proof.
  apply (order_stays_pending (allocation_world (fun _ => 0)) 0%nat
           (set_agent_registry [("PICKER_01", 1%nat); ("TRANSPORT_01", 2%nat)] coord_01)
           order_001 [SimulateStep 1]).
  reflexivity.
Defined.

(** Whether the order of the scenario is still pending or not changes
    nothing in what a second order and a simulation step do: the console
    shows the same lines and the worlds differ only in what is pending. *)
Example pending_order_has_no_effect :
  let later := [ProcessOrder order_bulk; SimulateStep 2] in
  forget_pending ordered_world <> ordered_world /\
  stdout (exec later (forget_pending ordered_world)) = stdout (exec later ordered_world) /\
  forget_pending (exec later (forget_pending ordered_world)) =
    forget_pending (exec later ordered_world).
Proof.
  split; [vm_compute; discriminate |].
  split; vm_compute; reflexivity.
Qed.

(** C5, as the specification states it, fails: after an allocation that
    assigned the order the order is still pending.  With the three-item
    order the picker carries out the pick (and the transporter's part ends
    in the exception of C1); with the 51-item order [allocate_tasks] returns
    normally and reports the assignment.  In both runs the order is in the
    pending list afterwards. *)
Lemma assigned_order_still_pending :
  let w := allocation_world (fun _ => 0) in
  let w1 := snd (handle_order_request 0%nat order_001 w) in
  let w2 := snd (handle_order_request 0%nat order_bulk w) in
  (tasks_completed <$> (performance_metrics <$> heap w1 !! 1%nat)) = Some 1 /\
  (pending_orders <$> heap w1 !! 0%nat) = Some [order_001] /\
  fst (handle_order_request 0%nat order_bulk w) = Ret tt /\
  In (OAssigned "PICKER_01" "TRANSPORT_01") (new_output (stdout w) w2) /\
  (pending_orders <$> heap w2 !! 0%nat) = Some [order_bulk].
Proof.
  vm_compute. repeat split; try reflexivity.
  do 4 right. left. reflexivity.
Qed.

(** ** Broadcast *)

Lemma wf_values_NoDup w : world_wf w -> NoDup (dict_values (agents (mas w))).
Proof.
  intros (Hnd & Hag & _). revert Hnd Hag. generalize (agents (mas w)) as d.
  induction d as [| [k r] d IH]; simpl; intros Hnd Hag.
  - apply NoDup_nil_2.
  - apply NoDup_cons in Hnd as [Hk Hnd]. apply NoDup_cons. split.
    + intros Hin. apply list_elem_of_In, in_map_iff in Hin as [[k' r'] [E Hin]].
      simpl in E. subst r'.
      destruct (Hag k r (or_introl eq_refl)) as (a & Ha & Hid).
      destruct (Hag k' r (or_intror Hin)) as (a' & Ha' & Hid').
      assert (Hkk : k' = k) by congruence. rewrite Hkk in Hin.
      apply Hk, list_elem_of_In, in_map_iff. exists (k, r).
      split; [reflexivity | exact Hin].
    + apply IH; [exact Hnd |]. intros k' r' Hin. apply Hag. now right.
Qed.

Lemma wf_values_live w r :
  world_wf w -> In r (dict_values (agents (mas w))) -> is_Some (heap w !! r).
Proof.
  intros (_ & Hag & _) Hin. apply in_map_iff in Hin as [[k r'] [E Hin]].
  simpl in E. subst r'. destruct (Hag k r Hin) as (a & Ha & _). eauto.
Qed.

Lemma deliver_step message r w a :
  heap w !! r = Some a ->
  exists w1,
    deliver_unless_sender message r w = (Ret tt, w1) /\
    heap w1 = <[r := delivered message a]> (heap w) /\
    mas w1 = mas w.
Proof.
  intros Hr. unfold deliver_unless_sender, delivered, bind, get_agent.
  rewrite Hr. simpl.
  destruct (String.eqb (agent_id a) (sender_id message)); simpl.
  - exists w. repeat split. symmetry. apply list_insert_id, Hr.
  - unfold with_self. rewrite Hr. simpl. eexists. repeat split.
Qed.

Lemma broadcast_loop message refs :
  forall w,
    NoDup refs ->
    (forall r, In r refs -> is_Some (heap w !! r)) ->
    exists w',
      for_each refs (deliver_unless_sender message) w = (Ret tt, w') /\
      (forall r a, In r refs -> heap w !! r = Some a ->
         heap w' !! r = Some (delivered message a)) /\
      (forall r, ~ In r refs -> heap w' !! r = heap w !! r) /\
      mas w' = mas w.
Proof.
  induction refs as [| r refs IH]; intros w Hnd Hlive; simpl.
  - exists w. split; [reflexivity |]. split; [intros r a [] |].
    split; reflexivity.
  - apply NoDup_cons in Hnd as [Hr Hnd].
    destruct (Hlive r (or_introl eq_refl)) as [a Ha].
    destruct (deliver_step message r w a Ha) as (w1 & E1 & Hh1 & Hm1).
    assert (Hother : forall r', r' <> r -> heap w1 !! r' = heap w !! r').
    { intros r' Hne. rewrite Hh1. apply list_lookup_insert_ne. congruence. }
    assert (Hself : heap w1 !! r = Some (delivered message a)).
    { rewrite Hh1. apply list_lookup_insert_eq. eapply lookup_lt_Some, Ha. }
    destruct (IH w1 Hnd) as (w' & E' & Hin' & Hout' & Hm').
    { intros r' Hin. rewrite Hother; [apply Hlive; now right |].
      intros ->. apply Hr, list_elem_of_In, Hin. }
    exists w'. unfold bind. rewrite E1. split; [exact E' |]. split; [| split].
    + intros r0 a0 [<- | Hin] H0.
      * rewrite Hout' by (intros Hin; apply Hr, list_elem_of_In, Hin).
        rewrite Hself. congruence.
      * apply Hin'; [exact Hin |]. rewrite Hother; [exact H0 |].
        intros ->. apply Hr, list_elem_of_In, Hin.
    + intros r0 Hnin. rewrite Hout' by (intros Hin; apply Hnin; now right).
      apply Hother. intros ->. apply Hnin. now left.
    + congruence.
Qed.

(** C9.  In every reachable world, routing a message addressed to ['ALL']
    returns normally, appends the message once to the log of the bus (and
    counts it), and delivers it once to every agent of the system other
    than the sender: each such agent has the message appended to its queue
    and its received-counter incremented, the sender and the objects that
    are not in the system are untouched. *)
Theorem broadcast_delivery (w : World) (message : Message) :
  reachable w ->
  receiver_id message = "ALL" ->
  exists w',
    route_message message w = (Ret tt, w') /\
    message_log (mas w') = message_log (mas w) ++ [message] /\
    total_messages (mas w') = total_messages (mas w) + 1 /\
    (forall r a, In r (dict_values (agents (mas w))) -> heap w !! r = Some a ->
       heap w' !! r = Some (delivered message a)) /\
    (forall r, ~ In r (dict_values (agents (mas w))) -> heap w' !! r = heap w !! r).
Proof.
  intros Hreach Hall. apply reachable_wf in Hreach as Hwf.
  unfold route_message, bind, modify_mas, get_mas. simpl. rewrite Hall. simpl.
  set (wm := set_mas _ _).
  destruct (broadcast_loop message (dict_values (agents (mas w))) wm) as
    (w' & E & Hin & Hout & Hm).
  - apply wf_values_NoDup, Hwf.
  - intros r Hr. apply (wf_values_live w r Hwf Hr).
  - exists w'. split; [exact E |]. rewrite Hm. subst wm. simpl.
    repeat split; assumption.
Qed.

Lemma broadcast_delivery_witness :
  exists w',
    route_message broadcast_01 (allocation_world (fun _ => 0)) = (Ret tt, w') /\
    message_log (mas w') = [broadcast_01] /\
    (message_queue <$> heap w' !! 0%nat) = Some [broadcast_01] /\
    (message_queue <$> heap w' !! 1%nat) = Some [] /\
    (message_queue <$> heap w' !! 2%nat) = Some [broadcast_01].
Proof.
  destruct (broadcast_delivery (allocation_world (fun _ => 0)) broadcast_01)
    as (w' & E & Hlog & _ & Hin & _).
  - exists (fun _ => 0), allocation_scenario. reflexivity.
  - reflexivity.
  - exists w'. split; [exact E |]. split; [exact Hlog |].
    rewrite (Hin 0%nat _ (or_introl eq_refl) eq_refl).
    rewrite (Hin 1%nat _ (or_intror (or_introl eq_refl)) eq_refl).
    rewrite (Hin 2%nat _ (or_intror (or_intror (or_introl eq_refl))) eq_refl).
    repeat split.
Defined.

(** ** Resource contention *)

Lemma select_spec p refs w :
  (forall r, In r refs -> is_Some (heap w !! r)) ->
  select p refs w = (Ret (List.filter (holds p w) refs), w).
Proof.
  induction refs as [| r refs IH]; intros Hlive; simpl; [reflexivity |].
  destruct (Hlive r (or_introl eq_refl)) as [a Ha].
  unfold bind, get_agent, holds. rewrite Ha.
  rewrite IH by (intros r' Hr'; apply Hlive; now right).
  destruct (p a); reflexivity.
Qed.

Lemma with_agents_spec w refs :
  (forall r, In r refs -> is_Some (heap w !! r)) ->
  map fst (with_agents w refs) = refs /\
  Forall (fun p => heap w !! fst p = Some (snd p)) (with_agents w refs).
Proof.
  induction refs as [| r refs IH]; intros Hlive; simpl.
  - split; constructor.
  - destruct (Hlive r (or_introl eq_refl)) as [a Ha]. rewrite Ha. simpl.
    destruct IH as (H1 & H3); [intros r' Hr'; apply Hlive; now right |].
    rewrite H1. split; [reflexivity |]. constructor; [exact Ha | exact H3].
Qed.

Lemma filter_agents p w refs :
  List.filter p (map snd (with_agents w refs)) =
  map snd (with_agents w (List.filter (holds p w) refs)).
Proof.
  induction refs as [| r refs IH]; simpl; [reflexivity |].
  unfold holds at 1. destruct (heap w !! r) as [a |] eqn:Ha; simpl; [| exact IH].
  destruct (p a); simpl; rewrite ?Ha, IH; reflexivity.
Qed.

Lemma requests_of_narration k ids :
  requests_of (charging_narration k ids) = map VStr ids.
Proof.
  revert k. induction ids as [| id ids IH]; intros k; simpl; [reflexivity |].
  destruct (0 <? k); simpl; rewrite IH; reflexivity.
Qed.

(** One iteration of the contention loop. *)
Lemma request_charging_step c r w ac a :
  r <> c -> heap w !! c = Some ac -> heap w !! r = Some a ->
  exists w1,
    request_charging c r w = (Ret tt, w1) /\ mas w1 = mas w /\
    if 0 <? available_stations ac then
      heap w1 = <[r := charged a]>
                  (<[c := set_available_stations (available_stations ac - 1) ac]> (heap w)) /\
      stdout w1 = stdout w ++ [OStationAllocated (VStr (agent_id a)); OCharged (agent_id a)]
    else
      heap w1 = heap w /\
      stdout w1 = stdout w ++ [ONoStation (VStr (agent_id a)); OWaiting (agent_id a)].
Proof.
  intros Hne Hc Hr.
  assert (Hlen : (r < length (heap w))%nat) by (eapply lookup_lt_Some, Hr).
  unfold request_charging, bind, get_agent. rewrite Hr. simpl.
  unfold with_self. rewrite Hc.
  unfold handle_resource_request, bind, get_self, modify_self, print_l, ret. simpl.
  destruct (0 <? available_stations ac) eqn:Hav; simpl.
  - unfold modify_agent, bind, get_agent, print. simpl.
    rewrite list_lookup_insert_ne by congruence. rewrite Hr. simpl.
    rewrite list_lookup_insert_eq by (rewrite length_insert; exact Hlen). simpl.
    rewrite list_lookup_insert_eq by (rewrite !length_insert; exact Hlen). simpl.
    eexists. split; [reflexivity |]. simpl. split; [reflexivity |].
    split; [| rewrite <- app_assoc; reflexivity].
    rewrite list_insert_insert_eq. reflexivity.
  - unfold bind, get_agent, print. simpl.
    rewrite list_lookup_insert_ne by congruence. rewrite Hr. simpl.
    eexists. split; [reflexivity |]. simpl. split; [reflexivity |].
    split; [| rewrite <- app_assoc; reflexivity].
    destruct ac; simpl. apply list_insert_id. exact Hc.
Qed.

(** The whole loop, over agents [las] that are distinct, live and not the
    coordinator. *)
Lemma charging_loop c las :
  forall w ac,
    NoDup (map fst las) ->
    ~ In c (map fst las) ->
    heap w !! c = Some ac ->
    Forall (fun p => heap w !! fst p = Some (snd p)) las ->
    exists w',
      for_each (map fst las) (request_charging c) w = (Ret tt, w') /\
      stdout w' = stdout w ++
        charging_narration (available_stations ac) (map (fun p => agent_id (snd p)) las) /\
      (forall i r a, las !! i = Some (r, a) ->
         heap w' !! r =
         Some (if Z.of_nat i <? available_stations ac then charged a else a)) /\
      (forall r, ~ In r (map fst las) -> r <> c -> heap w' !! r = heap w !! r) /\
      mas w' = mas w.
Proof.
  induction las as [| [r a] las IH]; intros w ac Hnd Hc Hac Hall; simpl.
  - exists w. split; [reflexivity |]. split; [symmetry; apply app_nil_r |].
    split; [intros i r a Hi; discriminate |]. split; reflexivity.
  - simpl in Hnd, Hc. apply NoDup_cons in Hnd as [Hr Hnd].
    rewrite list_elem_of_In in Hr.
    apply Forall_cons in Hall as [Ha Hall]. simpl in Ha.
    assert (Hrc : r <> c) by (intros ->; apply Hc; now left).
    assert (Hc' : ~ In c (map fst las)) by (intros Hin; apply Hc; now right).
    destruct (request_charging_step c r w ac a Hrc Hac Ha) as (w1 & E1 & Hm1 & Hcase).
    assert (Hlenr : (r < length (heap w))%nat) by (eapply lookup_lt_Some, Ha).
    assert (Hlenc : (c < length (heap w))%nat) by (eapply lookup_lt_Some, Hac).
    unfold bind. rewrite E1.
    destruct (0 <? available_stations ac) eqn:Hav; destruct Hcase as [Hh1 Ho1].
    + set (ac1 := set_available_stations (available_stations ac - 1) ac) in *.
      assert (Hother : forall r', r' <> r -> r' <> c -> heap w1 !! r' = heap w !! r').
      { intros r' H1 H2. rewrite Hh1.
        rewrite list_lookup_insert_ne by congruence.
        apply list_lookup_insert_ne. congruence. }
      assert (Hac1 : heap w1 !! c = Some ac1).
      { rewrite Hh1. rewrite list_lookup_insert_ne by congruence.
        apply list_lookup_insert_eq. exact Hlenc. }
      assert (Hself : heap w1 !! r = Some (charged a)).
      { rewrite Hh1. apply list_lookup_insert_eq. rewrite length_insert. exact Hlenr. }
      destruct (IH w1 ac1 Hnd Hc' Hac1) as (w' & E' & Ho' & Hi' & Hout' & Hm').
      { apply Forall_forall. intros [r' a'] Hin. simpl.
        rewrite Forall_forall in Hall. specialize (Hall _ Hin). simpl in Hall.
        rewrite Hother; [exact Hall | |].
        - intros ->. apply Hr, in_map_iff. exists (r, a').
          split; [reflexivity | apply list_elem_of_In, Hin].
        - intros ->. apply Hc', in_map_iff. exists (c, a').
          split; [reflexivity | apply list_elem_of_In, Hin]. }
      exists w'. split; [exact E' |]. split; [| split; [| split]].
      * rewrite Ho', Ho1. simpl. rewrite <- app_assoc. reflexivity.
      * intros [| i] r0 a0 Hi.
        -- simpl in Hi. inversion Hi; subst r0 a0.
           change (Z.of_nat 0) with 0. rewrite Hav.
           rewrite Hout' by assumption. exact Hself.
        -- simpl in Hi. rewrite (Hi' i r0 a0 Hi). f_equal.
           replace (Z.of_nat (S i) <? available_stations ac)
             with (Z.of_nat i <? available_stations ac1); [reflexivity |].
           subst ac1. simpl.
           destruct (Z.ltb_spec (Z.of_nat i) (available_stations ac - 1));
             destruct (Z.ltb_spec (Z.of_nat (S i)) (available_stations ac));
             try reflexivity; lia.
      * intros r0 Hnin H0. rewrite Hout'; [| intros Hin; apply Hnin; now right | exact H0].
        apply Hother; [| exact H0]. intros ->. apply Hnin. now left.
      * congruence.
    + assert (Hac1 : heap w1 !! c = Some ac) by (rewrite Hh1; exact Hac).
      destruct (IH w1 ac Hnd Hc' Hac1) as (w' & E' & Ho' & Hi' & Hout' & Hm').
      { rewrite Hh1. exact Hall. }
      exists w'. split; [exact E' |]. split; [| split; [| split]].
      * rewrite Ho', Ho1. rewrite <- app_assoc. reflexivity.
      * pose proof Hav as Hav'. apply Z.ltb_ge in Hav'.
        intros [| i] r0 a0 Hi.
        -- simpl in Hi. inversion Hi; subst r0 a0.
           change (Z.of_nat 0) with 0. rewrite Hav.
           rewrite Hout' by assumption. rewrite Hh1. exact Ha.
        -- simpl in Hi. rewrite (Hi' i r0 a0 Hi). f_equal.
           destruct (Z.ltb_spec (Z.of_nat i) (available_stations ac));
             destruct (Z.ltb_spec (Z.of_nat (S i)) (available_stations ac));
             try reflexivity; lia.
      * intros r0 Hnin H0. rewrite Hout'; [| intros Hin; apply Hnin; now right | exact H0].
        rewrite Hh1. reflexivity.
      * congruence.
Qed.

Lemma lookup_paired w (las : list (ref * Agent)) i r a :
  Forall (fun p => heap w !! fst p = Some (snd p)) las ->
  map fst las !! i = Some r -> heap w !! r = Some a ->
  las !! i = Some (r, a).
Proof.
  intros Hall Hi Ha.
  change (map fst las) with (fst <$> las) in Hi.
  rewrite list_lookup_fmap in Hi.
  destruct (las !! i) as [[r' a'] |] eqn:E; simpl in Hi; [| discriminate].
  inversion Hi; subst r'.
  rewrite Forall_lookup in Hall. specialize (Hall i _ E). simpl in Hall.
  congruence.
Qed.

(** The contention pass in a well-formed world with a coordinator. *)
Lemma competition_pass w c ac :
  world_wf w -> coordinator (mas w) = Some c -> heap w !! c = Some ac ->
  exists w' new,
    simulate_resource_competition w = (Ret tt, w') /\
    stdout w' = stdout w ++ new /\
    requests_of new = expected_requests 30 w /\
    (forall i r a, low_battery_refs w !! i = Some r -> heap w !! r = Some a ->
       heap w' !! r =
       Some (if Z.of_nat i <? available_stations ac then charged a else a)) /\
    (forall r, ~ In r (low_battery_refs w) -> r <> c -> heap w' !! r = heap w !! r).
Proof.
  intros Hwf Hco Hac.
  assert (Hlive : forall r, In r (dict_values (agents (mas w))) -> is_Some (heap w !! r))
    by (intros r; apply wf_values_live, Hwf).
  assert (Hexp : expected_requests 30 w =
                 map (fun p => VStr (agent_id (snd p)))
                   (with_agents w (low_battery_refs w))).
  { unfold expected_requests, agents_of, low_battery_refs.
    change (fun a => (battery_level a <? 30) && negb (AgentClass_eqb (cls a) CoordinatorCls))
      with needs_charging.
    rewrite filter_agents, map_map. reflexivity. }
  unfold simulate_resource_competition, bind, get_mas. simpl.
  rewrite select_spec by exact Hlive. fold (low_battery_refs w). rewrite Hco.
  assert (Hlow_live : forall r, In r (low_battery_refs w) -> is_Some (heap w !! r)).
  { intros r Hr. apply Hlive. unfold low_battery_refs in Hr.
    apply filter_In in Hr as [Hr _]. exact Hr. }
  destruct (with_agents_spec w (low_battery_refs w) Hlow_live) as [Hfst Hall].
  destruct (low_battery_refs w) as [| r0 rest] eqn:Elow.
  - exists w, []. simpl in Hexp. rewrite Hexp.
    split; [reflexivity |]. split; [symmetry; apply app_nil_r |].
    split; [reflexivity |]. split; [intros i r a Hi; discriminate | reflexivity].
  - rewrite <- Elow in *. clear Elow r0 rest.
    set (las := with_agents w (low_battery_refs w)) in *.
    unfold print. simpl.
    set (wp := set_stdout _ w).
    destruct (charging_loop c las wp ac) as (w' & E & Ho & Hi & Hout & Hm).
    + rewrite Hfst. unfold low_battery_refs.
      apply NoDup_ListNoDup, List.NoDup_filter, NoDup_ListNoDup.
      apply wf_values_NoDup, Hwf.
    + rewrite Hfst. unfold low_battery_refs. intros Hin.
      apply filter_In in Hin as [_ Hh]. unfold holds in Hh. rewrite Hac in Hh.
      destruct Hwf as (_ & _ & Hcw). destruct (Hcw c Hco) as (a & Ha & Hcls).
      assert (a = ac) by congruence. subst a.
      unfold needs_charging in Hh. rewrite Hcls in Hh. simpl in Hh.
      rewrite andb_false_r in Hh. discriminate.
    + exact Hac.
    + exact Hall.
    + rewrite Hfst in E, Hout.
      exists w', (OCompetition (Z.of_nat (length (low_battery_refs w))) ::
                    charging_narration (available_stations ac)
                      (map (fun p => agent_id (snd p)) las)).
      split; [exact E |]. split; [rewrite Ho; subst wp; simpl;
                                    rewrite <- app_assoc; reflexivity |].
      split; [simpl; rewrite requests_of_narration, Hexp, map_map; reflexivity |].
      split; [| exact Hout].
      intros i r a Hlow Ha. apply Hi.
      apply (lookup_paired w las i r a Hall); [rewrite Hfst; exact Hlow | exact Ha].
Qed.

(** Without a coordinator the pass does nothing. *)
Lemma competition_pass_no_coordinator w :
  world_wf w -> coordinator (mas w) = None ->
  simulate_resource_competition w = (Ret tt, w).
Proof.
  intros Hwf Hco. unfold simulate_resource_competition, bind, get_mas. simpl.
  rewrite select_spec by (intros r; apply wf_values_live, Hwf).
  rewrite Hco. destruct (List.filter _ _); reflexivity.
Qed.

#[global] Instance stays_charging_agent_rel : AgentRel stays_charging.
Proof. split; unfold stays_charging; auto. Qed.

Lemma charging_handle_pick_request request :
  lrespects stays_charging (handle_pick_request request).
Proof.
  intros [a o] Hch. simpl in Hch. unfold handle_pick_request.
  generalize (dict_get request "location" (VTuple 0 0)). intros location.
  destruct (dict_get request "items" (VList [])) eqn:Hitems.
  all: unfold py_len; simpl.
  all: run_local.
  all: try exact Hch.
  all: rewrite Hch in *; simpl in *; discriminate.
Qed.

Lemma charging_handle_transport_request request :
  lrespects stays_charging (handle_transport_request request).
Proof.
  intros [a o] Hch. simpl in Hch. unfold handle_transport_request.
  generalize (dict_get request "pickup_location" (VTuple 0 0)).
  generalize (dict_get request "delivery_location" (VTuple 10 10)).
  intros delivery pickup.
  destruct (dict_get request "item_count" (VInt 0)) eqn:Hcount.
  all: unfold py_int; simpl.
  all: run_local.
  all: try exact Hch.
  all: rewrite Hch in *; simpl in *; discriminate.
Qed.

Ltac charging_leaf :=
  first
    [ apply charging_handle_pick_request
    | apply charging_handle_transport_request
    | exact I
    | unfold stays_charging; intros; simpl;
        first [reflexivity | match goal with H : state _ = CHARGING |- _ => exact H end]
    | intros; apply heap_rel_same_heap; reflexivity ].

Lemma charging_run_op op :
  respects (heap_rel stays_charging any_agent) (run_op op).
Proof. destruct op; respects_tac charging_leaf. Qed.

(** C3, as the code has it.  In the contention pass of a reachable world
    with a coordinator, the agents collected as low on battery are served in
    order.  The agent in position [i] is granted a station when [i] is less
    than the number of stations available at the start of the pass: its
    state becomes [CHARGING] and its battery 100, nothing else of it
    changes, and no later call of the driver takes it out of [CHARGING]
    (the code has no transition back to idle).  An agent that is denied is
    unchanged. *)
Theorem charging_grant_effect (w : World) (c : ref) (ac : Agent) (i : nat)
    (r : ref) (a : Agent) (ops : list Op) :
  reachable w ->
  coordinator (mas w) = Some c ->
  heap w !! c = Some ac ->
  low_battery_refs w !! i = Some r ->
  heap w !! r = Some a ->
  exists w',
    simulate_resource_competition w = (Ret tt, w') /\
    (Z.of_nat i < available_stations ac ->
     heap w' !! r = Some (set_battery_level 100 (set_state CHARGING a)) /\
     (state <$> heap (exec ops w') !! r) = Some CHARGING) /\
    (available_stations ac <= Z.of_nat i -> heap w' !! r = Some a).
Proof.
  intros Hreach Hco Hac Hi Ha. apply reachable_wf in Hreach as Hwf.
  destruct (competition_pass w c ac Hwf Hco Hac) as (w' & new & E & _ & _ & Hlow & _).
  exists w'. split; [exact E |]. specialize (Hlow i r a Hi Ha). split.
  - intros Hlt. apply Z.ltb_lt in Hlt. rewrite Hlt in Hlow.
    split; [exact Hlow |].
    pose proof (respects_exec (R := heap_rel stays_charging any_agent) ops
                  (fun op _ => charging_run_op op) w') as Hrel.
    destruct (heap_rel_lookup _ _ _ _ _ _ Hrel Hlow) as (a2 & Ha2 & Hst).
    rewrite Ha2. simpl. f_equal. apply Hst. reflexivity.
  - intros Hge. apply Z.ltb_ge in Hge. rewrite Hge in Hlow. exact Hlow.
Qed.

Lemma charging_grant_effect_witness :
  exists w',
    simulate_resource_competition (drained_world 85) = (Ret tt, w') /\
    (state <$> heap w' !! 1%nat) = Some CHARGING /\
    (battery_level <$> heap w' !! 1%nat) = Some 100 /\
    (state <$> heap (exec [SimulateStep 1; ProcessOrder order_001] w') !! 1%nat) =
      Some CHARGING.
Proof.
  destruct (charging_grant_effect (drained_world 85) 0%nat
              (set_agent_registry [("PICKER_01", 1%nat); ("TRANSPORT_01", 2%nat)] coord_01)
              0%nat 1%nat
              (set_battery_level 15 picker_01)
              [SimulateStep 1; ProcessOrder order_001])
    as (w' & E & Hgrant & _).
  - exists (fun _ => 0), (allocation_scenario ++ [UpdateBattery 1%nat 85]). reflexivity.
  - reflexivity.
  - reflexivity.
  - reflexivity.
  - reflexivity.
  - destruct Hgrant as [Hh Hst]; [reflexivity |].
    exists w'. split; [exact E |]. rewrite Hh. repeat split. exact Hst.
Defined.

(** C3, as the specification states it, fails: the picker of the scenario,
    idle with battery 15, is granted a station; after the pass its battery
    is 100 but its state is [CHARGING], not idle, and it is still
    [CHARGING] after two more simulation steps. *)
Lemma granted_agent_not_idle :
  let w := drained_world 85 in
  let w' := snd (simulate_resource_competition w) in
  (state <$> heap w !! 1%nat) = Some IDLE /\
  (battery_level <$> heap w !! 1%nat) = Some 15 /\
  (battery_level <$> heap w' !! 1%nat) = Some 100 /\
  (state <$> heap w' !! 1%nat) = Some CHARGING /\
  (state <$> heap w' !! 1%nat) <> Some IDLE /\
  (state <$> heap (exec [SimulateStep 1; SimulateStep 1] w') !! 1%nat) = Some CHARGING.
Proof. vm_compute. repeat split; try reflexivity. discriminate. Qed.

(** C4, as the code has it.  In every reachable world the contention pass
    returns normally.  When the system has a coordinator, the coordinator
    answers exactly one charging request for each non-coordinator agent
    whose battery is below 30, in the iteration order of the system's agent
    dictionary, and none for any other agent; when it has none, no request
    is made. *)
Theorem charging_requests_issued (w : World) :
  reachable w ->
  exists w' new,
    simulate_resource_competition w = (Ret tt, w') /\
    stdout w' = stdout w ++ new /\
    requests_of new =
      match coordinator (mas w) with
      | Some _ => expected_requests 30 w
      | None => []
      end.
Proof.
  intros Hreach. apply reachable_wf in Hreach as Hwf.
  destruct (coordinator (mas w)) as [c |] eqn:Hco.
  - destruct Hwf as (Hnd & Hag & Hcw). destruct (Hcw c Hco) as (ac & Hac & _).
    destruct (competition_pass w c ac (conj Hnd (conj Hag Hcw)) Hco Hac)
      as (w' & new & E & Ho & Hreq & _).
    exists w', new. repeat split; assumption.
  - exists w, []. rewrite competition_pass_no_coordinator by assumption.
    repeat split. symmetry. apply app_nil_r.
Qed.

Lemma charging_requests_issued_witness :
  exists w' new,
    simulate_resource_competition (drained_world 75) = (Ret tt, w') /\
    stdout w' = stdout (drained_world 75) ++ new /\
    requests_of new = [VStr "PICKER_01"].
Proof.
  apply (charging_requests_issued (drained_world 75)).
  exists (fun _ => 0), (allocation_scenario ++ [UpdateBattery 1%nat 75]). reflexivity.
Defined.

(** C4, as the specification states it (threshold 20), fails: the picker of
    the scenario with battery 25 is not below 20, yet the pass issues a
    charging request for it. *)
Lemma request_issued_at_battery_25 :
  let w := drained_world 75 in
  let w' := snd (simulate_resource_competition w) in
  (battery_level <$> heap w !! 1%nat) = Some 25 /\
  expected_requests 20 w = [] /\
  requests_of (new_output (stdout w) w') = [VStr "PICKER_01"] /\
  requests_of (new_output (stdout w) w') <> expected_requests 20 w.
Proof. vm_compute. repeat split; try reflexivity. discriminate. Qed.

(** ** Draining the queue *)

Section NoFuel.

Context {S : Type}.

Lemma nf_ret {A} (a : A) : no_fuel (@ret S A a).
Proof. intros s. discriminate. Qed.

Lemma nf_raise {A} (e : Exn) : no_fuel (@raise S A e).
Proof. intros s. discriminate. Qed.

Lemma nf_bind {A B} (m : M S A) (k : A -> M S B) :
  no_fuel m -> (forall a, no_fuel (k a)) -> no_fuel (bind m k).
Proof.
  intros Hm Hk s. unfold bind. specialize (Hm s).
  destruct (m s) as [[a | e | | ] s1]; simpl in *;
    [apply Hk | discriminate | congruence | discriminate].
Qed.

Lemma nf_py_len v : no_fuel (@py_len S v).
Proof. intros s. destruct v; discriminate. Qed.

Lemma nf_py_int v : no_fuel (@py_int S v).
Proof. intros s. destruct v; discriminate. Qed.

Lemma nf_for_each {X} (l : list X) (body : X -> M S unit) :
  (forall x, no_fuel (body x)) -> no_fuel (for_each l body).
Proof.
  intros Hb. induction l as [| x l IH]; simpl.
  - apply nf_ret.
  - apply nf_bind; [apply Hb | intros _; exact IH].
Qed.

End NoFuel.

Lemma nf_get_self : no_fuel get_self.
Proof. intros s. discriminate. Qed.

Lemma nf_modify_self f : no_fuel (modify_self f).
Proof. intros s. discriminate. Qed.

Lemma nf_print_l o : no_fuel (print_l o).
Proof. intros s. discriminate. Qed.

Lemma nf_get_agent r : no_fuel (get_agent r).
Proof. intros w. unfold get_agent. destruct (heap w !! r); discriminate. Qed.

Lemma nf_modify_agent r f : no_fuel (modify_agent r f).
Proof. intros w. unfold modify_agent. destruct (heap w !! r); discriminate. Qed.

Lemma nf_get_mas : no_fuel get_mas.
Proof. intros w. discriminate. Qed.

Lemma nf_modify_mas f : no_fuel (modify_mas f).
Proof. intros w. discriminate. Qed.

Lemma nf_print o : no_fuel (print o).
Proof. intros w. discriminate. Qed.

Lemma nf_randint lo hi : no_fuel (randint lo hi).
Proof. intros w. discriminate. Qed.

Lemma nf_with_self {A} r (m : M Local A) : no_fuel m -> no_fuel (with_self r m).
Proof.
  intros Hm w. unfold with_self. destruct (heap w !! r) as [a |]; [| discriminate].
  specialize (Hm (mkLocal a (stdout w))).
  destruct (m (mkLocal a (stdout w))) as [res l]. exact Hm.
Qed.

Lemma nf_select p refs : no_fuel (select p refs).
Proof.
  induction refs as [| r refs IH]; simpl; [apply nf_ret |].
  apply nf_bind; [apply nf_get_agent | intros a].
  apply nf_bind; [exact IH | intros rest; apply nf_ret].
Qed.

Ltac no_fuel_tac :=
  repeat first
    [ apply nf_ret | apply nf_raise | apply nf_get_self | apply nf_modify_self
    | apply nf_print_l | apply nf_py_len | apply nf_py_int | apply nf_get_agent
    | apply nf_modify_agent | apply nf_get_mas | apply nf_modify_mas
    | apply nf_print | apply nf_randint | apply nf_select
    | apply nf_with_self
    | apply nf_for_each; intro
    | apply nf_bind; [| intro]
    | match goal with
      | |- no_fuel (if ?b then _ else _) => destruct b
      | |- no_fuel (match ?x with _ => _ end) => destruct x
      end
    | progress (autounfold with model; cbv zeta) ].

(** The handlers of the repository use no fuel, do not touch any queue and
    do not touch the history. *)
Lemma nf_handle_message r m : no_fuel (handle_message r m).
Proof. no_fuel_tac. Qed.

Lemma quiet_handle_message r m :
  respects (rel_and (heap_rel (keeps message_queue) any_agent) (wkeeps dispatched))
    (handle_message r m).
Proof. respects_tac frame_leaf. Qed.

Lemma receive_message_appends m a o :
  receive_message m (mkLocal a o) =
    (Ret tt,
     mkLocal (incr_messages_received (set_message_queue (message_queue a ++ [m]) a))
       (o ++ [OReceived (agent_id a) (message_type m) (sender_id m)])).
Proof. reflexivity. Qed.

Lemma drain_repository fuel :
  forall r w a,
    heap w !! r = Some a ->
    (length (message_queue a) < fuel)%nat ->
    exists res w' a' done,
      process_messages fuel r w = (res, w') /\
      res <> NoFuel /\
      heap w' !! r = Some a' /\
      dispatched w' = dispatched w ++ map (pair r) done /\
      done ++ message_queue a' = message_queue a /\
      (res = Ret tt -> message_queue a' = [] /\ done = message_queue a).
Proof.
  unfold process_messages.
  induction fuel as [| fuel IH]; intros r w a Ha Hlen; [lia |].
  simpl. unfold bind at 1. unfold get_agent. rewrite Ha.
  destruct (message_queue a) as [| m rest] eqn:Eq.
  - exists (Ret tt), w, a, []. simpl. rewrite app_nil_r.
    repeat split; try reflexivity; try assumption. discriminate.
  - unfold bind at 1. unfold modify_agent. rewrite Ha.
    set (w1 := set_heap _ w).
    unfold bind at 1. unfold note_dispatch.
    set (w2 := set_dispatched _ w1).
    assert (H2 : heap w2 !! r = Some (set_message_queue rest a)).
    { subst w2 w1. simpl. apply list_lookup_insert_eq. eapply lookup_lt_Some, Ha. }
    destruct (quiet_handle_message r m w2) as [Hq Hd].
    destruct (heap_rel_lookup _ _ _ _ _ _ Hq H2) as (a3 & H3 & Hk).
    unfold keeps in Hk. simpl in Hk. unfold wkeeps in Hd.
    pose proof (nf_handle_message r m w2) as Hnf.
    unfold bind. destruct (handle_message r m w2) as [res3 w3] eqn:E3.
    simpl in H3, Hd, Hnf.
    assert (Hd3 : dispatched w3 = dispatched w ++ [(r, m)]).
    { rewrite Hd. subst w2 w1. reflexivity. }
    destruct res3 as [[] | e | |].
    + simpl in Hlen.
      destruct (IH r w3 a3 H3) as (res & w' & a' & done & E & Hres & Ha' & Hdis & Hcat & Hret);
        [rewrite Hk; lia |].
      exists res, w', a', (m :: done). split; [exact E |]. split; [exact Hres |].
      split; [exact Ha' |]. split; [| split].
      * rewrite Hdis, Hd3. simpl. rewrite <- app_assoc. reflexivity.
      * simpl. rewrite Hcat, Hk. reflexivity.
      * intros Hr. destruct (Hret Hr) as [Hnil Hdone]. split; [exact Hnil |].
        rewrite Hdone, Hk. reflexivity.
    + exists (Raise e), w3, a3, [m]. split; [reflexivity |]. split; [discriminate |].
      split; [exact H3 |]. split; [exact Hd3 |].
      split; [simpl; rewrite Hk; reflexivity | intros; discriminate].
    + contradiction.
    + exists BadRef, w3, a3, [m]. split; [reflexivity |]. split; [discriminate |].
      split; [exact H3 |]. split; [exact Hd3 |].
      split; [simpl; rewrite Hk; reflexivity | intros; discriminate].
Qed.

Lemma take_front_cons r w a m rest :
  heap w !! r = Some a ->
  message_queue a = m :: rest ->
  take_front r w = modify_agent r (set_message_queue rest) w.
Proof.
  intros Ha Eq. unfold take_front, modify_agent. rewrite Ha, Eq. reflexivity.
Qed.

(** The world in which the handler is called on [m]: [m] has left the
    queue of [r] and the call is on record. *)
Lemma dispatch_in_order_cons handler r w a m rest q :
  heap w !! r = Some a ->
  message_queue a = m :: rest ->
  dispatch_in_order handler r (m :: q) w =
    match handler r m
            (set_dispatched (dispatched w ++ [(r, m)])
               (set_heap (<[r := set_message_queue rest a]> (heap w)) w)) with
    | (Ret _, w3) => dispatch_in_order handler r q w3
    | (Raise e, w3) => (Raise e, w3)
    | (NoFuel, w3) => (NoFuel, w3)
    | (BadRef, w3) => (BadRef, w3)
    end.
Proof.
  intros Ha Eq. simpl. unfold bind at 1.
  rewrite (take_front_cons r w a m rest Ha Eq).
  unfold modify_agent. rewrite Ha.
  unfold bind at 1. unfold note_dispatch. unfold bind at 1.
  destruct (handler r m _) as [[[] | e | |] w3]; reflexivity.
Qed.

Lemma process_messages_cons handler fuel r w a m rest :
  heap w !! r = Some a ->
  message_queue a = m :: rest ->
  process_messages_with handler (S fuel) r w =
    match handler r m
            (set_dispatched (dispatched w ++ [(r, m)])
               (set_heap (<[r := set_message_queue rest a]> (heap w)) w)) with
    | (Ret _, w3) => process_messages_with handler fuel r w3
    | (Raise e, w3) => (Raise e, w3)
    | (NoFuel, w3) => (NoFuel, w3)
    | (BadRef, w3) => (BadRef, w3)
    end.
Proof.
  intros Ha Eq. simpl. unfold bind at 1. unfold get_agent. rewrite Ha, Eq.
  unfold bind at 1. unfold modify_agent. rewrite Ha.
  unfold bind at 1. unfold note_dispatch. unfold bind at 1.
  destruct (handler r m _) as [[[] | e | |] w3]; reflexivity.
Qed.

(** With the handlers of the repository the drain is the dispatch, in
    order, of the messages queued at its start. *)
Lemma drain_in_order fuel :
  forall r w a,
    heap w !! r = Some a ->
    (length (message_queue a) < fuel)%nat ->
    process_messages fuel r w =
      dispatch_in_order handle_message r (message_queue a) w.
Proof.
  unfold process_messages.
  induction fuel as [| fuel IH]; intros r w a Ha Hlen; [lia |].
  destruct (message_queue a) as [| m rest] eqn:Eq.
  - simpl. unfold bind, get_agent. rewrite Ha, Eq. reflexivity.
  - rewrite (process_messages_cons _ fuel r w a m rest Ha Eq).
    rewrite (dispatch_in_order_cons _ r w a m rest rest Ha Eq).
    set (w2 := set_dispatched _ _).
    assert (H2 : heap w2 !! r = Some (set_message_queue rest a)).
    { subst w2. simpl. apply list_lookup_insert_eq. eapply lookup_lt_Some, Ha. }
    destruct (quiet_handle_message r m w2) as [Hq _].
    destruct (heap_rel_lookup _ _ _ _ _ _ Hq H2) as (a3 & H3 & Hk).
    unfold keeps in Hk. simpl in Hk.
    destruct (handle_message r m w2) as [res3 w3].
    simpl in H3.
    destruct res3 as [[] | e | |]; try reflexivity.
    rewrite <- Hk. apply IH; [exact H3 |]. rewrite Hk. simpl in Hlen. lia.
Qed.

Section GenericDrain.

Variable handler : ref -> Message -> M World unit.
Variable r : ref.
Hypothesis handler_appends : appends_only handler r.

Lemma drain_generic fuel :
  forall w a res w',
    heap w !! r = Some a ->
    process_messages_with handler fuel r w = (res, w') ->
    exists a' done,
      heap w' !! r = Some a' /\
      dispatched w' = dispatched w ++ map (pair r) done /\
      message_queue a `prefix_of` (done ++ message_queue a') /\
      (res = Ret tt -> message_queue a' = []).
Proof.
  induction fuel as [| fuel IH]; intros w a res w' Ha E; simpl in E.
  - inversion E; subst. exists a, []. rewrite app_nil_r.
    repeat split; try reflexivity; try assumption. discriminate.
  - unfold bind at 1 in E. unfold get_agent in E. rewrite Ha in E.
    destruct (message_queue a) as [| m rest] eqn:Eq.
    + inversion E; subst. exists a, []. rewrite app_nil_r, Eq.
      repeat split; try reflexivity; assumption.
    + unfold bind at 1 in E. unfold modify_agent in E. rewrite Ha in E.
      set (w1 := set_heap _ w) in E.
      unfold bind at 1 in E. unfold note_dispatch in E.
      set (w2 := set_dispatched _ w1) in E.
      assert (H2 : heap w2 !! r = Some (set_message_queue rest a)).
      { subst w2 w1. simpl. apply list_lookup_insert_eq. eapply lookup_lt_Some, Ha. }
      destruct (handler_appends m w2 _ H2) as (a3 & H3 & Hpre & Hd).
      simpl in Hpre.
      unfold bind in E. destruct (handler r m w2) as [res3 w3] eqn:E3.
      simpl in H3, Hd.
      assert (Hd3 : dispatched w3 = dispatched w ++ [(r, m)]).
      { rewrite Hd. subst w2 w1. reflexivity. }
      destruct res3 as [[] | e | |].
      * destruct (IH w3 a3 res w' H3 E) as (a' & done & Ha' & Hdis & Hp & Hret).
        exists a', (m :: done). split; [exact Ha' |]. split; [| split].
        -- rewrite Hdis, Hd3. simpl. rewrite <- app_assoc. reflexivity.
        -- simpl. apply prefix_cons. etransitivity; eassumption.
        -- exact Hret.
      * inversion E; subst. exists a3, [m]. repeat split; try assumption.
        -- simpl. apply prefix_cons. exact Hpre.
        -- discriminate.
      * inversion E; subst. exists a3, [m]. repeat split; try assumption.
        -- simpl. apply prefix_cons. exact Hpre.
        -- discriminate.
      * inversion E; subst. exists a3, [m]. repeat split; try assumption.
        -- simpl. apply prefix_cons. exact Hpre.
        -- discriminate.
Qed.

(** Whatever the outcome: the pass is the dispatch, in order, of a list
    [done] of messages, cut by the bound when [fuel] messages were
    dispatched; [done] and what is left in the queue make up the messages
    queued at the start followed by those that arrived during the pass. *)
Lemma drain_generic_exact fuel :
  forall w a,
    heap w !! r = Some a ->
    exists done late a',
      process_messages_with handler fuel r w =
        (dispatch_in_order handler r done >>>
         fuel_check (length done =? fuel)%nat) w /\
      heap (snd (process_messages_with handler fuel r w)) !! r = Some a' /\
      dispatched (snd (process_messages_with handler fuel r w)) =
        dispatched w ++ map (pair r) done /\
      done ++ message_queue a' = message_queue a ++ late /\
      (fst (process_messages_with handler fuel r w) = Ret tt ->
       message_queue a' = []).
Proof.
  induction fuel as [| fuel IH]; intros w a Ha.
  - exists [], [], a. simpl. rewrite !app_nil_r.
    repeat split; try reflexivity; try assumption. discriminate.
  - destruct (message_queue a) as [| m rest] eqn:Eq.
    + assert (E : process_messages_with handler (S fuel) r w = (Ret tt, w)).
      { simpl. unfold bind, get_agent. rewrite Ha, Eq. reflexivity. }
      rewrite E. exists [], [], a. simpl. rewrite Eq, app_nil_r.
      repeat split; try reflexivity; assumption.
    + rewrite (process_messages_cons handler fuel r w a m rest Ha Eq).
      assert (Hrun : forall done,
                (dispatch_in_order handler r (m :: done) >>>
                 fuel_check (length (m :: done) =? S fuel)%nat) w =
                match handler r m
                        (set_dispatched (dispatched w ++ [(r, m)])
                           (set_heap (<[r := set_message_queue rest a]> (heap w)) w)) with
                | (Ret _, w3) =>
                    (dispatch_in_order handler r done >>>
                     fuel_check (length done =? fuel)%nat) w3
                | (Raise e, w3) => (Raise e, w3)
                | (NoFuel, w3) => (NoFuel, w3)
                | (BadRef, w3) => (BadRef, w3)
                end).
      { intros done. unfold bind at 1.
        rewrite (dispatch_in_order_cons handler r w a m rest done Ha Eq).
        destruct (handler r m _) as [[[] | e | |] w3]; reflexivity. }
      set (w2 := set_dispatched _ _) in *.
      assert (H2 : heap w2 !! r = Some (set_message_queue rest a)).
      { subst w2. simpl. apply list_lookup_insert_eq. eapply lookup_lt_Some, Ha. }
      destruct (handler_appends m w2 _ H2) as (a3 & H3 & [late1 Hpre] & Hd).
      simpl in Hpre.
      destruct (handler r m w2) as [res3 w3] eqn:E3.
      simpl in H3, Hd.
      assert (Hd3 : dispatched w3 = dispatched w ++ [(r, m)]).
      { rewrite Hd. subst w2. reflexivity. }
      destruct res3 as [[] | e | |].
      * destruct (IH w3 a3 H3) as (done & late & a' & Hrun' & Ha' & Hdis & Hcat & Hret).
        exists (m :: done), (late1 ++ late), a'.
        split; [rewrite Hrun; exact Hrun' |]. split; [exact Ha' |].
        split; [rewrite Hdis, Hd3; simpl; rewrite <- app_assoc; reflexivity |].
        split; [| exact Hret].
        simpl. rewrite Hcat, Hpre, app_assoc. reflexivity.
      * exists [m], late1, a3.
        split; [rewrite Hrun; reflexivity |]. split; [exact H3 |].
        split; [exact Hd3 |]. split; [simpl; rewrite Hpre; reflexivity | discriminate].
      * exists [m], late1, a3.
        split; [rewrite Hrun; reflexivity |]. split; [exact H3 |].
        split; [exact Hd3 |]. split; [simpl; rewrite Hpre; reflexivity | discriminate].
      * exists [m], late1, a3.
        split; [rewrite Hrun; reflexivity |]. split; [exact H3 |].
        split; [exact Hd3 |]. split; [simpl; rewrite Hpre; reflexivity | discriminate].
Qed.

End GenericDrain.

Lemma echoing_handler_appends r : appends_only echoing_handler r.
Proof.
  intros m w a Ha. unfold echoing_handler.
  destruct (timestamp m =? 1).
  - unfold with_self. rewrite Ha. simpl.
    rewrite list_lookup_insert_eq by (eapply lookup_lt_Some, Ha).
    eexists. split; [reflexivity |]. simpl. split; [| reflexivity].
    apply prefix_app_r. reflexivity.
  - simpl. exists a. repeat split; [exact Ha | reflexivity].
Qed.

Lemma nf_dispatch_in_order handler r q :
  (forall m, no_fuel (handler r m)) -> no_fuel (dispatch_in_order handler r q).
Proof.
  intros Hnf. induction q as [| m rest IH]; simpl; [apply nf_ret |].
  apply nf_bind; [apply nf_modify_agent | intros _].
  apply nf_bind; [intros s; discriminate | intros _].
  apply nf_bind; [apply Hnf | intros _; exact IH].
Qed.



(** The two runs of the witness, computed: three notes are handled in the
    order they were routed, and the note sent while the first one is handled
    is handled in the same drain, after the three. *)
Example drain_three_notes :
  process_messages 4 1%nat noted_world =
    (Ret tt, snd (process_messages 4 1%nat noted_world)) /\
  dispatched (snd (process_messages 4 1%nat noted_world)) =
    [(1%nat, note 1); (1%nat, note 2); (1%nat, note 3)] /\
  dispatched (snd (process_messages_with echoing_handler 5 1%nat noted_world)) =
    [(1%nat, note 1); (1%nat, note 2); (1%nat, note 3); (1%nat, note 4)] /\
  queue_of 1%nat (snd (process_messages_with echoing_handler 5 1%nat noted_world)) = [] /\
  fst (process_messages_with echoing_handler 5 1%nat noted_world) = Ret tt.
Proof. vm_compute. repeat split. Qed.

(** ** Registration *)

Lemma registry_run_op op :
  (forall r, op <> AddAgent r) -> respects registry_rel (run_op op).
Proof.
  unfold registry_rel. intros Hop.
  destruct op; try solve [respects_tac frame_leaf].
  exfalso. eapply Hop. reflexivity.
Qed.

#[global] Instance registers_only_agent_rel r : AgentRel (registers_only r).
Proof.
  split; unfold registers_only.
  - intros a x Hx. now right.
  - intros a1 a2 a3 H1 H2 x Hx. destruct (H2 x Hx) as [-> | Hx2]; [now left |].
    apply H1, Hx2.
Qed.

#[global] Instance registers_only_closed r :
  Closed (registers_only r) (registry_within r).
Proof.
  unfold Closed, registers_only, registry_within. intros a a' Ha Hs x Hx.
  destruct (Hs x Hx) as [-> | Hx']; [reflexivity | apply Ha, Hx'].
Qed.

Ltac registers_leaf :=
  first
    [ intros; apply heap_rel_same_heap; reflexivity
    | unfold registers_only; intros; simpl in *;
        first [ right; assumption
              | match goal with
                | H : In _ (dict_values (dict_set _ _ _)) |- _ =>
                    apply dict_set_values in H; exact H
                end ] ].

Lemma registers_add_agent r :
  respects (heap_rel (registers_only r) (registry_within r)) (add_agent r).
Proof. respects_tac registers_leaf. Qed.

Lemma add_agent_no_coordinator r w :
  coordinator (mas (snd (add_agent r w))) = None -> heap (snd (add_agent r w)) = heap w.
Proof.
  destruct (heap w !! r) as [a |] eqn:Hr;
    [| rewrite add_agent_missing by exact Hr; reflexivity].
  pose proof (add_agent_roster r w a Hr) as Hro. unfold roster in Hro.
  inversion Hro as [[Ha Hc]]. rewrite Hc. clear Ha Hc Hro.
  unfold add_agent, bind, get_agent. rewrite Hr. simpl.
  destruct (AgentClass_eqb (cls a) CoordinatorCls); [discriminate |].
  intros Hco. simpl. rewrite Hco. reflexivity.
Qed.

Lemma op_cases op : (exists r, op = AddAgent r) \/ (forall r, op <> AddAgent r).
Proof.
  destruct op; first [left; eexists; reflexivity | right; intros ? ?; discriminate].
Qed.

(** While the system has no coordinator, every registry is empty. *)
Lemma no_coordinator_no_registry rnd ops :
  coordinator (mas (exec ops (MultiAgentSystem_init rnd))) = None ->
  forall c a, heap (exec ops (MultiAgentSystem_init rnd)) !! c = Some a ->
              agent_registry a = [].
Proof.
  induction ops as [| op ops IH] using rev_ind.
  - intros _ c a Hc. simpl in Hc. discriminate.
  - unfold exec in *. rewrite fold_left_app. simpl.
    set (w := fold_left _ ops _) in *.
    intros Hco c a Hc.
    destruct (op_cases op) as [[r ->] | Hne].
    + simpl in *. rewrite add_agent_no_coordinator in Hc by exact Hco.
      refine (IH _ c a Hc).
      destruct (heap w !! r) as [a0 |] eqn:Hr;
        [| rewrite add_agent_missing in Hco by exact Hr; exact Hco].
      pose proof (add_agent_roster r w a0 Hr) as Hro. unfold roster in Hro.
      inversion Hro as [[Ha Hcc]]. rewrite Hcc in Hco.
      destruct (AgentClass_eqb (cls a0) CoordinatorCls); [discriminate | exact Hco].
    + destruct (identity_run_op op Hne w) as [_ Hro]. unfold wkeeps, roster in Hro.
      inversion Hro as [[Ha Hcc]]. rewrite Hcc in Hco.
      destruct (registry_run_op op Hne w) as [_ Hreg].
      specialize (Hreg c a Hc).
      destruct (heap w !! c) as [a0 |] eqn:E0; [| exact Hreg].
      unfold keeps in Hreg. rewrite Hreg. apply (IH Hco c a0 E0).
Qed.

(** An address that no later [add_agent] names stays out of all registries. *)
Lemma stays_unregistered p ops :
  ~ In (AddAgent p) ops ->
  forall w,
    (forall c a, heap w !! c = Some a -> ~ In p (dict_values (agent_registry a))) ->
    forall c a, heap (exec ops w) !! c = Some a ->
                ~ In p (dict_values (agent_registry a)).
Proof.
  unfold exec. induction ops as [| op ops IH]; intros Hnot w Hw; simpl.
  - exact Hw.
  - apply IH; [intros Hin; apply Hnot; now right |].
    intros c a Hc Hin.
    destruct (op_cases op) as [[r ->] | Hne].
    + assert (Hrp : r <> p) by (intros ->; apply Hnot; now left).
      destruct (registers_add_agent r w) as [_ Hreg]. specialize (Hreg c a Hc).
      destruct (heap w !! c) as [a0 |] eqn:E0.
      * destruct (Hreg p Hin) as [-> | Hin0]; [congruence |].
        apply (Hw c a0 E0 Hin0).
      * apply Hrp. symmetry. apply Hreg, Hin.
    + destruct (registry_run_op op Hne w) as [_ Hreg]. specialize (Hreg c a Hc).
      destruct (heap w !! c) as [a0 |] eqn:E0.
      * unfold keeps in Hreg. rewrite Hreg in Hin. apply (Hw c a0 E0 Hin).
      * rewrite Hreg in Hin. destruct Hin.
Qed.

#[global] Instance same_at_frame p : Frame (same_at p) never no_agent.
Proof.
  split; unfold same_at, never, no_agent; intros; simpl;
    first [reflexivity | congruence | contradiction].
Qed.

Lemma same_at_with_self {A} p r (m : M Local A) :
  r <> p -> respects (same_at p) (with_self r m).
Proof.
  intros Hne w. unfold with_self, same_at.
  destruct (heap w !! r) as [a |]; [| reflexivity].
  destruct (m (mkLocal a (stdout w))) as [res l]. simpl.
  apply list_lookup_insert_ne. exact Hne.
Qed.

Lemma select_outcome p refs w :
  (exists l, select p refs w = (Ret l, w) /\ forall x, In x l -> In x refs) \/
  select p refs w = (BadRef, w).
Proof.
  induction refs as [| r refs IH]; simpl.
  - left. exists []. split; [reflexivity | intros x []].
  - unfold bind, get_agent. destruct (heap w !! r) as [a |]; [| now right].
    destruct IH as [(l & -> & Hl) | ->]; [| now right].
    left. unfold ret. destruct (p a); eexists; (split; [reflexivity |]).
    + intros x [-> | Hx]; [now left | right; apply Hl, Hx].
    + intros x Hx. right. apply Hl, Hx.
Qed.

(** [allocate_tasks] changes no object outside the registry of the
    coordinator it is called on. *)
Lemma allocate_tasks_frame c order w a p :
  heap w !! c = Some a ->
  ~ In p (dict_values (agent_registry a)) ->
  heap (snd (allocate_tasks c order w)) !! p = heap w !! p.
Proof.
  intros Hc Hp. unfold allocate_tasks, bind at 1, get_agent. rewrite Hc.
  unfold bind at 1.
  destruct (select_outcome is_idle_picker (dict_values (agent_registry a)) w)
    as [(pickers & -> & Hpick) | ->]; [| reflexivity].
  unfold bind at 1.
  destruct (select_outcome is_idle_transporter (dict_values (agent_registry a)) w)
    as [(transporters & -> & Htrans) | ->]; [| reflexivity].
  destruct pickers as [| picker pickers]; [reflexivity |].
  destruct transporters as [| transporter transporters]; [reflexivity |].
  assert (Hpp : picker <> p) by (intros ->; apply Hp, Hpick; now left).
  assert (Htp : transporter <> p) by (intros ->; apply Hp, Htrans; now left).
  match goal with
  | |- heap (snd (?m w)) !! p = _ => change (same_at p w (snd (m w)))
  end.
  revert w Hc.
  match goal with
  | |- forall w, _ -> same_at p w (snd (?m w)) =>
      intros w _; revert w; change (respects (same_at p) m)
  end.
  repeat first
    [ apply respects_print | apply respects_randint | apply respects_get_agent
    | apply respects_py_len
    | apply same_at_with_self; assumption
    | apply respects_bind; [| intro] ].
Qed.

Lemma dict_lookup_NoDup {V} (d : list (string * V)) k v :
  NoDup (dict_keys d) -> In (k, v) d -> dict_lookup d k = Some v.
Proof.
  induction d as [| [k0 v0] d IH]; simpl; intros Hnd Hin; [destruct Hin |].
  apply NoDup_cons in Hnd as [Hk Hnd].
  destruct Hin as [E | Hin].
  - inversion E; subst. rewrite String.eqb_refl. reflexivity.
  - destruct (String.eqb k0 k) eqn:Ek; [| apply IH; assumption].
    apply String.eqb_eq in Ek. subst k0. exfalso. apply Hk.
    apply list_elem_of_In, in_map_iff. exists (k, v). split; [reflexivity | exact Hin].
Qed.

(** Delivery to an agent of the system, by broadcast and by name. *)
Lemma route_reaches w message p a :
  world_wf w ->
  In p (dict_values (agents (mas w))) ->
  heap w !! p = Some a ->
  agent_id a <> sender_id message ->
  receiver_id message = "ALL" \/ receiver_id message = agent_id a ->
  heap (snd (route_message message w)) !! p = Some (enqueued message a).
Proof.
  intros Hwf Hin Ha Hsender Hrecv.
  unfold route_message, bind, modify_mas, get_mas. simpl.
  set (wm := set_mas _ _).
  destruct (String.eqb (receiver_id message) "ALL") eqn:Eall.
  - destruct (broadcast_loop message (dict_values (agents (mas w))) wm) as
      (w' & E & Hdel & _ & _).
    + apply wf_values_NoDup, Hwf.
    + intros r Hr. apply (wf_values_live w r Hwf Hr).
    + rewrite E. simpl. rewrite (Hdel p a Hin Ha). unfold delivered.
      apply String.eqb_neq in Hsender. rewrite Hsender. reflexivity.
  - destruct Hrecv as [Hall | Hname];
      [rewrite Hall in Eall; simpl in Eall; discriminate |].
    destruct Hwf as (Hnd & Hag & _).
    apply in_map_iff in Hin as [[k p'] [Ep Hin]]. simpl in Ep. subst p'.
    destruct (Hag k p Hin) as (a' & Ha' & Hid).
    assert (a' = a) by congruence. subst a'.
    subst wm. simpl. rewrite Hname, Hid.
    rewrite (dict_lookup_NoDup _ _ _ Hnd Hin).
    unfold with_self. simpl. rewrite Ha. simpl.
    apply list_lookup_insert_eq. eapply lookup_lt_Some, Ha.
Qed.

(** C10.  Take any run of the driver up to a point where the system has no
    coordinator yet, and any continuation that does not call [add_agent]
    again on the agent at address [p].  Whatever coordinators are created
    and added later, [p] is in no agent's registry; hence no call of
    [allocate_tasks] changes [p], whichever coordinator it is made on.  If
    [p] is in the system's own agent dictionary, it still gets the messages
    routed to it, both broadcasts from others and messages sent to it by
    name. *)
Theorem unregistered_before_coordinator (rnd : nat -> Z) (ops1 ops2 : list Op)
    (p : ref) :
  coordinator (mas (exec ops1 (MultiAgentSystem_init rnd))) = None ->
  ~ In (AddAgent p) ops2 ->
  let w := exec ops2 (exec ops1 (MultiAgentSystem_init rnd)) in
  (forall c a, heap w !! c = Some a -> ~ In p (dict_values (agent_registry a))) /\
  (forall c order, heap (snd (allocate_tasks c order w)) !! p = heap w !! p) /\
  (forall message a,
     In p (dict_values (agents (mas w))) ->
     heap w !! p = Some a ->
     agent_id a <> sender_id message ->
     receiver_id message = "ALL" \/ receiver_id message = agent_id a ->
     heap (snd (route_message message w)) !! p = Some (enqueued message a)).
Proof.
  intros Hnone Hnot w.
  assert (Hreg : forall c a, heap w !! c = Some a ->
                             ~ In p (dict_values (agent_registry a))).
  { subst w. apply stays_unregistered; [exact Hnot |].
    intros c a Hc. rewrite (no_coordinator_no_registry rnd ops1 Hnone c a Hc).
    intros []. }
  split; [exact Hreg |]. split.
  - intros c order. destruct (heap w !! c) as [a |] eqn:Hc.
    + apply (allocate_tasks_frame c order w a p Hc), (Hreg c a Hc).
    + unfold allocate_tasks, bind, get_agent. rewrite Hc. reflexivity.
  - intros message a Hin Ha Hs Hr. apply route_reaches; try assumption.
    apply reachable_wf. subst w. exists rnd, (ops1 ++ ops2).
    unfold exec. rewrite fold_left_app. reflexivity.
Qed.

Lemma unregistered_before_coordinator_witness :
  (forall c a, heap late_world !! c = Some a ->
               ~ In 0%nat (dict_values (agent_registry a))) /\
  (forall c order,
     heap (snd (allocate_tasks c order late_world)) !! 0%nat = heap late_world !! 0%nat) /\
  (forall message a,
     In 0%nat (dict_values (agents (mas late_world))) ->
     heap late_world !! 0%nat = Some a ->
     agent_id a <> sender_id message ->
     receiver_id message = "ALL" \/ receiver_id message = agent_id a ->
     heap (snd (route_message message late_world)) !! 0%nat = Some (enqueued message a)).
Proof.
  apply (unregistered_before_coordinator (fun _ => 0) early_picker late_coordinator 0%nat).
  - reflexivity.
  - intros [H | [H | [H | [H | []]]]]; discriminate.
Defined.

(** The run of the witness, computed: the picker added before the
    coordinator is in the system but not in the registry, an order finds no
    picker and is queued, and a broadcast reaches the picker. *)
Example early_picker_is_skipped :
  agents (mas late_world) = [("PICKER_01", 0%nat); ("COORD_01", 1%nat); ("TRANSPORT_01", 2%nat)] /\
  (agent_registry <$> heap late_world !! 1%nat) = Some [("TRANSPORT_01", 2%nat)] /\
  new_output (stdout late_world) (snd (allocate_tasks 1%nat order_001 late_world)) = [OQueuing] /\
  (message_queue <$> heap (snd (route_message broadcast_02 late_world)) !! 0%nat) =
    Some [broadcast_02].
Proof. vm_compute. repeat split. Qed.

(** ** Further properties of the agents *)

(** *** Gauges and counters *)

#[global] Instance battery_step_agent_rel : AgentRel battery_step.
Proof. split; unfold battery_step; auto. Qed.

#[global] Instance battery_step_closed : Closed battery_step battery_ok.
Proof. unfold Closed, battery_step. auto. Qed.

#[global] Instance battery_floor_agent_rel : AgentRel battery_floor_step.
Proof. split; unfold battery_floor_step; auto. Qed.

#[global] Instance battery_floor_closed :
  Closed battery_floor_step (fun a => 0 <= battery_level a).
Proof. unfold Closed, battery_floor_step. auto. Qed.

(** Run a handler symbolically, one payload value at a time. *)
Ltac run_pick request :=
  unfold handle_pick_request;
  generalize (dict_get request "location" (VTuple 0 0)); intros ?location;
  destruct (dict_get request "items" (VList [])) eqn:?Hitems;
  unfold py_len; simpl; run_local.

Ltac run_transport request :=
  unfold handle_transport_request;
  generalize (dict_get request "pickup_location" (VTuple 0 0));
  generalize (dict_get request "delivery_location" (VTuple 10 10));
  intros ?delivery ?pickup;
  destruct (dict_get request "item_count" (VInt 0)) eqn:?Hcount;
  unfold py_int; simpl; run_local.

Lemma battery_update_battery c : 0 <= c -> lrespects battery_step (update_battery c).
Proof.
  intros Hc [a o] Hok. unfold battery_step, battery_ok in *. run_local; simpl in *; lia.
Qed.

Lemma battery_handle_pick_request request :
  lrespects battery_step (handle_pick_request request).
Proof.
  intros [a o] Hok. unfold battery_ok in *. simpl in Hok.
  run_pick request; try exact Hok; unfold battery_ok; simpl; lia.
Qed.

Lemma battery_handle_transport_request request :
  lrespects battery_step (handle_transport_request request).
Proof.
  intros [a o] Hok. unfold battery_ok in *. simpl in Hok.
  run_transport request; try exact Hok; unfold battery_ok; simpl; lia.
Qed.

Ltac battery_leaf :=
  first
    [ apply battery_handle_pick_request
    | apply battery_handle_transport_request
    | apply battery_update_battery; assumption
    | intros; apply heap_rel_same_heap; reflexivity
    | unfold battery_step, battery_ok; intros; simpl in *; lia ].

Lemma battery_run_op op :
  (forall r c, op = UpdateBattery r c -> 0 <= c) ->
  respects (heap_rel battery_step battery_ok) (run_op op).
Proof.
  intros Hop. destruct op; try solve [respects_tac battery_leaf].
  specialize (Hop r consumption eq_refl). respects_tac battery_leaf.
Qed.

Lemma floor_update_battery c : lrespects battery_floor_step (update_battery c).
Proof.
  intros [a o] Hok. unfold battery_floor_step in *. run_local; simpl in *; lia.
Qed.

Lemma floor_handle_pick_request request :
  lrespects battery_floor_step (handle_pick_request request).
Proof.
  intros [a o] Hok. simpl in Hok.
  run_pick request; try exact Hok; simpl; lia.
Qed.

Lemma floor_handle_transport_request request :
  lrespects battery_floor_step (handle_transport_request request).
Proof.
  intros [a o] Hok. simpl in Hok.
  run_transport request; try exact Hok; simpl; lia.
Qed.

Ltac floor_leaf :=
  first
    [ apply floor_handle_pick_request
    | apply floor_handle_transport_request
    | apply floor_update_battery
    | intros; apply heap_rel_same_heap; reflexivity
    | unfold battery_floor_step; intros; simpl in *; lia ].

Lemma floor_run_op op :
  respects (heap_rel battery_floor_step (fun a => 0 <= battery_level a)) (run_op op).
Proof. destruct op; respects_tac floor_leaf. Qed.

(** X1.  The battery of an agent never goes below 0, whatever the driver
    does.  It stays at or below 100 as long as the driver only drains
    non-negative amounts: [update_battery] has no upper guard, and a
    negative consumption takes the gauge above 100. *)
Theorem battery_within_bounds (rnd : nat -> Z) (ops : list Op) (r : ref) (a : Agent) :
  heap (exec ops (MultiAgentSystem_init rnd)) !! r = Some a ->
  0 <= battery_level a /\
  ((forall r' c, In (UpdateBattery r' c) ops -> 0 <= c) -> battery_level a <= 100).
Proof.
  intros Hr. split.
  - pose proof (respects_exec
                  (R := heap_rel battery_floor_step (fun a => 0 <= battery_level a)) ops
                  (fun op _ => floor_run_op op) (MultiAgentSystem_init rnd)) as [_ H].
    specialize (H r a Hr). simpl in H. exact H.
  - intros Hpos.
    assert (Hops : forall op, In op ops ->
                     respects (heap_rel battery_step battery_ok) (run_op op)).
    { intros op Hin. apply battery_run_op. intros r' c ->. apply (Hpos r' c Hin). }
    pose proof (respects_exec (R := heap_rel battery_step battery_ok) ops Hops
                  (MultiAgentSystem_init rnd)) as [_ H].
    specialize (H r a Hr). simpl in H. apply H.
Qed.

Lemma battery_within_bounds_witness :
  0 <= 15 /\
  ((forall r' c, In (UpdateBattery r' c)
                   (allocation_scenario ++ [UpdateBattery 1%nat 85]) -> 0 <= c) ->
   15 <= 100).
Proof.
  apply (battery_within_bounds (fun _ => 0)
           (allocation_scenario ++ [UpdateBattery 1%nat 85]) 1%nat
           (set_battery_level 15 picker_01)).
  reflexivity.
Defined.

(** The upper bound does fail for a negative consumption. *)
Example battery_overcharged :
  (battery_level <$> heap (exec overcharge_ops (MultiAgentSystem_init (fun _ => 0))) !! 0%nat)
    = Some 200.
Proof. reflexivity. Qed.

#[global] Instance pool_shrinks_agent_rel : AgentRel pool_shrinks.
Proof. split; unfold pool_shrinks; intros; lia. Qed.

Ltac pool_leaf :=
  first
    [ exact I
    | intros; apply heap_rel_same_heap; reflexivity
    | unfold pool_shrinks; intros; simpl; lia ].

Lemma pool_run_op op : respects (heap_rel pool_shrinks any_agent) (run_op op).
Proof. destruct op; respects_tac pool_leaf. Qed.

(** X2.  Charging stations are never given back: over any sequence of
    driver calls, from any world, the number of available stations of a
    coordinator does not increase. *)
Theorem stations_never_released (w : World) (ops : list Op) (c : ref) (a : Agent) :
  heap w !! c = Some a ->
  exists a', heap (exec ops w) !! c = Some a' /\
             available_stations a' <= available_stations a.
Proof.
  intros Hc.
  pose proof (respects_exec (R := heap_rel pool_shrinks any_agent) ops
                (fun op _ => pool_run_op op) w) as Hrel.
  apply (heap_rel_lookup _ _ _ _ _ _ Hrel Hc).
Qed.

Lemma stations_never_released_witness :
  exists a', heap (exec [SimulateStep 1; SimulateStep 1] (drained_world 85)) !! 0%nat = Some a' /\
             available_stations a' <= 3.
Proof.
  apply (stations_never_released (drained_world 85) [SimulateStep 1; SimulateStep 1] 0%nat
           (set_agent_registry [("PICKER_01", 1%nat); ("TRANSPORT_01", 2%nat)] coord_01)).
  reflexivity.
Defined.

#[global] Instance load_grows_agent_rel : AgentRel load_grows.
Proof.
  split; unfold load_grows.
  - intros a. split; [reflexivity | lia].
  - intros a1 a2 a3 [Hc1 H1] [Hc2 H2]. split; [congruence |].
    intros Hp. specialize (H1 Hp). rewrite <- Hc1 in Hp. specialize (H2 Hp). lia.
Qed.

Lemma load_handle_pick_request request :
  lrespects load_grows (handle_pick_request request).
Proof.
  intros [a o]. split.
  - revert a o. assert (H : lrespects (keeps cls) (handle_pick_request request))
      by lrespects_tac frame_leaf.
    intros a o. apply (H (mkLocal a o)).
  - intros Hcls. simpl in Hcls. run_pick request; simpl; first [lia | congruence].
Qed.

Lemma load_handle_transport_request request :
  lrespects load_grows (handle_transport_request request).
Proof.
  intros [a o]. split.
  - revert a o. assert (H : lrespects (keeps cls) (handle_transport_request request))
      by lrespects_tac frame_leaf.
    intros a o. apply (H (mkLocal a o)).
  - intros Hcls. simpl in Hcls. run_transport request; simpl; first [lia | congruence].
Qed.

Ltac load_leaf :=
  first
    [ apply load_handle_pick_request
    | apply load_handle_transport_request
    | exact I
    | intros; apply heap_rel_same_heap; reflexivity
    | unfold load_grows; intros; simpl; split; [reflexivity | intros; lia] ].

Lemma load_run_op op : respects (heap_rel load_grows any_agent) (run_op op).
Proof. destruct op; respects_tac load_leaf. Qed.

(** X3.  A picker never unloads: over any sequence of driver calls, from any
    world, the load of a picker does not decrease (and it stays a
    picker). *)
Theorem picker_never_unloads (w : World) (ops : list Op) (r : ref) (a : Agent) :
  heap w !! r = Some a ->
  cls a = PickerCls ->
  exists a', heap (exec ops w) !! r = Some a' /\
             cls a' = PickerCls /\ current_load a <= current_load a'.
Proof.
  intros Hr Hcls.
  pose proof (respects_exec (R := heap_rel load_grows any_agent) ops
                (fun op _ => load_run_op op) w) as Hrel.
  destruct (heap_rel_lookup _ _ _ _ _ _ Hrel Hr) as (a' & Ha' & Hc & Hl).
  exists a'. split; [exact Ha' |]. split; [congruence | apply Hl, Hcls].
Qed.

Lemma picker_never_unloads_witness :
  exists a', heap (exec [ProcessOrder order_001; SimulateStep 1]
                     (allocation_world (fun _ => 0))) !! 1%nat = Some a' /\
             cls a' = PickerCls /\ 0 <= current_load a'.
Proof.
  apply (picker_never_unloads (allocation_world (fun _ => 0))
           [ProcessOrder order_001; SimulateStep 1] 1%nat picker_01);
    reflexivity.
Defined.

#[global] Instance stays_busy_agent_rel : AgentRel stays_busy.
Proof. split; unfold stays_busy; auto. Qed.

Lemma busy_handle_pick_request request :
  lrespects stays_busy (handle_pick_request request).
Proof.
  intros [a o] Hb. simpl in Hb.
  run_pick request; try exact Hb.
  all: exfalso; apply Hb;
    match goal with H : AgentState_eqb _ IDLE = true |- _ =>
      apply AgentState_eqb_eq in H; exact H end.
Qed.

Lemma busy_handle_transport_request request :
  lrespects stays_busy (handle_transport_request request).
Proof.
  intros [a o] Hb. simpl in Hb.
  run_transport request; try exact Hb.
  all: exfalso; apply Hb;
    match goal with H : AgentState_eqb _ IDLE = true |- _ =>
      apply AgentState_eqb_eq in H; exact H end.
Qed.

Ltac busy_leaf :=
  first
    [ apply busy_handle_pick_request
    | apply busy_handle_transport_request
    | exact I
    | intros; apply heap_rel_same_heap; reflexivity
    | unfold stays_busy; intros; simpl;
        first [ discriminate | match goal with H : state _ <> IDLE |- _ => exact H end ] ].

Lemma busy_run_op op : respects (heap_rel stays_busy any_agent) (run_op op).
Proof. destruct op; respects_tac busy_leaf. Qed.

(** X4.  An agent that is not idle between two driver calls never becomes
    idle again: the only assignments of [IDLE] end a pick or a transport,
    both of which start from an idle agent.  In particular a transporter
    left [WORKING] by a transport request, and any agent that was granted a
    charging station, are never selected by [allocate_tasks] again. *)
Theorem non_idle_is_final (w : World) (ops : list Op) (r : ref) (a : Agent) :
  heap w !! r = Some a ->
  state a <> IDLE ->
  exists a', heap (exec ops w) !! r = Some a' /\
             state a' <> IDLE /\
             is_idle_picker a' = false /\ is_idle_transporter a' = false.
Proof.
  intros Hr Hb.
  pose proof (respects_exec (R := heap_rel stays_busy any_agent) ops
                (fun op _ => busy_run_op op) w) as Hrel.
  destruct (heap_rel_lookup _ _ _ _ _ _ Hrel Hr) as (a' & Ha' & Hs).
  exists a'. split; [exact Ha' |]. specialize (Hs Hb). split; [exact Hs |].
  assert (E : AgentState_eqb (state a') IDLE = false).
  { destruct (AgentState_eqb (state a') IDLE) eqn:E; [| reflexivity].
    apply AgentState_eqb_eq in E. contradiction. }
  unfold is_idle_picker, is_idle_transporter. rewrite E, !andb_false_r. split; reflexivity.
Qed.

Lemma non_idle_is_final_witness :
  exists a', heap (exec [SimulateStep 1; ProcessOrder order_001]
                     (snd (allocate_tasks 0%nat order_001 (allocation_world (fun _ => 0)))))
               !! 2%nat = Some a' /\
             state a' <> IDLE /\
             is_idle_picker a' = false /\ is_idle_transporter a' = false.
Proof.
  apply (non_idle_is_final
           (snd (allocate_tasks 0%nat order_001 (allocation_world (fun _ => 0))))
           [SimulateStep 1; ProcessOrder order_001] 2%nat
           (set_current_task
              (Some [("pickup_location", VTuple 1 1);
                     ("delivery_location", VTuple 1 1);
                     ("item_count", VInt 3)])
              (set_state WORKING transport_01))).
  - vm_compute. reflexivity.
  - discriminate.
Defined.

(** *** Routing *)

Lemma dict_lookup_None {V} (d : list (string * V)) k :
  ~ In k (dict_keys d) -> dict_lookup d k = None.
Proof.
  induction d as [| [k0 v0] d IH]; simpl; intros Hk; [reflexivity |].
  destruct (String.eqb k0 k) eqn:Ek.
  - apply String.eqb_eq in Ek. exfalso. apply Hk. now left.
  - apply IH. intros Hin. apply Hk. now right.
Qed.

Lemma with_agents_In w refs r a :
  In r refs -> heap w !! r = Some a -> In a (map snd (with_agents w refs)).
Proof.
  induction refs as [| r0 refs IH]; simpl; intros Hin Ha; [destruct Hin |].
  destruct Hin as [-> | Hin].
  - rewrite Ha. now left.
  - destruct (heap w !! r0); [right |]; apply IH; assumption.
Qed.

(** What [route_message] does to the system object, in any world. *)
Lemma route_message_mas message w :
  mas (snd (route_message message w)) = logged message (mas w).
Proof.
  unfold route_message, bind at 1, modify_mas. unfold bind at 1.
  match goal with
  | |- mas (snd (?m ?w0)) = _ =>
      assert (H : respects (wkeeps mas) m) by respects_tac frame_leaf;
      rewrite (H w0)
  end.
  reflexivity.
Qed.

(** Routing to an agent of the system by name, in full. *)
Lemma route_by_name w message r a :
  world_wf w ->
  receiver_id message <> "ALL" ->
  In r (dict_values (agents (mas w))) ->
  heap w !! r = Some a ->
  agent_id a = receiver_id message ->
  route_message message w =
    (Ret tt,
     set_stdout
       (stdout w ++ [OReceived (agent_id a) (message_type message) (sender_id message)])
       (set_heap (<[r := enqueued message a]> (heap w))
          (set_mas (logged message (mas w)) w))).
Proof.
  intros (Hnd & Hag & _) Hall Hin Ha Hname.
  apply in_map_iff in Hin as [[k r'] [Er Hin]]. simpl in Er. subst r'.
  destruct (Hag k r Hin) as (a' & Ha' & Hid).
  assert (a' = a) by congruence. subst a'.
  assert (Hl : dict_lookup (agents (mas w)) (receiver_id message) = Some r).
  { rewrite <- Hname, Hid. apply dict_lookup_NoDup; assumption. }
  unfold route_message, bind, modify_mas, get_mas. simpl.
  apply String.eqb_neq in Hall. rewrite Hall, Hl.
  unfold with_self. simpl. rewrite Ha. reflexivity.
Qed.

(** Broadcast in a well-formed world. *)
Lemma route_broadcast w message :
  world_wf w ->
  receiver_id message = "ALL" ->
  exists w',
    route_message message w = (Ret tt, w') /\
    mas w' = logged message (mas w) /\
    (forall r a, In r (dict_values (agents (mas w))) -> heap w !! r = Some a ->
       heap w' !! r = Some (delivered message a)) /\
    (forall r, ~ In r (dict_values (agents (mas w))) -> heap w' !! r = heap w !! r).
Proof.
  intros Hwf Hall.
  unfold route_message, bind, modify_mas, get_mas. simpl. rewrite Hall. simpl.
  set (wm := set_mas _ _).
  destruct (broadcast_loop message (dict_values (agents (mas w))) wm) as
    (w' & E & Hin & Hout & Hm).
  - apply wf_values_NoDup, Hwf.
  - intros r Hr. apply (wf_values_live w r Hwf Hr).
  - exists w'. split; [exact E |]. split; [rewrite Hm; reflexivity |].
    split; assumption.
Qed.

(** X5.  In a reachable world, a message addressed to a name that no agent
    of the system bears is dropped without an exception: it is logged and
    counted, the failure is narrated, and no agent object changes. *)
Theorem unroutable_message_dropped (w : World) (message : Message) :
  reachable w ->
  receiver_id message <> "ALL" ->
  (forall a, In a (agents_of w) -> agent_id a <> receiver_id message) ->
  route_message message w =
    (Ret tt,
     set_stdout (stdout w ++ [ORoutingFailed (receiver_id message)])
       (set_mas (logged message (mas w)) w)).
Proof.
  intros Hreach Hall Hnone. apply reachable_wf in Hreach as (Hnd & Hag & _).
  unfold route_message, bind, modify_mas, get_mas. simpl.
  apply String.eqb_neq in Hall. rewrite Hall.
  rewrite dict_lookup_None; [reflexivity |].
  intros Hin. apply in_map_iff in Hin as [[k r] [Ek Hin]]. simpl in Ek. subst k.
  destruct (Hag _ r Hin) as (a & Ha & Hid).
  apply (Hnone a); [| exact Hid].
  unfold agents_of. apply (with_agents_In w _ r a); [| exact Ha].
  apply in_map_iff. exists (receiver_id message, r). split; [reflexivity | exact Hin].
Qed.

Lemma unroutable_message_dropped_witness :
  route_message lost_message (allocation_world (fun _ => 0)) =
    (Ret tt,
     set_stdout (stdout (allocation_world (fun _ => 0)) ++
                   [ORoutingFailed (receiver_id lost_message)])
       (set_mas (logged lost_message (mas (allocation_world (fun _ => 0))))
          (allocation_world (fun _ => 0)))).
Proof.
  apply (unroutable_message_dropped (allocation_world (fun _ => 0)) lost_message).
  - exists (fun _ => 0), allocation_scenario. reflexivity.
  - discriminate.
  - assert (H : Forall (fun a => agent_id a <> receiver_id lost_message)
                  (agents_of (allocation_world (fun _ => 0)))).
    { vm_compute. repeat constructor; discriminate. }
    intros a Ha. rewrite Forall_forall in H. apply H, list_elem_of_In, Ha.
Defined.

(** X6.  In a reachable world, a message addressed by name to an agent of
    the system is put once at the end of that agent's queue (its
    received-counter goes up by one) and no other object changes.  Unlike a
    broadcast, delivery by name does not skip the sender: an agent that
    writes to itself receives its own message. *)
Theorem message_by_name (w : World) (message : Message) (r : ref) (a : Agent) :
  reachable w ->
  receiver_id message <> "ALL" ->
  In r (dict_values (agents (mas w))) ->
  heap w !! r = Some a ->
  agent_id a = receiver_id message ->
  exists w',
    route_message message w = (Ret tt, w') /\
    heap w' !! r = Some (enqueued message a) /\
    (forall r', r' <> r -> heap w' !! r' = heap w !! r') /\
    mas w' = logged message (mas w).
Proof.
  intros Hreach Hall Hin Ha Hname. apply reachable_wf in Hreach as Hwf.
  rewrite (route_by_name w message r a Hwf Hall Hin Ha Hname).
  eexists. split; [reflexivity |]. simpl. split; [| split; [| reflexivity]].
  - apply list_lookup_insert_eq. eapply lookup_lt_Some, Ha.
  - intros r' Hne. apply list_lookup_insert_ne. congruence.
Qed.

Lemma message_by_name_witness :
  exists w',
    route_message self_message (allocation_world (fun _ => 0)) = (Ret tt, w') /\
    heap w' !! 1%nat = Some (enqueued self_message picker_01) /\
    (forall r', r' <> 1%nat -> heap w' !! r' = heap (allocation_world (fun _ => 0)) !! r') /\
    mas w' = logged self_message (mas (allocation_world (fun _ => 0))).
Proof.
  apply (message_by_name (allocation_world (fun _ => 0)) self_message 1%nat picker_01).
  - exists (fun _ => 0), allocation_scenario. reflexivity.
  - discriminate.
  - right. left. reflexivity.
  - reflexivity.
  - reflexivity.
Defined.

(** What [send_message] does to the system object, in any world. *)
Lemma send_message_mas r receiver type payload now w :
  mas (snd (send_message r receiver type payload now w)) =
    match heap w !! r with
    | Some a => logged (mkMessage (agent_id a) receiver type payload now) (mas w)
    | None => mas w
    end.
Proof.
  unfold send_message, bind at 1, get_agent.
  destruct (heap w !! r) as [a |]; [| reflexivity].
  unfold bind at 1.
  pose proof (route_message_mas (mkMessage (agent_id a) receiver type payload now) w) as Hm.
  destruct (route_message _ w) as [[[] | e | |] w1]; simpl in Hm; try exact Hm.
  match goal with
  | |- mas (snd (?m ?w0)) = _ =>
      assert (H : respects (wkeeps mas) m) by respects_tac frame_leaf;
      rewrite (H w0)
  end.
  exact Hm.
Qed.

#[global] Instance wkeeps_log_excess_frame : Frame (wkeeps log_excess) anything any_agent.
Proof. split; unfold wkeeps, log_excess; intros; simpl; congruence. Qed.

Ltac log_leaf :=
  first [ frame_leaf | intros; unfold wkeeps, log_excess; simpl; reflexivity ].

Lemma log_excess_run_op op w : log_excess (snd (run_op op w)) = log_excess w.
Proof.
  assert (Hlogged : forall message m,
            total_messages (logged message m) -
              Z.of_nat (length (message_log (logged message m))) =
            total_messages m - Z.of_nat (length (message_log m))).
  { intros message m. unfold logged. simpl. rewrite length_app. simpl. lia. }
  assert (Hkeep : forall (m : M World unit),
            respects (wkeeps mas) m -> log_excess (snd (m w)) = log_excess w).
  { intros m Hm. unfold log_excess. rewrite (Hm w). reflexivity. }
  destruct op.
  - apply Hkeep. respects_tac frame_leaf.
  - apply Hkeep. respects_tac frame_leaf.
  - apply Hkeep. respects_tac frame_leaf.
  - apply Hkeep. respects_tac frame_leaf.
  - assert (H : respects (wkeeps log_excess) (add_agent r)).
    { respects_tac log_leaf. }
    apply H.
  - unfold log_excess. simpl. rewrite route_message_mas. apply Hlogged.
  - unfold log_excess. simpl. rewrite send_message_mas.
    destruct (heap w !! r); [apply Hlogged | reflexivity].
  - assert (H : respects (wkeeps log_excess) (process_order order)).
    { respects_tac log_leaf. }
    apply H.
  - apply Hkeep. respects_tac frame_leaf.
  - apply Hkeep. respects_tac frame_leaf.
Qed.

(** X7.  In every reachable world the message counter of the bus equals the
    length of its log: every routed message, delivered or not, is logged
    exactly once and counted exactly once, and nothing else touches
    either. *)
Theorem message_counter_matches_log (w : World) :
  reachable w ->
  total_messages (mas w) = Z.of_nat (length (message_log (mas w))).
Proof.
  intros (rnd & ops & ->).
  assert (H : forall w0, log_excess (exec ops w0) = log_excess w0).
  { unfold exec. induction ops as [| op ops IH]; intros w0; simpl; [reflexivity |].
    rewrite IH. apply log_excess_run_op. }
  specialize (H (MultiAgentSystem_init rnd)). unfold log_excess in H. simpl in H. lia.
Qed.

Lemma message_counter_matches_log_witness :
  total_messages (mas noted_world) = Z.of_nat (length (message_log (mas noted_world))).
Proof.
  apply (message_counter_matches_log noted_world).
  exists (fun _ => 0),
    (allocation_scenario ++ [RouteMessage (note 1); RouteMessage (note 2); RouteMessage (note 3)]).
  vm_compute. reflexivity.
Defined.

(** *** Sending *)

Lemma same_key_same_ref w r s a b :
  world_wf w ->
  In r (dict_values (agents (mas w))) -> In s (dict_values (agents (mas w))) ->
  heap w !! r = Some b -> heap w !! s = Some a ->
  agent_id b = agent_id a -> r = s.
Proof.
  intros (Hnd & Hag & _) Hr Hs Hb Ha Hid.
  apply in_map_iff in Hr as [[kr r'] [Er Hr]]. simpl in Er. subst r'.
  apply in_map_iff in Hs as [[ks s'] [Es Hs]]. simpl in Es. subst s'.
  destruct (Hag kr r Hr) as (b' & Hb' & Hkr).
  destruct (Hag ks s Hs) as (a' & Ha' & Hks).
  assert (kr = ks) by congruence. subst ks.
  pose proof (dict_lookup_NoDup _ _ _ Hnd Hr) as L1.
  pose proof (dict_lookup_NoDup _ _ _ Hnd Hs) as L2.
  congruence.
Qed.

(** X8.  Sending by name, in a reachable world: [send_message] returns
    normally, the message that reaches the named agent bears the sender's
    identifier and is put at the end of the receiver's queue, the sender's
    sent-counter goes up by one, the message is logged, and no other object
    changes.  When an agent writes to itself it is both: it gets the
    message and the sent-counter. *)
Theorem send_by_name (w : World) (s r : ref) (a b : Agent)
    (receiver type : string) (payload : Dict) (now : Z) :
  reachable w ->
  heap w !! s = Some a ->
  receiver <> "ALL" ->
  In r (dict_values (agents (mas w))) ->
  heap w !! r = Some b ->
  agent_id b = receiver ->
  exists w',
    send_message s receiver type payload now w = (Ret tt, w') /\
    heap w' !! r =
      Some (if Nat.eqb r s
            then incr_messages_sent
                   (enqueued (mkMessage (agent_id a) receiver type payload now) b)
            else enqueued (mkMessage (agent_id a) receiver type payload now) b) /\
    (r <> s -> heap w' !! s = Some (incr_messages_sent a)) /\
    (forall r', r' <> r -> r' <> s -> heap w' !! r' = heap w !! r') /\
    message_log (mas w') =
      message_log (mas w) ++ [mkMessage (agent_id a) receiver type payload now].
Proof.
  intros Hreach Ha Hall Hin Hb Hname. apply reachable_wf in Hreach as Hwf.
  set (msg := mkMessage (agent_id a) receiver type payload now).
  assert (Hlenr : (r < length (heap w))%nat) by (eapply lookup_lt_Some, Hb).
  assert (Hlens : (s < length (heap w))%nat) by (eapply lookup_lt_Some, Ha).
  unfold send_message, bind at 1, get_agent. rewrite Ha. fold msg.
  unfold bind at 1.
  rewrite (route_by_name w msg r b Hwf Hall Hin Hb Hname).
  unfold bind, modify_agent, get_agent, print. simpl.
  destruct (Nat.eqb_spec r s) as [-> | Hne].
  - assert (b = a) by congruence. subst b.
    rewrite list_lookup_insert_eq by exact Hlens. simpl.
    rewrite list_lookup_insert_eq by (rewrite length_insert; exact Hlens). simpl.
    eexists. split; [reflexivity |]. simpl.
    rewrite list_insert_insert_eq.
    split; [apply list_lookup_insert_eq; exact Hlens |].
    split; [intros Hc; contradiction |].
    split; [| reflexivity].
    intros r' Hr' _. apply list_lookup_insert_ne. congruence.
  - rewrite list_lookup_insert_ne by exact Hne. rewrite Ha. simpl.
    rewrite list_lookup_insert_eq by (rewrite length_insert; exact Hlens). simpl.
    eexists. split; [reflexivity |]. simpl.
    split; [rewrite list_lookup_insert_ne by congruence;
            apply list_lookup_insert_eq; exact Hlenr |].
    split; [intros _; apply list_lookup_insert_eq; rewrite length_insert; exact Hlens |].
    split; [| reflexivity].
    intros r' Hr' Hs'. rewrite list_lookup_insert_ne by congruence.
    apply list_lookup_insert_ne. congruence.
Qed.

Lemma send_by_name_witness :
  exists w',
    send_message 0%nat "PICKER_01" "PICK_REQUEST" [] 7 (allocation_world (fun _ => 0))
      = (Ret tt, w') /\
    heap w' !! 1%nat =
      Some (if Nat.eqb 1 0
            then incr_messages_sent
                   (enqueued
                      (mkMessage
                         (agent_id (set_agent_registry
                                      [("PICKER_01", 1%nat); ("TRANSPORT_01", 2%nat)]
                                      coord_01))
                         "PICKER_01" "PICK_REQUEST" [] 7) picker_01)
            else enqueued
                   (mkMessage
                      (agent_id (set_agent_registry
                                   [("PICKER_01", 1%nat); ("TRANSPORT_01", 2%nat)]
                                   coord_01))
                      "PICKER_01" "PICK_REQUEST" [] 7) picker_01) /\
    (1%nat <> 0%nat ->
     heap w' !! 0%nat =
       Some (incr_messages_sent
               (set_agent_registry [("PICKER_01", 1%nat); ("TRANSPORT_01", 2%nat)]
                  coord_01))) /\
    (forall r', r' <> 1%nat -> r' <> 0%nat ->
       heap w' !! r' = heap (allocation_world (fun _ => 0)) !! r') /\
    message_log (mas w') =
      message_log (mas (allocation_world (fun _ => 0))) ++
        [mkMessage
           (agent_id (set_agent_registry
                        [("PICKER_01", 1%nat); ("TRANSPORT_01", 2%nat)] coord_01))
           "PICKER_01" "PICK_REQUEST" [] 7].
Proof.
  apply (send_by_name (allocation_world (fun _ => 0)) 0%nat 1%nat
           (set_agent_registry [("PICKER_01", 1%nat); ("TRANSPORT_01", 2%nat)] coord_01)
           picker_01 "PICKER_01" "PICK_REQUEST" [] 7).
  - exists (fun _ => 0), allocation_scenario. reflexivity.
  - reflexivity.
  - discriminate.
  - right. left. reflexivity.
  - reflexivity.
  - reflexivity.
Defined.

(** X9.  Broadcasting through [send_message], in a reachable world: the call
    returns normally; the sender's own queue is untouched and its
    sent-counter goes up by one; every other agent of the system is dealt
    with as by [route_message], and when the sender is itself in the system
    each of them does get the message. *)
Theorem send_broadcast (w : World) (s : ref) (a : Agent) (type : string)
    (payload : Dict) (now : Z) :
  reachable w ->
  heap w !! s = Some a ->
  exists w',
    send_message s "ALL" type payload now w = (Ret tt, w') /\
    heap w' !! s = Some (incr_messages_sent a) /\
    (forall r b, In r (dict_values (agents (mas w))) -> r <> s -> heap w !! r = Some b ->
       heap w' !! r = Some (delivered (mkMessage (agent_id a) "ALL" type payload now) b) /\
       (In s (dict_values (agents (mas w))) ->
        delivered (mkMessage (agent_id a) "ALL" type payload now) b =
          enqueued (mkMessage (agent_id a) "ALL" type payload now) b)) /\
    message_log (mas w') =
      message_log (mas w) ++ [mkMessage (agent_id a) "ALL" type payload now].
Proof.
  intros Hreach Ha. apply reachable_wf in Hreach as Hwf.
  set (msg := mkMessage (agent_id a) "ALL" type payload now).
  unfold send_message, bind at 1, get_agent. rewrite Ha. fold msg.
  destruct (route_broadcast w msg Hwf eq_refl) as (w1 & E & Hm & Hin & Hout).
  unfold bind at 1. rewrite E.
  assert (Hs1 : heap w1 !! s = Some a).
  { destruct (in_dec Nat.eq_dec s (dict_values (agents (mas w)))) as [Hs | Hs].
    - rewrite (Hin s a Hs Ha). unfold delivered. simpl. rewrite String.eqb_refl. reflexivity.
    - rewrite (Hout s Hs). exact Ha. }
  assert (Hlen : (s < length (heap w1))%nat) by (eapply lookup_lt_Some, Hs1).
  unfold bind, modify_agent, get_agent, print. rewrite Hs1. simpl.
  rewrite list_lookup_insert_eq by exact Hlen. simpl.
  eexists. split; [reflexivity |]. simpl.
  split; [apply list_lookup_insert_eq; exact Hlen |]. split.
  - intros r b Hr Hne Hb. split.
    + rewrite list_lookup_insert_ne by congruence. apply (Hin r b Hr Hb).
    + intros Hs. unfold delivered, enqueued. simpl.
      destruct (String.eqb (agent_id b) (agent_id a)) eqn:Eid; [| reflexivity].
      apply String.eqb_eq in Eid. exfalso. apply Hne.
      apply (same_key_same_ref w r s a b Hwf Hr Hs Hb Ha Eid).
  - rewrite Hm. reflexivity.
Qed.

Lemma send_broadcast_witness :
  exists w',
    send_message 1%nat "ALL" "STATUS_UPDATE" [] 7 (allocation_world (fun _ => 0))
      = (Ret tt, w') /\
    heap w' !! 1%nat = Some (incr_messages_sent picker_01) /\
    (forall r b,
       In r (dict_values (agents (mas (allocation_world (fun _ => 0))))) ->
       r <> 1%nat -> heap (allocation_world (fun _ => 0)) !! r = Some b ->
       heap w' !! r =
         Some (delivered (mkMessage (agent_id picker_01) "ALL" "STATUS_UPDATE" [] 7) b) /\
       (In 1%nat (dict_values (agents (mas (allocation_world (fun _ => 0))))) ->
        delivered (mkMessage (agent_id picker_01) "ALL" "STATUS_UPDATE" [] 7) b =
          enqueued (mkMessage (agent_id picker_01) "ALL" "STATUS_UPDATE" [] 7) b)) /\
    message_log (mas w') =
      message_log (mas (allocation_world (fun _ => 0))) ++
        [mkMessage (agent_id picker_01) "ALL" "STATUS_UPDATE" [] 7].
Proof.
  apply (send_broadcast (allocation_world (fun _ => 0)) 1%nat picker_01
           "STATUS_UPDATE" [] 7).
  - exists (fun _ => 0), allocation_scenario. reflexivity.
  - reflexivity.
Defined.

(** *** Registration and allocation *)

Lemma dict_lookup_set {V} (k : string) (v : V) d :
  dict_lookup (dict_set k v d) k = Some v.
Proof.
  induction d as [| [k0 v0] d IH]; simpl.
  - rewrite String.eqb_refl. reflexivity.
  - destruct (String.eqb k0 k) eqn:Ek; simpl; rewrite Ek; [reflexivity | exact IH].
Qed.

Lemma dict_set_twice {V} (k : string) (v : V) d :
  dict_set k v (dict_set k v d) = dict_set k v d.
Proof.
  induction d as [| [k0 v0] d IH]; simpl.
  - rewrite String.eqb_refl. reflexivity.
  - destruct (String.eqb k0 k) eqn:Ek; simpl; rewrite Ek; [reflexivity | rewrite IH; reflexivity].
Qed.

(** [add_agent] of a non-coordinator in a world with a coordinator, in
    full. *)
Lemma add_agent_registered w r a c ac :
  heap w !! r = Some a -> AgentClass_eqb (cls a) CoordinatorCls = false ->
  coordinator (mas w) = Some c -> heap w !! c = Some ac ->
  add_agent r w =
    (Ret tt,
     set_stdout (stdout w ++ [ORegistered (agent_id a); OAdded (agent_type a) (agent_id a)])
       (set_heap
          (<[c := set_agent_registry (dict_set (agent_id a) r (agent_registry ac)) ac]> (heap w))
          (set_mas (set_agents (dict_set (agent_id a) r (agents (mas w))) (mas w)) w))).
Proof.
  intros Hr Hcls Hco Hc.
  unfold add_agent, bind, get_agent, modify_mas, get_mas. rewrite Hr. simpl.
  rewrite Hcls. simpl. rewrite Hco.
  unfold register_agent, bind, get_agent, modify_agent, print. simpl.
  rewrite Hr. simpl. rewrite Hc. simpl. rewrite <- app_assoc. reflexivity.
Qed.

(** X10.  In a reachable world that has a coordinator, adding a live
    non-coordinator agent returns normally and files the agent under its
    identifier both in the system's agent dictionary and in the
    coordinator's registry.  Adding it a second time changes neither
    dictionary nor any object. *)
Theorem add_agent_registers_once (w : World) (r c : ref) (a : Agent) :
  reachable w ->
  heap w !! r = Some a ->
  cls a <> CoordinatorCls ->
  coordinator (mas w) = Some c ->
  exists w1 ac1,
    add_agent r w = (Ret tt, w1) /\
    dict_lookup (agents (mas w1)) (agent_id a) = Some r /\
    heap w1 !! c = Some ac1 /\
    dict_lookup (agent_registry ac1) (agent_id a) = Some r /\
    fst (add_agent r w1) = Ret tt /\
    heap (snd (add_agent r w1)) = heap w1 /\
    mas (snd (add_agent r w1)) = mas w1.
Proof.
  intros Hreach Hr Hcls Hco. apply reachable_wf in Hreach as (_ & _ & Hcw).
  destruct (Hcw c Hco) as (ac & Hc & Hccls).
  assert (Hb : AgentClass_eqb (cls a) CoordinatorCls = false).
  { destruct (AgentClass_eqb (cls a) CoordinatorCls) eqn:E; [| reflexivity].
    apply AgentClass_eqb_eq in E. contradiction. }
  assert (Hne : c <> r) by (intros ->; congruence).
  assert (Hlen : (c < length (heap w))%nat) by (eapply lookup_lt_Some, Hc).
  rewrite (add_agent_registered w r a c ac Hr Hb Hco Hc).
  set (ac1 := set_agent_registry (dict_set (agent_id a) r (agent_registry ac)) ac).
  set (w1 := set_stdout _ _).
  assert (Hr1 : heap w1 !! r = Some a).
  { subst w1. simpl. rewrite list_lookup_insert_ne by exact Hne. exact Hr. }
  assert (Hc1 : heap w1 !! c = Some ac1).
  { subst w1. simpl. apply list_lookup_insert_eq. exact Hlen. }
  exists w1, ac1. split; [reflexivity |].
  split; [subst w1; simpl; apply dict_lookup_set |].
  split; [exact Hc1 |].
  split; [subst ac1; simpl; apply dict_lookup_set |].
  rewrite (add_agent_registered w1 r a c ac1 Hr1 Hb Hco Hc1).
  split; [reflexivity |]. simpl. split.
  - subst ac1. simpl. rewrite dict_set_twice.
    rewrite list_insert_insert_eq. reflexivity.
  - rewrite dict_set_twice. destruct (mas w); reflexivity.
Qed.

Lemma add_agent_registers_once_witness :
  exists w1 ac1,
    add_agent 1%nat (allocation_world (fun _ => 0)) = (Ret tt, w1) /\
    dict_lookup (agents (mas w1)) (agent_id picker_01) = Some 1%nat /\
    heap w1 !! 0%nat = Some ac1 /\
    dict_lookup (agent_registry ac1) (agent_id picker_01) = Some 1%nat /\
    fst (add_agent 1%nat w1) = Ret tt /\
    heap (snd (add_agent 1%nat w1)) = heap w1 /\
    mas (snd (add_agent 1%nat w1)) = mas w1.
Proof.
  apply (add_agent_registers_once (allocation_world (fun _ => 0)) 1%nat 0%nat picker_01).
  - exists (fun _ => 0), allocation_scenario. reflexivity.
  - reflexivity.
  - discriminate.
  - reflexivity.
Defined.

Lemma registry_live_run_op op w :
  registry_live w -> registry_live (snd (run_op op w)).
Proof.
  intros Hlive c a x Hc Hx.
  assert (Hgrow : forall w' (y : ref), (length (heap w) <= length (heap w'))%nat ->
                    is_Some (heap w !! y) -> is_Some (heap w' !! y)).
  { intros w' y Hlen Hy. apply lookup_lt_is_Some. apply lookup_lt_is_Some in Hy. lia. }
  destruct (op_cases op) as [[r ->] | Hne].
  - simpl in *. destruct (heap w !! r) as [ar |] eqn:Hr.
    + destruct (registers_add_agent r w) as [Hlen Hreg]. specialize (Hreg c a Hc).
      apply (Hgrow _ _ Hlen).
      destruct (heap w !! c) as [a0 |] eqn:E0.
      * destruct (Hreg x Hx) as [-> | Hx0]; [rewrite Hr; eauto | apply (Hlive c a0 x E0 Hx0)].
      * rewrite (Hreg x Hx), Hr. eauto.
    + rewrite add_agent_missing in Hc |- * by exact Hr. apply (Hlive c a x Hc Hx).
  - destruct (registry_run_op op Hne w) as [Hlen Hreg]. specialize (Hreg c a Hc).
    apply (Hgrow _ _ Hlen).
    destruct (heap w !! c) as [a0 |] eqn:E0.
    + unfold keeps in Hreg. rewrite Hreg in Hx. apply (Hlive c a0 x E0 Hx).
    + rewrite Hreg in Hx. destruct Hx.
Qed.

Lemma reachable_registry_live w : reachable w -> registry_live w.
Proof.
  intros (rnd & ops & ->). unfold exec.
  assert (H : forall w0, registry_live w0 ->
                registry_live (fold_left (fun w op => snd (run_op op w)) ops w0)).
  { induction ops as [| op ops IH]; intros w0 H0; simpl; [exact H0 |].
    apply IH, registry_live_run_op, H0. }
  apply H. intros c a r Hc. simpl in Hc. discriminate.
Qed.

Lemma filter_none {X} (p : X -> bool) (l : list X) :
  (forall x, In x l -> p x = false) -> List.filter p l = [].
Proof.
  induction l as [| x l IH]; simpl; intros H; [reflexivity |].
  rewrite (H x (or_introl eq_refl)). apply IH. intros y Hy. apply H. now right.
Qed.

(** X11.  Starvation.  In a reachable world, when the registry of the
    coordinator holds no idle picker, or holds no idle transporter,
    [allocate_tasks] returns normally and only narrates that the order is
    queued: no request is issued, no object changes, and no random number
    is drawn. *)
Theorem allocation_starves_quietly (w : World) (c : ref) (ac : Agent) (order : Dict) :
  reachable w ->
  heap w !! c = Some ac ->
  (forall r a, In r (dict_values (agent_registry ac)) -> heap w !! r = Some a ->
     is_idle_picker a = false) \/
  (forall r a, In r (dict_values (agent_registry ac)) -> heap w !! r = Some a ->
     is_idle_transporter a = false) ->
  allocate_tasks c order w = (Ret tt, set_stdout (stdout w ++ [OQueuing]) w).
Proof.
  intros Hreach Hc Hnone. apply reachable_registry_live in Hreach as Hlive.
  assert (Hl : forall r, In r (dict_values (agent_registry ac)) -> is_Some (heap w !! r))
    by (intros r; apply (Hlive c ac r Hc)).
  unfold allocate_tasks, bind, get_agent. rewrite Hc.
  rewrite !select_spec by exact Hl.
  destruct Hnone as [Hp | Ht].
  - rewrite (filter_none (holds is_idle_picker w)); [reflexivity |].
    intros r Hr. unfold holds. destruct (heap w !! r) as [a |] eqn:E; [| reflexivity].
    apply (Hp r a Hr E).
  - rewrite (filter_none (holds is_idle_transporter w)).
    + destruct (List.filter _ _); reflexivity.
    + intros r Hr. unfold holds. destruct (heap w !! r) as [a |] eqn:E; [| reflexivity].
      apply (Ht r a Hr E).
Qed.

Lemma allocation_starves_quietly_witness :
  allocate_tasks 1%nat order_001 late_world =
    (Ret tt, set_stdout (stdout late_world ++ [OQueuing]) late_world).
Proof.
  apply (allocation_starves_quietly late_world 1%nat
           (set_agent_registry [("TRANSPORT_01", 2%nat)] coord_01) order_001).
  - exists (fun _ => 0), (early_picker ++ late_coordinator). vm_compute. reflexivity.
  - reflexivity.
  - left. intros r a [<- | []] Ha. vm_compute in Ha. inversion Ha. reflexivity.
Defined.

Lemma is_idle_picker_true a :
  is_idle_picker a = true -> cls a = PickerCls /\ state a = IDLE.
Proof.
  unfold is_idle_picker. intros H. apply andb_prop in H as [H1 H2].
  split; [apply AgentClass_eqb_eq, H1 | apply AgentState_eqb_eq, H2].
Qed.

Lemma is_idle_transporter_true a :
  is_idle_transporter a = true -> cls a = TransportCls /\ state a = IDLE.
Proof.
  unfold is_idle_transporter. intros H. apply andb_prop in H as [H1 H2].
  split; [apply AgentClass_eqb_eq, H1 | apply AgentState_eqb_eq, H2].
Qed.

Lemma len_nonneg v n : len v = Ret n -> 0 <= n.
Proof. destruct v; simpl; intros H; inversion H; lia. Qed.

(** A picker answers every pick request whose items have a length by
    returning normally. *)
Lemma pick_request_returns request a o n :
  cls a = PickerCls ->
  len (dict_get request "items" (VList [])) = Ret n ->
  fst (handle_pick_request request (mkLocal a o)) = Ret tt.
Proof.
  intros Hcls Hlen. unfold handle_pick_request.
  generalize (dict_get request "location" (VTuple 0 0)). intros location.
  destruct (dict_get request "items" (VList [])); simpl in Hlen; try discriminate;
    unfold py_len; simpl; run_local; first [reflexivity | congruence].
Qed.

(** An idle transporter raises on a request within its capacity and ignores
    one beyond it. *)
Lemma transport_request_outcome a o pickup delivery n :
  cls a = TransportCls ->
  state a = IDLE ->
  handle_transport_request
    [("pickup_location", pickup); ("delivery_location", delivery); ("item_count", VInt n)]
    (mkLocal a o) =
  if n <=? carrying_capacity a
  then (Raise (AttributeError "move_to_location"),
        mkLocal
          (set_current_task
             (Some [("pickup_location", pickup); ("delivery_location", delivery);
                    ("item_count", VInt n)])
             (set_state WORKING a))
          (o ++ [OTransportRequest (agent_id a) (VInt n); OExecuting (agent_id a)]))
  else (Ret tt, mkLocal a (o ++ [OTransportRequest (agent_id a) (VInt n)])).
Proof.
  intros Hcls Hidle. unfold handle_transport_request. simpl.
  unfold bind, get_self, print_l, modify_self, py_int, ret. simpl.
  rewrite Hidle. simpl.
  destruct (n <=? carrying_capacity a); [| reflexivity].
  unfold execute_transport, move_to_location, bind, get_self, print_l. simpl.
  rewrite Hcls. unfold raise. rewrite <- app_assoc. reflexivity.
Qed.

(** X12.  When the registry holds an idle picker and an idle transporter,
    [allocate_tasks] addresses the first idle picker and the first idle
    transporter in registry order.  The picker handles the pick request for
    the items of the order at a location drawn at random: its object and
    the console are what [handle_pick_request] makes of them.  The
    transporter is then sent a transport request from the picker's new
    position for as many items as the order has: when that number [n] is
    within its capacity it is left [WORKING] on that request and the call
    ends in [AttributeError] (the transport is attempted and fails);
    otherwise it ignores the request and the call returns normally, after
    reporting the assignment.  Four random numbers are drawn, and no other
    object changes. *)
Theorem allocation_outcome (w : World) (c : ref) (ac : Agent) (order : Dict) (n : Z)
    (pk tr : ref) (rest_p rest_t : list ref) (ap at_ : Agent) :
  reachable w -> heap w !! c = Some ac ->
  len (dict_get order "items" (VList [])) = Ret n ->
  List.filter (holds is_idle_picker w) (dict_values (agent_registry ac)) = pk :: rest_p ->
  List.filter (holds is_idle_transporter w) (dict_values (agent_registry ac)) = tr :: rest_t ->
  heap w !! pk = Some ap ->
  heap w !! tr = Some at_ ->
  fst (allocate_tasks c order w) =
    (if n <=? carrying_capacity at_
     then Raise (AttributeError "move_to_location") else Ret tt) /\
  heap (snd (allocate_tasks c order w)) !! pk = Some (self (pick_issued order w ap)) /\
  heap (snd (allocate_tasks c order w)) !! tr =
    Some (if n <=? carrying_capacity at_
          then set_current_task (Some (transport_request_issued order n w ap))
                 (set_state WORKING at_)
          else at_) /\
  stdout (snd (allocate_tasks c order w)) =
    out (pick_issued order w ap) ++
    OTransportRequest (agent_id at_) (VInt n) ::
    (if n <=? carrying_capacity at_
     then [OExecuting (agent_id at_)]
     else [OAssigned (agent_id (self (pick_issued order w ap))) (agent_id at_)]) /\
  rand_ix (snd (allocate_tasks c order w)) = (4 + rand_ix w)%nat /\
  (forall p, p <> pk -> p <> tr ->
     heap (snd (allocate_tasks c order w)) !! p = heap w !! p).
Proof.
  intros Hreach Hc Hlen Hpk Htr Hap Hat.
  apply reachable_registry_live in Hreach as Hlive.
  assert (Hl : forall r, In r (dict_values (agent_registry ac)) -> is_Some (heap w !! r))
    by (intros r; apply (Hlive c ac r Hc)).
  assert (Hpin : In pk (List.filter (holds is_idle_picker w) (dict_values (agent_registry ac))))
    by (rewrite Hpk; now left).
  assert (Htin : In tr (List.filter (holds is_idle_transporter w) (dict_values (agent_registry ac))))
    by (rewrite Htr; now left).
  apply filter_In in Hpin as [_ Hph]. apply filter_In in Htin as [_ Hth].
  unfold holds in Hph, Hth. rewrite Hat in Hth. rewrite Hap in Hph.
  apply is_idle_picker_true in Hph as [Hpcls _].
  apply is_idle_transporter_true in Hth as [Htcls Htidle].
  assert (Hne : pk <> tr) by (intros ->; congruence).
  assert (Hlenp : (pk < length (heap w))%nat) by (eapply lookup_lt_Some, Hap).
  assert (Hlent : (tr < length (heap w))%nat) by (eapply lookup_lt_Some, Hat).
  pose proof (pick_request_returns (pick_request_issued order w) ap (stdout w) n Hpcls Hlen)
    as Hret.
  fold (pick_issued order w ap) in *.
  destruct (allocate_tasks c order w) as [res wf] eqn:E. simpl.
  unfold allocate_tasks, bind at 1 in E. unfold get_agent at 1 in E. rewrite Hc in E.
  unfold bind at 1 in E. rewrite select_spec in E by exact Hl.
  unfold bind at 1 in E. rewrite select_spec in E by exact Hl.
  rewrite Hpk, Htr in E. cbv beta iota in E.
  unfold get_agent in E.
  unfold bind at 1, randint at 1 in E. unfold bind at 1, randint at 1 in E.
  unfold bind at 1 in E. unfold with_self at 1 in E.
  cbn [heap set_rand_ix rand rand_ix stdout] in E. rewrite Hap in E.
  change (handle_pick_request _ (mkLocal ap (stdout w)))
    with (handle_pick_request (pick_request_issued order w) (mkLocal ap (stdout w))) in E.
  destruct (handle_pick_request (pick_request_issued order w) (mkLocal ap (stdout w)))
    as [res1 l1] eqn:Epick.
  assert (El : pick_issued order w ap = l1) by (unfold pick_issued; rewrite Epick; reflexivity).
  simpl in Hret. subst res1. cbv beta iota in E.
  unfold bind at 1 in E. cbn [heap set_heap set_stdout] in E.
  rewrite list_lookup_insert_eq in E by exact Hlenp.
  unfold bind at 1, randint at 1 in E. unfold bind at 1, randint at 1 in E.
  unfold bind at 1, py_len in E. rewrite Hlen in E.
  unfold bind at 1 in E. unfold with_self at 1 in E.
  cbn [heap set_heap set_stdout set_rand_ix rand rand_ix stdout mas dispatched] in E.
  rewrite list_lookup_insert_ne in E by exact Hne. rewrite Hat in E.
  rewrite (transport_request_outcome at_ _ _ _ n Htcls Htidle) in E.
  rewrite El.
  destruct (n <=? carrying_capacity at_).
  - injection E as <- <-. cbn [heap set_heap set_stdout set_rand_ix rand_ix stdout].
    split; [reflexivity |].
    split; [rewrite list_lookup_insert_ne by congruence;
            apply list_lookup_insert_eq; exact Hlenp |].
    split; [rewrite list_lookup_insert_eq by (rewrite length_insert; exact Hlent);
            unfold transport_request_issued, drawn; rewrite El; reflexivity |].
    split; [first [reflexivity | rewrite <- app_assoc; reflexivity] |].
    split; [reflexivity |].
    intros p Hpp Hpt. rewrite !list_lookup_insert_ne by congruence. reflexivity.
  - cbv beta iota in E. unfold bind at 1 in E.
    cbn [heap set_heap set_stdout set_rand_ix rand rand_ix stdout mas dispatched] in E.
    rewrite list_lookup_insert_ne in E by congruence.
    rewrite list_lookup_insert_eq in E by exact Hlenp.
    unfold bind at 1 in E.
    cbn [heap set_heap set_stdout set_rand_ix rand rand_ix stdout mas dispatched] in E.
    rewrite list_lookup_insert_eq in E by (rewrite length_insert; exact Hlent).
    unfold print in E. injection E as <- <-.
    cbn [heap set_heap set_stdout set_rand_ix rand_ix stdout].
    split; [reflexivity |].
    split; [rewrite list_lookup_insert_ne by congruence;
            apply list_lookup_insert_eq; exact Hlenp |].
    split; [apply list_lookup_insert_eq; rewrite length_insert; exact Hlent |].
    split; [first [reflexivity | rewrite <- app_assoc; reflexivity] |].
    split; [reflexivity |].
    intros p Hpp Hpt. rewrite !list_lookup_insert_ne by congruence. reflexivity.
Qed.

Lemma allocation_outcome_witness :
  fst (allocate_tasks 0%nat order_bulk (allocation_world (fun _ => 0))) =
    (if 51 <=? carrying_capacity transport_01
     then Raise (AttributeError "move_to_location") else Ret tt) /\
  heap (snd (allocate_tasks 0%nat order_bulk (allocation_world (fun _ => 0)))) !! 1%nat =
    Some (self (pick_issued order_bulk (allocation_world (fun _ => 0)) picker_01)) /\
  heap (snd (allocate_tasks 0%nat order_bulk (allocation_world (fun _ => 0)))) !! 2%nat =
    Some (if 51 <=? carrying_capacity transport_01
          then set_current_task
                 (Some (transport_request_issued order_bulk 51
                          (allocation_world (fun _ => 0)) picker_01))
                 (set_state WORKING transport_01)
          else transport_01) /\
  stdout (snd (allocate_tasks 0%nat order_bulk (allocation_world (fun _ => 0)))) =
    out (pick_issued order_bulk (allocation_world (fun _ => 0)) picker_01) ++
    OTransportRequest (agent_id transport_01) (VInt 51) ::
    (if 51 <=? carrying_capacity transport_01
     then [OExecuting (agent_id transport_01)]
     else [OAssigned
             (agent_id (self (pick_issued order_bulk (allocation_world (fun _ => 0))
                                picker_01)))
             (agent_id transport_01)]) /\
  rand_ix (snd (allocate_tasks 0%nat order_bulk (allocation_world (fun _ => 0)))) =
    (4 + rand_ix (allocation_world (fun _ => 0%Z)))%nat /\
  (forall p, p <> 1%nat -> p <> 2%nat ->
     heap (snd (allocate_tasks 0%nat order_bulk (allocation_world (fun _ => 0)))) !! p =
     heap (allocation_world (fun _ => 0)) !! p).
Proof.
  apply (allocation_outcome (allocation_world (fun _ => 0)) 0%nat
           (set_agent_registry [("PICKER_01", 1%nat); ("TRANSPORT_01", 2%nat)] coord_01)
           order_bulk 51 1%nat 2%nat [] [] picker_01 transport_01).
  - exists (fun _ => 0), allocation_scenario. reflexivity.
  - reflexivity.
  - reflexivity.
  - reflexivity.
  - reflexivity.
  - reflexivity.
  - reflexivity.
Defined.

(** X13.  A [RESOURCE_REQUEST] message handled by the coordinator takes a
    charging station out of the pool when one is available, and does
    nothing else: the result of the grant is discarded, so no agent is
    charged and no agent other than the coordinator changes. *)
Theorem station_request_by_message (w : World) (c : ref) (ac : Agent) (message : Message) :
  heap w !! c = Some ac ->
  cls ac = CoordinatorCls ->
  message_type message = "RESOURCE_REQUEST" ->
  dict_get (content message) "resource_type" (VStr "") = VStr "charging_station" ->
  0 < available_stations ac ->
  handle_message c message w =
    (Ret tt,
     set_stdout
       (stdout w ++ [OStationAllocated (dict_get (content message) "agent_id" (VStr ""))])
       (set_heap
          (<[c := set_available_stations (available_stations ac - 1) ac]> (heap w)) w)).
Proof.
  intros Hc Hcls Hty Hres Hav.
  unfold handle_message, bind at 1, get_agent. rewrite Hc, Hcls.
  unfold Coordinator_handle_message. rewrite Hty. simpl.
  unfold bind, with_self. rewrite Hc.
  unfold handle_resource_request. rewrite Hres. simpl.
  unfold bind, get_self, modify_self, print_l, ret. simpl.
  apply Z.ltb_lt in Hav. rewrite Hav. reflexivity.
Qed.

Lemma station_request_by_message_witness :
  handle_message 0%nat station_message coordinator_world =
    (Ret tt,
     set_stdout
       (stdout coordinator_world ++
          [OStationAllocated (dict_get (content station_message) "agent_id" (VStr ""))])
       (set_heap
          (<[0%nat := set_available_stations (available_stations coord_01 - 1) coord_01]>
             (heap coordinator_world))
          coordinator_world)).
Proof.
  apply (station_request_by_message coordinator_world 0%nat coord_01 station_message);
    reflexivity.
Defined.

(** What [process_order] does to the counters of the system object. *)
Lemma process_order_counter order w :
  orders_processed (mas (snd (process_order order w))) = orders_processed (mas w) + 1.
Proof.
  unfold process_order, bind at 1, print. unfold bind at 1, modify_mas.
  match goal with
  | |- orders_processed (mas (snd (?m ?w0))) = _ =>
      assert (H : respects (wkeeps mas) m) by respects_tac frame_leaf;
      rewrite (H w0)
  end.
  reflexivity.
Qed.

Lemma other_op_counter op w :
  (forall order, op <> ProcessOrder order) ->
  orders_processed (mas (snd (run_op op w))) = orders_processed (mas w).
Proof.
  intros Hop.
  assert (Hkeep : forall (m : M World unit),
            respects (wkeeps mas) m ->
            orders_processed (mas (snd (m w))) = orders_processed (mas w)).
  { intros m Hm. rewrite (Hm w). reflexivity. }
  destruct op; try (apply Hkeep; solve [respects_tac frame_leaf]).
  - simpl. destruct (heap w !! r) as [a |] eqn:Hr.
    + pose proof (add_agent_roster r w a Hr) as Hro.
      assert (H : respects (wkeeps (fun w => orders_processed (mas w))) (add_agent r)).
      { assert (F : Frame (wkeeps (fun w => orders_processed (mas w))) anything any_agent)
          by (split; unfold wkeeps; intros; simpl; congruence).
        respects_tac ltac:(first [frame_leaf | intros; unfold wkeeps; simpl; reflexivity]). }
      apply H.
    + rewrite add_agent_missing by exact Hr. reflexivity.
  - simpl. rewrite route_message_mas. reflexivity.
  - simpl. rewrite send_message_mas. destruct (heap w !! r); reflexivity.
  - exfalso. apply (Hop order). reflexivity.
Qed.

(** X14.  The order counter of the system counts every order the driver
    submits, exactly once: also those dropped because the system has no
    coordinator and those whose allocation ended in an exception.  Nothing
    else changes it. *)
Theorem orders_counted_once (rnd : nat -> Z) (ops : list Op) :
  orders_processed (mas (exec ops (MultiAgentSystem_init rnd))) =
    Z.of_nat (orders_submitted ops).
Proof.
  assert (H : forall w0,
            orders_processed (mas (exec ops w0)) =
            orders_processed (mas w0) + Z.of_nat (orders_submitted ops)).
  { unfold exec, orders_submitted.
    induction ops as [| op ops IH]; intros w0; simpl; [lia |].
    rewrite IH. destruct op;
      try (rewrite other_op_counter by (intros ? ?; discriminate); simpl; lia).
    simpl. rewrite process_order_counter. lia. }
  rewrite H. simpl. lia.
Qed.

(** *** Picking *)

(** X15.  What an accepted pick request does to a picker: the call returns
    with the picker idle again at the requested location, its load raised
    by the number of items, its task counter raised by one, and its battery
    lowered by 2 for the move and by one per item, not below 0.  The request
    stays stored as the current task of the idle picker: nothing resets it. *)
Theorem accepted_pick_effect (request : Dict) (a : Agent) (o : list Output) (n : Z) :
  cls a = PickerCls ->
  state a = IDLE ->
  len (dict_get request "items" (VList [])) = Ret n ->
  current_load a + n <= carrying_capacity a ->
  fst (handle_pick_request request (mkLocal a o)) = Ret tt /\
  state (self (snd (handle_pick_request request (mkLocal a o)))) = IDLE /\
  position (self (snd (handle_pick_request request (mkLocal a o)))) =
    dict_get request "location" (VTuple 0 0) /\
  current_task (self (snd (handle_pick_request request (mkLocal a o)))) = Some request /\
  current_load (self (snd (handle_pick_request request (mkLocal a o)))) =
    current_load a + n /\
  battery_level (self (snd (handle_pick_request request (mkLocal a o)))) =
    Z.max 0 (Z.max 0 (battery_level a - 2) - n) /\
  tasks_completed
    (performance_metrics (self (snd (handle_pick_request request (mkLocal a o))))) =
    tasks_completed (performance_metrics a) + 1.
Proof.
  intros Hcls Hidle Hlen Hcap. apply Z.leb_le in Hcap.
  unfold handle_pick_request.
  generalize (dict_get request "location" (VTuple 0 0)). intros location.
  destruct (dict_get request "items" (VList [])); simpl in Hlen; try discriminate;
    injection Hlen as Hn; rewrite <- Hn in Hcap |- *; clear Hn;
    unfold py_len; simpl;
    unfold bind, get_self, modify_self, print_l, ret; simpl;
    rewrite Hidle; simpl; rewrite Hcap; simpl;
    unfold move_to_location, bind, get_self; simpl; rewrite Hcls;
    autounfold with model;
    unfold bind, get_self, modify_self, print_l, ret, py_len; simpl;
    repeat match goal with
           | |- context [Z.ltb ?x ?y] => destruct (Z.ltb x y)
           end; simpl; repeat split.
Qed.

Lemma accepted_pick_effect_witness :
  fst (handle_pick_request pick_request_3 (mkLocal picker_01 [])) = Ret tt /\
  state (self (snd (handle_pick_request pick_request_3 (mkLocal picker_01 [])))) = IDLE /\
  position (self (snd (handle_pick_request pick_request_3 (mkLocal picker_01 [])))) =
    dict_get pick_request_3 "location" (VTuple 0 0) /\
  current_task (self (snd (handle_pick_request pick_request_3 (mkLocal picker_01 [])))) =
    Some pick_request_3 /\
  current_load (self (snd (handle_pick_request pick_request_3 (mkLocal picker_01 [])))) =
    current_load picker_01 + 3 /\
  battery_level (self (snd (handle_pick_request pick_request_3 (mkLocal picker_01 [])))) =
    Z.max 0 (Z.max 0 (battery_level picker_01 - 2) - 3) /\
  tasks_completed
    (performance_metrics
       (self (snd (handle_pick_request pick_request_3 (mkLocal picker_01 []))))) =
    tasks_completed (performance_metrics picker_01) + 1.
Proof.
  apply (accepted_pick_effect pick_request_3 picker_01 [] 3);
    first [reflexivity | vm_compute; discriminate].
Defined.

(** *** Messages no handler tests for *)

Lemma world_eta w :
  mkWorld (heap w) (mas w) (stdout w) (rand w) (rand_ix w) (dispatched w) = w.
Proof. destruct w; reflexivity. Qed.

Lemma with_self_ret r w a :
  heap w !! r = Some a -> with_self r (ret tt) w = (Ret tt, w).
Proof.
  intros Hr. unfold with_self. rewrite Hr. simpl. unfold set_stdout, set_heap. simpl.
  rewrite list_insert_id by exact Hr. rewrite world_eta. reflexivity.
Qed.

(** X16.  The [handle_message] of the three subclasses drops a message whose
    type it does not test for: the call returns and nothing at all changes,
    not even the console (only [BaseAgent.handle_message] narrates).  So an
    order request that reaches a picker, or a pick request that reaches the
    coordinator, is consumed without trace. *)
Theorem unknown_message_ignored (w : World) (r : ref) (a : Agent) (message : Message) :
  heap w !! r = Some a ->
  cls a <> BaseCls ->
  ~ In (message_type message) (understood (cls a)) ->
  handle_message r message w = (Ret tt, w).
Proof.
  intros Hr Hcls Hty.
  assert (Hne : forall s, In s (understood (cls a)) ->
                  String.eqb (message_type message) s = false).
  { intros s Hs. apply String.eqb_neq. intros E. apply Hty. rewrite E. exact Hs. }
  unfold handle_message, bind at 1, get_agent. rewrite Hr.
  destruct (cls a) eqn:Ec; [congruence | | |]; simpl in Hne.
  - unfold Picker_handle_message. rewrite !Hne by tauto. apply (with_self_ret r w a Hr).
  - unfold Transport_handle_message. rewrite !Hne by tauto. apply (with_self_ret r w a Hr).
  - unfold Coordinator_handle_message. rewrite !Hne by tauto. reflexivity.
Qed.

Lemma unknown_message_ignored_witness :
  handle_message 1%nat stray_order (allocation_world (fun _ => 0)) =
    (Ret tt, allocation_world (fun _ => 0)).
Proof.
  apply (unknown_message_ignored (allocation_world (fun _ => 0)) 1%nat picker_01 stray_order).
  - reflexivity.
  - discriminate.
  - vm_compute. intros H. repeat (destruct H as [H | H]; [discriminate H |]). exact H.
Defined.

(** *** Counters that never move *)

#[global] Instance wkeeps_collaborations_frame :
  Frame (wkeeps collaborations) anything any_agent.
Proof. split; unfold wkeeps, collaborations; intros; simpl; congruence. Qed.

Ltac collab_leaf :=
  first
    [ exact I
    | intros; unfold wkeeps, collaborations; simpl; reflexivity ].

Lemma collaborations_run_op op : respects (wkeeps collaborations) (run_op op).
Proof. destruct op; respects_tac collab_leaf. Qed.

(** X17.  The system never counts a collaboration: the entry
    [collaboration_instances] of the system metrics is 0 after every
    sequence of driver calls, also after pickers accepted collaboration
    requests (these only raise the picker's own [collaboration_count]). *)
Theorem collaboration_never_counted (rnd : nat -> Z) (ops : list Op) :
  collaborations (exec ops (MultiAgentSystem_init rnd)) = 0.
Proof.
  pose proof (respects_exec (R := wkeeps collaborations) ops
                (fun op _ => collaborations_run_op op) (MultiAgentSystem_init rnd)) as H.
  rewrite H. reflexivity.
Qed.

(** A run in which the picker accepts a collaboration request. *)
Example collaboration_accepted :
  let w := exec [RouteMessage collaboration_01; SimulateStep 2]
             (allocation_world (fun _ => 0)) in
  (exists a, heap w !! 1%nat = Some a /\
             collaboration_count (performance_metrics a) = 1) /\
  collaborations w = 0.
Proof. vm_compute. split; [eexists; split; reflexivity | reflexivity]. Qed.

#[global] Instance transporter_stuck_agent_rel : AgentRel transporter_stuck.
Proof.
  split; unfold transporter_stuck.
  - intros a. repeat split.
  - intros a1 a2 a3 [Hc1 H1] [Hc2 H2]. split; [congruence |].
    intros Ht. destruct (H1 Ht) as (T1 & L1 & P1).
    rewrite <- Hc1 in Ht. destruct (H2 Ht) as (T2 & L2 & P2).
    repeat split; congruence.
Qed.

#[global] Instance transporter_stuck_closed : Closed transporter_stuck transporter_fresh.
Proof.
  unfold Closed, transporter_stuck, transporter_fresh.
  intros a a' Hf [Hc Hs] Ht. rewrite Hc in Ht.
  destruct (Hf Ht) as [T L]. destruct (Hs Ht) as (T' & L' & _).
  split; congruence.
Qed.

Lemma stuck_handle_pick_request request :
  lrespects transporter_stuck (handle_pick_request request).
Proof.
  intros [a o]. split.
  - revert a o. assert (H : lrespects (keeps cls) (handle_pick_request request))
      by lrespects_tac frame_leaf.
    intros a o. apply (H (mkLocal a o)).
  - intros Hcls. simpl in Hcls. run_pick request; simpl;
      first [congruence | repeat split].
Qed.

Lemma stuck_handle_transport_request request :
  lrespects transporter_stuck (handle_transport_request request).
Proof.
  intros [a o]. split.
  - revert a o. assert (H : lrespects (keeps cls) (handle_transport_request request))
      by lrespects_tac frame_leaf.
    intros a o. apply (H (mkLocal a o)).
  - intros Hcls. simpl in Hcls. run_transport request; simpl;
      first [congruence | repeat split].
Qed.

Ltac stuck_leaf :=
  first
    [ apply stuck_handle_pick_request
    | apply stuck_handle_transport_request
    | intros; apply heap_rel_same_heap; reflexivity
    | unfold transporter_stuck; intros; simpl; repeat split
    | unfold transporter_fresh; intros; simpl in *; first [discriminate | split; reflexivity] ].

Lemma stuck_run_op op :
  respects (heap_rel transporter_stuck transporter_fresh) (run_op op).
Proof. destruct op; respects_tac stuck_leaf. Qed.

(** X18.  No transporter ever delivers.  In every world the driver can
    reach, a transporter has completed no task and carries nothing; and
    from any world on, a transporter stays a transporter with the same
    task counter, the same load and the same position, whatever the driver
    calls: every accepted transport ends at the first move. *)
Theorem transporter_never_delivers (w : World) (ops : list Op) (r : ref) (a : Agent) :
  heap w !! r = Some a ->
  cls a = TransportCls ->
  exists a', heap (exec ops w) !! r = Some a' /\
             cls a' = TransportCls /\
             tasks_completed (performance_metrics a') =
               tasks_completed (performance_metrics a) /\
             current_load a' = current_load a /\
             position a' = position a /\
             (reachable w ->
              tasks_completed (performance_metrics a') = 0 /\ current_load a' = 0).
Proof.
  intros Hr Hcls.
  pose proof (respects_exec (R := heap_rel transporter_stuck transporter_fresh) ops
                (fun op _ => stuck_run_op op) w) as Hrel.
  destruct (heap_rel_lookup _ _ _ _ _ _ Hrel Hr) as (a' & Ha' & Hc & Hs).
  destruct (Hs Hcls) as (T & L & P).
  exists a'. split; [exact Ha' |]. split; [congruence |].
  split; [exact T |]. split; [exact L |]. split; [exact P |].
  intros (rnd & ops0 & ->).
  pose proof (respects_exec (R := heap_rel transporter_stuck transporter_fresh) ops0
                (fun op _ => stuck_run_op op) (MultiAgentSystem_init rnd)) as [_ H0].
  specialize (H0 r a Hr). simpl in H0.
  destruct (H0 Hcls) as [T0 L0].
  split; congruence.
Qed.

Lemma transporter_never_delivers_witness :
  exists a', heap (exec [ProcessOrder order_001; SimulateStep 1]
                     (allocation_world (fun _ => 0))) !! 2%nat = Some a' /\
             cls a' = TransportCls /\
             tasks_completed (performance_metrics a') =
               tasks_completed (performance_metrics transport_01) /\
             current_load a' = current_load transport_01 /\
             position a' = position transport_01 /\
             (reachable (allocation_world (fun _ => 0)) ->
              tasks_completed (performance_metrics a') = 0 /\ current_load a' = 0).
Proof.
  apply (transporter_never_delivers (allocation_world (fun _ => 0))
           [ProcessOrder order_001; SimulateStep 1] 2%nat transport_01);
    reflexivity.
Defined.

(** *** The simulation step *)

Lemma heap_rel_mono (Ra Ra' : Agent -> Agent -> Prop) Rnew w w' :
  (forall a a', Ra a a' -> Ra' a a') ->
  heap_rel Ra Rnew w w' -> heap_rel Ra' Rnew w w'.
Proof.
  intros Hsub [Hl H]. split; [exact Hl |].
  intros r a' Ha'. specialize (H r a' Ha'). destruct (heap w !! r); auto.
Qed.

#[global] Instance queue_shrinks_agent_rel : AgentRel queue_shrinks.
Proof. split; unfold queue_shrinks; intros; lia. Qed.

Lemma keeps_queue_shrinks a a' : keeps message_queue a a' -> queue_shrinks a a'.
Proof. unfold keeps, queue_shrinks. intros ->. lia. Qed.

Lemma shrink_handle_message r m :
  respects (heap_rel queue_shrinks any_agent) (handle_message r m).
Proof.
  intros w. eapply heap_rel_mono; [exact keeps_queue_shrinks |].
  apply (quiet_handle_message r m w).
Qed.

(** Draining a queue makes no queue longer: no handler of the repository
    sends a message. *)
Lemma shrink_process_messages fuel r :
  respects (heap_rel queue_shrinks any_agent) (process_messages fuel r).
Proof.
  unfold process_messages. induction fuel as [| fuel IH]; simpl; intros w.
  - apply frame_refl.
  - unfold bind at 1, get_agent.
    destruct (heap w !! r) as [a |] eqn:Ha; [| apply frame_refl].
    destruct (message_queue a) as [| m rest] eqn:Eq; [apply frame_refl |].
    unfold bind at 1, modify_agent. rewrite Ha. cbv beta iota.
    eapply frame_trans.
    + apply (frame_update w r a (set_message_queue rest a) Ha).
      unfold queue_shrinks. simpl. rewrite Eq. simpl. lia.
    + refine (respects_bind _ _ _ _ _).
      * apply respects_note_dispatch. intros w' d. apply heap_rel_same_heap. reflexivity.
      * intros _. apply respects_bind; [apply shrink_handle_message | intros _; exact IH].
Qed.

Lemma mas_process_messages fuel r : respects (wkeeps mas) (process_messages fuel r).
Proof. respects_tac frame_leaf. Qed.

Lemma quiet_competition :
  respects (rel_and (heap_rel (keeps message_queue) any_agent) (wkeeps mas))
    simulate_resource_competition.
Proof. respects_tac frame_leaf. Qed.

Lemma nf_competition : no_fuel simulate_resource_competition.
Proof. no_fuel_tac. Qed.

(** The loop of [simulate_step] over the agents. *)
Lemma drain_all fuel refs :
  forall w,
    (forall r, In r refs ->
       exists a, heap w !! r = Some a /\ (length (message_queue a) < fuel)%nat) ->
    fst (for_each refs (process_messages fuel) w) <> NoFuel /\
    (fst (for_each refs (process_messages fuel) w) = Ret tt ->
     forall r, In r refs ->
       queue_of r (snd (for_each refs (process_messages fuel) w)) = []).
Proof.
  induction refs as [| r refs IH]; intros w Hq; simpl.
  - split; [discriminate | intros _ r []].
  - destruct (Hq r (or_introl eq_refl)) as (a & Ha & Hlt).
    destruct (drain_repository fuel r w a Ha Hlt)
      as (res & w1 & a1 & done & E & Hres & Ha1 & _ & _ & Hret).
    pose proof (shrink_process_messages fuel r w) as Hs. rewrite E in Hs. simpl in Hs.
    unfold bind. rewrite E.
    destruct res as [[] | e | |]; simpl;
      try (split; [discriminate | intros; discriminate]); [| contradiction].
    assert (Hq1 : forall r', In r' refs ->
              exists a', heap w1 !! r' = Some a' /\
                         (length (message_queue a') < fuel)%nat).
    { intros r' Hin. destruct (Hq r' (or_intror Hin)) as (b & Hb & Hlb).
      destruct (heap_rel_lookup _ _ _ _ _ _ Hs Hb) as (b' & Hb' & Hsh).
      exists b'. split; [exact Hb' |]. unfold queue_shrinks in Hsh. lia. }
    destruct (IH w1 Hq1) as [Hnf Hemp]. split; [exact Hnf |].
    intros Hr r' [<- | Hin]; [| apply Hemp; assumption].
    destruct (Hret eq_refl) as [Hnil _].
    pose proof (respects_for_each (R := heap_rel queue_shrinks any_agent) refs
                  (process_messages fuel) (shrink_process_messages fuel) w1) as Hs2.
    destruct (heap_rel_lookup _ _ _ _ _ _ Hs2 Ha1) as (a2 & Ha2 & Hsh).
    unfold queue_of. rewrite Ha2. unfold queue_shrinks in Hsh. rewrite Hnil in Hsh.
    destruct (message_queue a2); [reflexivity | simpl in Hsh; lia].
Qed.

Lemma simulate_step_unfold fuel w :
  simulate_step fuel w =
    match for_each (dict_values (agents (mas w))) (process_messages fuel)
            (set_stdout (stdout w ++ [OStep]) w) with
    | (Ret _, w1) => simulate_resource_competition w1
    | (Raise e, w1) => (Raise e, w1)
    | (NoFuel, w1) => (NoFuel, w1)
    | (BadRef, w1) => (BadRef, w1)
    end.
Proof. reflexivity. Qed.

Lemma queues_below_check fuel w :
  forallb (fun r => match heap w !! r with
                    | Some a => (length (message_queue a) <? fuel)%nat
                    | None => true
                    end) (dict_values (agents (mas w))) = true ->
  queues_below fuel w.
Proof.
  intros H r a Hin Hr. rewrite forallb_forall in H. specialize (H r Hin).
  rewrite Hr in H. apply Nat.ltb_lt, H.
Qed.

(** X19.  A simulation step consumes every queued message.  In a world the
    driver can reach, with fuel above the length of every queue of the
    system, [simulate_step] does not run out of fuel (each [while] loop of
    [process_messages] ends: no handler of the repository enqueues
    anything), and when the step returns normally every agent of the system
    is left with an empty queue.  (It ends in an exception instead when a
    handler raises, as an accepted transport request does.) *)
Theorem step_drains_queues (w : World) (fuel : nat) :
  reachable w ->
  queues_below fuel w ->
  fst (simulate_step fuel w) <> NoFuel /\
  (fst (simulate_step fuel w) = Ret tt -> queues_empty (snd (simulate_step fuel w))).
Proof.
  intros Hreach Hq. pose proof (reachable_wf w Hreach) as Hwf.
  rewrite simulate_step_unfold.
  set (w0 := set_stdout (stdout w ++ [OStep]) w).
  set (refs := dict_values (agents (mas w))).
  assert (Hq0 : forall r, In r refs ->
            exists a, heap w0 !! r = Some a /\ (length (message_queue a) < fuel)%nat).
  { intros r Hin. destruct (wf_values_live w r Hwf Hin) as [a Ha].
    exists a. split; [exact Ha | apply (Hq r a Hin Ha)]. }
  destruct (drain_all fuel refs w0 Hq0) as [Hnf Hemp].
  pose proof (respects_for_each (R := wkeeps mas) refs (process_messages fuel)
                (mas_process_messages fuel) w0) as Hmas.
  pose proof (respects_for_each (R := heap_rel queue_shrinks any_agent) refs
                (process_messages fuel) (shrink_process_messages fuel) w0) as Hsh.
  destruct (for_each refs (process_messages fuel) w0) as [res w1].
  simpl in Hnf, Hemp, Hmas, Hsh.
  destruct res as [[] | e | |]; simpl;
    try (split; [discriminate | intros; discriminate]); [| contradiction].
  split; [apply nf_competition |].
  intros _ r a Hin Ha.
  destruct (quiet_competition w1) as [Hk Hm].
  unfold wkeeps in Hm, Hmas. rewrite Hm, Hmas in Hin.
  change (mas w0) with (mas w) in Hin. fold refs in Hin.
  destruct (wf_values_live w r Hwf Hin) as [a0 Ha0].
  destruct (heap_rel_lookup _ _ _ _ _ _ Hsh Ha0) as (a1 & Ha1 & _).
  destruct (heap_rel_lookup _ _ _ _ _ _ Hk Ha1) as (a2 & Ha2 & Hkq).
  assert (E : a2 = a) by congruence. subst a2.
  unfold keeps in Hkq. rewrite Hkq.
  specialize (Hemp eq_refl r Hin). unfold queue_of in Hemp. rewrite Ha1 in Hemp.
  exact Hemp.
Qed.

Lemma step_drains_queues_witness :
  fst (simulate_step 2 noisy_world) <> NoFuel /\
  (fst (simulate_step 2 noisy_world) = Ret tt ->
   queues_empty (snd (simulate_step 2 noisy_world))).
Proof.
  apply (step_drains_queues noisy_world 2).
  - exists (fun _ => 0), (allocation_scenario ++ [RouteMessage broadcast_01]).
    vm_compute. reflexivity.
  - apply queues_below_check. vm_compute. reflexivity.
Defined.
